(** * Talk-to-my-tabs: the session manager and the chunked summarization

    A shallow embedding of the extension's

    - [utils/text-chunker]    : [splitIntoChunks], [estimateTokens]
    - [utils/session-manager] : the class [AISessionManager]
    - [api/chrome-ai/articles]: [simplifyArticle]
    - [api/chrome-ai/summarizer]: [summarize]

    JavaScript strings are sequences of UTF-16 code units; the numbers the
    code uses as indices, sizes and millisecond timestamps are integers.
    An [async] function is a tree of effects that is either run on its own
    ([exec]) or interleaved with other calls at its [await] points
    ([steps]).  Errors are [Error] objects, known by their message. *)

From Stdlib Require Import String Ascii ZArith NArith Bool List Sorted Lia.
Import ListNotations.
Open Scope Z_scope.

(** ** JavaScript strings *)

Module JS.

Definition text := list N.

Definition str (s : string) : text := map N_of_ascii (list_ascii_of_string s).

(** [s.length] *)
Definition len (s : text) : Z := Z.of_nat (List.length s).

(** [s.substring(a, b)]: both indices are clamped to [0, s.length] and
    swapped when [a > b]. *)
Definition clamp (s : text) (i : Z) : Z := Z.max 0 (Z.min i (len s)).

Definition substring (s : text) (a b : Z) : text :=
  let a' := clamp s a in
  let b' := clamp s b in
  let lo := Z.min a' b' in
  let hi := Z.max a' b' in
  firstn (Z.to_nat (hi - lo)) (skipn (Z.to_nat lo) s).

(** [s.lastIndexOf(c)] for a one-unit pattern [c]: the last index holding [c],
    or [-1]. *)
Fixpoint lastIndexOf_from (s : text) (c : N) (i found : Z) : Z :=
  match s with
  | [] => found
  | x :: r => lastIndexOf_from r c (i + 1) (if N.eqb x c then i else found)
  end.

Definition lastIndexOf (s : text) (c : N) : Z := lastIndexOf_from s c 0 (-1).

(** ECMAScript WhiteSpace and LineTerminator code units, which [trim]
    strips. *)
Definition isWhiteSpace (c : N) : bool :=
  ((9 <=? c) && (c <=? 13) || (c =? 32) || (c =? 160) || (c =? 5760)
   || (8192 <=? c) && (c <=? 8202) || (c =? 8232) || (c =? 8233)
   || (c =? 8239) || (c =? 8287) || (c =? 12288) || (c =? 65279))%N.

Fixpoint trimStart (s : text) : text :=
  match s with
  | [] => []
  | c :: r => if isWhiteSpace c then trimStart r else s
  end.

Fixpoint trimEnd (s : text) : text :=
  match s with
  | [] => []
  | c :: r =>
      match trimEnd r with
      | [] => if isWhiteSpace c then [] else [c]
      | r' => c :: r'
      end
  end.

Definition trim (s : text) : text := trimEnd (trimStart s).

(** [xs.join(sep)] *)
Fixpoint join (sep : text) (xs : list text) : text :=
  match xs with
  | [] => []
  | [x] => x
  | x :: r => x ++ sep ++ join sep r
  end.

(** [s.includes(pat)] *)
Fixpoint startsWith (s pat : text) : bool :=
  match pat, s with
  | [], _ => true
  | _ :: _, [] => false
  | p :: pat', c :: s' => N.eqb p c && startsWith s' pat'
  end.

Fixpoint includes (s pat : text) : bool :=
  startsWith s pat ||
  match s with
  | [] => false
  | _ :: s' => includes s' pat
  end.

Definition text_eqb (a b : text) : bool :=
  if list_eq_dec N.eq_dec a b then true else false.

Definition FULL_STOP : N := 46.
Definition LINE_FEED : N := 10.
Definition SPACE : N := 32.

End JS.

Import JS.

(** ** utils/text-chunker.ts *)

Record ChunkOptions := {
  maxChunkSize : option Z;
  overlap : option Z
}.

Definition DEFAULT_CHUNK_SIZE : Z := 4000.
Definition DEFAULT_OVERLAP : Z := 200.

(** [Math.max(lastPeriod, lastNewline, lastSpace)] of a window. *)
Definition breakPointOf (chunk : text) : Z :=
  let lastPeriod := lastIndexOf chunk FULL_STOP in
  let lastNewline := lastIndexOf chunk LINE_FEED in
  let lastSpace := lastIndexOf chunk SPACE in
  Z.max (Z.max lastPeriod lastNewline) lastSpace.

(** One pass through the body of the [while] loop: the chunk that is pushed
    and the next [startIndex].  [breakPoint > maxSize * 0.5] is the integer
    test [maxSize < 2 * breakPoint]. *)
Definition splitBody (t : text) (maxSize overlap startIndex : Z) : text * Z :=
  let endIndex := Z.min (startIndex + maxSize) (len t) in
  let chunk := substring t startIndex endIndex in
  if endIndex <? len t then
    let breakPoint := breakPointOf chunk in
    if maxSize <? 2 * breakPoint then
      (trim (substring t startIndex (startIndex + breakPoint + 1)),
       startIndex + breakPoint + 1 - overlap)
    else
      (trim chunk, endIndex - overlap)
  else
    (trim chunk, endIndex).

(** The [while (startIndex < text.length)] loop.  The loop does not end for
    every choice of options, so it runs on fuel: one unit per evaluation of
    the loop condition, [None] when the fuel is used up. *)
Fixpoint splitLoop (fuel : nat) (t : text) (maxSize overlap startIndex : Z)
         (chunks : list text) : option (list text) :=
  match fuel with
  | O => None
  | S fuel' =>
      if startIndex <? len t then
        let '(chunk, next) := splitBody t maxSize overlap startIndex in
        splitLoop fuel' t maxSize overlap next (chunks ++ [chunk])
      else Some chunks
  end.

Definition optMaxChunkSize (options : option ChunkOptions) : Z :=
  match options with
  | Some o => match maxChunkSize o with Some m => m | None => DEFAULT_CHUNK_SIZE end
  | None => DEFAULT_CHUNK_SIZE
  end.

Definition optOverlap (options : option ChunkOptions) : Z :=
  match options with
  | Some o => match overlap o with Some v => v | None => DEFAULT_OVERLAP end
  | None => DEFAULT_OVERLAP
  end.

Definition splitIntoChunks (fuel : nat) (t : text)
           (options : option ChunkOptions) : option (list text) :=
  let maxSize := optMaxChunkSize options in
  let overlap := optOverlap options in
  if len t <=? maxSize then Some [t]
  else splitLoop fuel t maxSize overlap 0 [].

(** [Math.ceil(text.length / 4)] *)
Definition estimateTokens (t : text) : Z := (len t + 3) / 4.

(** The start indices the loop visits, in order. *)
Fixpoint splitStarts (fuel : nat) (t : text) (maxSize overlap startIndex : Z)
  : list Z :=
  match fuel with
  | O => []
  | S fuel' =>
      if startIndex <? len t then
        startIndex ::
        splitStarts fuel' t maxSize overlap
          (snd (splitBody t maxSize overlap startIndex))
      else []
  end.


(** ** The host runtime seen from the extension *)

Inductive SessionType := summarizer | languageModel.

Inductive AIAvailability := unavailable | downloadable | downloading | available.

(** A session object created by the host; only its identity matters here. *)
Definition handle := nat.
Bind Scope nat_scope with handle.

(** A thrown [Error], by its [message]. *)
Definition error := text.

(** How a promise settles. *)
Inductive result (A : Type) : Type :=
| Resolved (a : A)
| Rejected (e : error).
Arguments Resolved {A} a.
Arguments Rejected {A} e.

Definition SessionType_eqb (a b : SessionType) : bool :=
  match a, b with
  | summarizer, summarizer | languageModel, languageModel => true
  | _, _ => false
  end.

Definition typeName (ty : SessionType) : text :=
  match ty with
  | summarizer => str "summarizer"
  | languageModel => str "languageModel"
  end.

Definition availabilityName (a : AIAvailability) : text :=
  match a with
  | unavailable => str "unavailable"
  | downloadable => str "downloadable"
  | downloading => str "downloading"
  | available => str "available"
  end.

(** ** utils/session-manager.ts: the data *)

(** [config.options] is kept as the text [JSON.stringify] gives for it;
    [None] is a missing (falsy) [options]. *)
Record SessionConfig := {
  cfg_type : SessionType;
  cfg_options : option text
}.

Record ManagedSession := {
  session : handle;
  type : SessionType;
  createdAt : Z;
  lastUsedAt : Z;
  useCount : Z
}.

(** A JavaScript [Map] with string keys: entries in insertion order, [set]
    on a key that is present keeps its place. *)
Definition SessionMap := list (text * ManagedSession).

Fixpoint map_get (key : text) (m : SessionMap) : option ManagedSession :=
  match m with
  | [] => None
  | (k, v) :: r => if text_eqb k key then Some v else map_get key r
  end.

Fixpoint map_set (key : text) (v : ManagedSession) (m : SessionMap) : SessionMap :=
  match m with
  | [] => [(key, v)]
  | (k, v') :: r =>
      if text_eqb k key then (k, v) :: r else (k, v') :: map_set key v r
  end.

Fixpoint map_delete (key : text) (m : SessionMap) : SessionMap :=
  match m with
  | [] => []
  | (k, v) :: r => if text_eqb k key then r else (k, v) :: map_delete key r
  end.

Definition map_size (m : SessionMap) : Z := Z.of_nat (length m).

(** The fields of [AISessionManager].  [creationQueue] is initialised to a
    resolved promise and no method reads or assigns it. *)
Record AISessionManager := {
  sessions : SessionMap;
  creationQueue : unit;
  lastCreationTime : Z
}.

Definition MIN_CREATION_INTERVAL : Z := 1000.
Definition MAX_SESSIONS : Z := 3.
Definition SESSION_TIMEOUT : Z := 5 * 60 * 1000.

Definition newManager : AISessionManager :=
  {| sessions := []; creationQueue := tt; lastCreationTime := 0 |}.

Definition withSessions (f : SessionMap -> SessionMap) (m : AISessionManager)
  : AISessionManager :=
  {| sessions := f (sessions m);
     creationQueue := creationQueue m;
     lastCreationTime := lastCreationTime m |}.

Definition withLastCreationTime (now : Z) (m : AISessionManager)
  : AISessionManager :=
  {| sessions := sessions m;
     creationQueue := creationQueue m;
     lastCreationTime := now |}.

(** ** Asynchronous code

    An [async] function is a tree of its effects.  The synchronous ones read
    the clock, the manager's fields, an [AbortSignal], the globals, or call
    [destroy()]; the others are the [await] points, where the function is
    suspended and the event loop may run something else. *)

Inductive prog (R : Type) : Type :=
| Ret (r : R)
| Throw (e : error)
| DateNow (k : Z -> prog R)
| ReadManager (k : AISessionManager -> prog R)
| ModifyManager (f : AISessionManager -> AISessionManager) (k : prog R)
| SignalAborted (signal : nat) (k : bool -> prog R)
| InSelf (ty : SessionType) (k : bool -> prog R)
| HostDestroy (h : handle) (k : result unit -> prog R)
| AwaitTick (k : prog R)
| SetTimeout (ms : Z) (k : prog R)
| HostAvailability (ty : SessionType) (timeout : Z) (timeoutError : error)
                   (k : result AIAvailability -> prog R)
| HostCreate (ty : SessionType) (options : text) (timeout : Z)
             (timeoutError : error) (k : result handle -> prog R)
| HostSummarize (h : handle) (input : text) (context : option text)
                (k : result text -> prog R).

Arguments Ret {R} r.
Arguments Throw {R} e.
Arguments DateNow {R} k.
Arguments ReadManager {R} k.
Arguments ModifyManager {R} f k.
Arguments SignalAborted {R} signal k.
Arguments InSelf {R} ty k.
Arguments HostDestroy {R} h k.
Arguments AwaitTick {R} k.
Arguments SetTimeout {R} ms k.
Arguments HostAvailability {R} ty timeout timeoutError k.
Arguments HostCreate {R} ty options timeout timeoutError k.
Arguments HostSummarize {R} h input context k.

Fixpoint bind {A B : Type} (p : prog A) (f : A -> prog B) : prog B :=
  match p with
  | Ret r => f r
  | Throw e => Throw e
  | DateNow k => DateNow (fun x => bind (k x) f)
  | ReadManager k => ReadManager (fun x => bind (k x) f)
  | ModifyManager g k => ModifyManager g (bind k f)
  | SignalAborted s k => SignalAborted s (fun x => bind (k x) f)
  | InSelf ty k => InSelf ty (fun x => bind (k x) f)
  | HostDestroy h k => HostDestroy h (fun x => bind (k x) f)
  | AwaitTick k => AwaitTick (bind k f)
  | SetTimeout ms k => SetTimeout ms (bind k f)
  | HostAvailability ty tm te k =>
      HostAvailability ty tm te (fun x => bind (k x) f)
  | HostCreate ty o tm te k => HostCreate ty o tm te (fun x => bind (k x) f)
  | HostSummarize h i c k => HostSummarize h i c (fun x => bind (k x) f)
  end.

(** [try { p } catch (error) { handler error }] *)
Fixpoint tryCatch {A : Type} (p : prog A) (handler : error -> prog A) : prog A :=
  match p with
  | Ret r => Ret r
  | Throw e => handler e
  | DateNow k => DateNow (fun x => tryCatch (k x) handler)
  | ReadManager k => ReadManager (fun x => tryCatch (k x) handler)
  | ModifyManager g k => ModifyManager g (tryCatch k handler)
  | SignalAborted s k => SignalAborted s (fun x => tryCatch (k x) handler)
  | InSelf ty k => InSelf ty (fun x => tryCatch (k x) handler)
  | HostDestroy h k => HostDestroy h (fun x => tryCatch (k x) handler)
  | AwaitTick k => AwaitTick (tryCatch k handler)
  | SetTimeout ms k => SetTimeout ms (tryCatch k handler)
  | HostAvailability ty tm te k =>
      HostAvailability ty tm te (fun x => tryCatch (k x) handler)
  | HostCreate ty o tm te k =>
      HostCreate ty o tm te (fun x => tryCatch (k x) handler)
  | HostSummarize h i c k =>
      HostSummarize h i c (fun x => tryCatch (k x) handler)
  end.

Declare Scope prog_scope.
Delimit Scope prog_scope with prog.
Bind Scope prog_scope with prog.

Notation "x <- p ;; q" := (bind p (fun x => q))
  (at level 61, p at next level, right associativity) : prog_scope.
Notation "p ;; q" := (bind p (fun _ => q))
  (at level 61, right associativity) : prog_scope.

Open Scope prog_scope.

(** The settled value of an awaited promise: a rejection is rethrown. *)
Definition settle {A : Type} (r : result A) : prog A :=
  match r with
  | Resolved a => Ret a
  | Rejected e => Throw e
  end.

Definition dateNow : prog Z := DateNow Ret.
Definition readManager : prog AISessionManager := ReadManager Ret.
Definition modifyManager (f : AISessionManager -> AISessionManager) : prog unit :=
  ModifyManager f (Ret tt).
Definition inSelf (ty : SessionType) : prog bool := InSelf ty Ret.

(** [await new Promise(resolve => setTimeout(resolve, ms))] *)
Definition sleep (ms : Z) : prog unit := SetTimeout ms (Ret tt).

(** [await f(...)] for an [async] function [f]: the caller goes on one turn
    of the microtask queue after [f] has finished. *)
Definition await {A : Type} (p : prog A) : prog A :=
  x <- p ;; AwaitTick (Ret x).

(** [signal?.aborted] *)
Definition signalAborted (signal : option nat) : prog bool :=
  match signal with
  | Some s => SignalAborted s Ret
  | None => Ret false
  end.

(** [session.destroy()], a synchronous call that may throw. *)
Definition destroy (h : handle) : prog unit := HostDestroy h settle.

(** ** [JSON.stringify] of the option objects *)

Definition hexDigit (n : N) : N :=
  (if n <? 10 then 48 + n else 87 + n)%N.

(** [\uXXXX] *)
Definition unicodeEscape (c : N) : text :=
  [92; 117; hexDigit (c / 4096 mod 16); hexDigit (c / 256 mod 16);
   hexDigit (c / 16 mod 16); hexDigit (c mod 16)]%N.

Definition isHighSurrogate (c : N) : bool := ((55296 <=? c) && (c <=? 56319))%N.
Definition isLowSurrogate (c : N) : bool := ((56320 <=? c) && (c <=? 57343))%N.

Definition escapeUnit (c : N) : text :=
  (if c =? 34 then [92; 34]
   else if c =? 92 then [92; 92]
   else if c =? 8 then [92; 98]
   else if c =? 9 then [92; 116]
   else if c =? 10 then [92; 110]
   else if c =? 12 then [92; 102]
   else if c =? 13 then [92; 114]
   else if c <? 32 then unicodeEscape c
   else [c])%N.

Fixpoint quoteUnits (s : text) : text :=
  match s with
  | [] => []
  | c :: r =>
      if isHighSurrogate c then
        match r with
        | d :: r' =>
            if isLowSurrogate d then c :: d :: quoteUnits r'
            else unicodeEscape c ++ quoteUnits r
        | [] => unicodeEscape c
        end
      else if isLowSurrogate c then unicodeEscape c ++ quoteUnits r
      else escapeUnit c ++ quoteUnits r
  end.

Definition jsonString (s : text) : text := [34%N] ++ quoteUnits s ++ [34%N].

Definition jsonObject (fields : list (string * text)) : text :=
  str "{" ++
  join (str ",") (map (fun f => jsonString (str (fst f)) ++ str ":" ++ snd f) fields) ++
  str "}".

(** ** utils/session-manager.ts: the methods *)

(** [`${config.type}-${JSON.stringify(config.options || {})}`] *)
Definition sessionKeyOf (config : SessionConfig) : text :=
  typeName (cfg_type config) ++ str "-" ++
  match cfg_options config with
  | Some o => o
  | None => str "{}"
  end.

Definition updateSession (key : text) (f : ManagedSession -> ManagedSession)
           (m : SessionMap) : SessionMap :=
  match map_get key m with
  | Some v => map_set key (f v) m
  | None => m
  end.

Definition setLastUsedAt (now : Z) (v : ManagedSession) : ManagedSession :=
  {| session := session v; type := type v; createdAt := createdAt v;
     lastUsedAt := now; useCount := useCount v |}.

Definition incrUseCount (v : ManagedSession) : ManagedSession :=
  {| session := session v; type := type v; createdAt := createdAt v;
     lastUsedAt := lastUsedAt v; useCount := useCount v + 1 |}.

(** The body shared by [cleanup], [destroyOldestSession] and
    [destroySession]:
    [try { await delay(200); session.session.destroy(); this.sessions.delete(key) }
     catch (error) { this.sessions.delete(key) }],
    where [managed] is what [this.sessions.get(key)] gave before the [try];
    reading [.session] of [undefined] throws inside the [try]. *)
Definition destroyAndDelete (key : text) (managed : option ManagedSession)
  : prog unit :=
  tryCatch
    (sleep 200 ;;
     match managed with
     | Some s => destroy (session s)
     | None => Throw (str "Cannot read properties of undefined (reading 'session')")
     end ;;
     modifyManager (withSessions (map_delete key)))
    (fun _ => modifyManager (withSessions (map_delete key))).

(** [cleanup]: the keys of the expired sessions, in the map's order. *)
Definition expiredKeys (now : Z) (m : SessionMap) : list text :=
  map fst (filter (fun e => SESSION_TIMEOUT <? now - lastUsedAt (snd e)) m).

Fixpoint cleanupLoop (toDestroy : list text) : prog unit :=
  match toDestroy with
  | [] => Ret tt
  | key :: more =>
      m <- readManager ;;
      destroyAndDelete key (map_get key (sessions m)) ;;
      cleanupLoop more
  end.

Definition cleanup : prog unit :=
  now <- dateNow ;;
  m <- readManager ;;
  cleanupLoop (expiredKeys now (sessions m)).

(** [destroyOldestSession]: the scan for the least [lastUsedAt];
    [oldestTime = None] stands for [Infinity]. *)
Definition oldestStep (acc : option text * option Z) (e : text * ManagedSession)
  : option text * option Z :=
  let older :=
    match snd acc with
    | None => true
    | Some oldestTime => lastUsedAt (snd e) <? oldestTime
    end in
  if older then (Some (fst e), Some (lastUsedAt (snd e))) else acc.

Definition oldestKeyOf (m : SessionMap) : option text :=
  fst (fold_left oldestStep m (None, None)).

(** [if (oldestKey)]: [null] and the empty string are falsy. *)
Definition truthyKey (k : option text) : bool :=
  match k with
  | Some (_ :: _) => true
  | _ => false
  end.

Definition destroyOldestSession : prog unit :=
  m <- readManager ;;
  let oldestKey := oldestKeyOf (sessions m) in
  if truthyKey oldestKey then
    match oldestKey with
    | Some key => destroyAndDelete key (map_get key (sessions m))
    | None => Ret tt
    end
  else Ret tt.

Definition destroySession (config : SessionConfig) : prog unit :=
  let sessionKey := sessionKeyOf config in
  m <- readManager ;;
  match map_get sessionKey (sessions m) with
  | Some managed => destroyAndDelete sessionKey (Some managed)
  | None => Ret tt
  end.

(** [destroyAll] *)
Fixpoint destroyAllLoop (keys : list text) : prog unit :=
  match keys with
  | [] => Ret tt
  | key :: more =>
      m <- readManager ;;
      tryCatch
        (sleep 200 ;;
         match map_get key (sessions m) with
         | Some s => destroy (session s)
         | None => Throw (str "Cannot read properties of undefined (reading 'session')")
         end)
        (fun _ => Ret tt) ;;
      destroyAllLoop more
  end.

Definition destroyAll : prog unit :=
  m <- readManager ;;
  destroyAllLoop (map fst (sessions m)) ;;
  modifyManager (withSessions (fun _ => [])).

Definition getSessionCount : prog Z :=
  m <- readManager ;; Ret (map_size (sessions m)).

(** [createSummarizerWithRetry] and [createLanguageModelWithRetry] differ in
    the global they use, its name in the messages and the options they fall
    back to.  [left] counts the passes of the [for] loop still to come after
    this one: [i === retries] is [left = 0]. *)
Definition apiName (ty : SessionType) : text :=
  match ty with
  | summarizer => str "Summarizer"
  | languageModel => str "LanguageModel"
  end.

Definition defaultCreateOptions (ty : SessionType) : text :=
  match ty with
  | summarizer =>
      jsonObject [("type", jsonString (str "key-points"));
                  ("format", jsonString (str "markdown"));
                  ("length", jsonString (str "medium"))]%string
  | languageModel =>
      jsonObject [("temperature", str "0.7"); ("topK", str "3")]%string
  end.

Definition createAttempt (ty : SessionType) (options : option text) : prog handle :=
  present <- inSelf ty ;;
  if negb present then Throw (apiName ty ++ str " API not available")
  else
    availability <-
      HostAvailability ty 5000 (str "Availability check timeout") settle ;;
    match availability with
    | available =>
        HostCreate ty
          (match options with Some o => o | None => defaultCreateOptions ty end)
          15000 (str "Session creation timeout") settle
    | _ =>
        Throw (apiName ty ++ str " not available: " ++ availabilityName availability)
    end.

Fixpoint createWithRetry (ty : SessionType) (options : option text) (left : nat)
  : prog handle :=
  tryCatch (createAttempt ty options)
    (fun error =>
       match left with
       | O => Throw error
       | S left' => sleep 2000 ;; createWithRetry ty options left'
       end).

Definition createSummarizerWithRetry (options : option text) (retries : nat)
  : prog handle :=
  createWithRetry summarizer options retries.

Definition createLanguageModelWithRetry (options : option text) (retries : nat)
  : prog handle :=
  createWithRetry languageModel options retries.

Definition createSessionInternal (config : SessionConfig) : prog handle :=
  match cfg_type config with
  | summarizer => await (createSummarizerWithRetry (cfg_options config) 2)
  | languageModel => await (createLanguageModelWithRetry (cfg_options config) 2)
  end.

(** The part of [getSession] after a miss: sweep, capacity, rate limit,
    creation and bookkeeping. *)
Definition createAndStore (config : SessionConfig) (sessionKey : text)
  : prog handle :=
  await cleanup ;;
  m <- readManager ;;
  (if MAX_SESSIONS <=? map_size (sessions m)
   then await destroyOldestSession else Ret tt) ;;
  now <- dateNow ;;
  m <- readManager ;;
  let timeSinceLastCreation := now - lastCreationTime m in
  (if timeSinceLastCreation <? MIN_CREATION_INTERVAL
   then sleep (MIN_CREATION_INTERVAL - timeSinceLastCreation) else Ret tt) ;;
  tryCatch
    (session <- await (createSessionInternal config) ;;
     now <- dateNow ;;
     modifyManager (withLastCreationTime now) ;;
     created <- dateNow ;;
     used <- dateNow ;;
     modifyManager
       (withSessions
          (map_set sessionKey
             {| session := session; type := cfg_type config;
                createdAt := created; lastUsedAt := used; useCount := 1 |})) ;;
     Ret session)
    (fun error => Throw error).

Definition getSession (config : SessionConfig) : prog handle :=
  let sessionKey := sessionKeyOf config in
  m <- readManager ;;
  match map_get sessionKey (sessions m) with
  | Some existing =>
      now <- dateNow ;;
      modifyManager (withSessions (updateSession sessionKey (setLastUsedAt now))) ;;
      modifyManager (withSessions (updateSession sessionKey incrUseCount)) ;;
      Ret (session existing)
  | None => createAndStore config sessionKey
  end.

(** ** summarizer/summarize.ts *)

Definition summarize (summarizer : handle) (input : text) (context : option text)
  : prog text :=
  tryCatch
    (result <- HostSummarize summarizer input context settle ;;
     Ret result)
    (fun error => Throw error).

(** ** articles/simplify-article.ts *)

Inductive SimplificationLevel := Low | Mid | High.

Definition MAX_INPUT_TOKENS : Z := 4000.
Definition CHARS_PER_TOKEN : Z := 4.

Definition getLengthForLevel (level : SimplificationLevel) : text :=
  match level with
  | High => str "short"
  | Mid => str "medium"
  | Low => str "long"
  end.

(** [JSON.stringify(summarizerOptions)]: a [sharedContext] that is
    [undefined] is left out. *)
Definition summarizerOptions (length : text) (context : option text) : text :=
  jsonObject
    ([("type", jsonString (str "key-points"));
      ("format", jsonString (str "markdown"));
      ("length", jsonString length)]%string ++
     match context with
     | Some c => [("sharedContext"%string, jsonString c)]
     | None => []
     end).

(** [splitIntoChunks(content, { maxChunkSize, overlap: 200 })] as
    [simplifyArticle] calls it.  The fuel is one more than the length of the
    text, which is enough for these options ([simplifyChunks_total]). *)
Definition simplifyChunks (content : text) : list text :=
  let maxChunkSize := MAX_INPUT_TOKENS * CHARS_PER_TOKEN in
  match
    splitIntoChunks (S (length content)) content
      (Some {| maxChunkSize := Some maxChunkSize; overlap := Some 200 |})
  with
  | Some chunks => chunks
  | None => []
  end.

(** The [for] loop over the chunks, entered with the chunks still to do and
    the summaries pushed so far; [i < chunks.length - 1] holds when a chunk
    follows the current one. *)
Fixpoint processChunks (summarizer : handle) (context : option text)
         (signal : option nat) (chunks : list text) (summaries : list text)
  : prog (list text) :=
  match chunks with
  | [] => Ret summaries
  | chunk :: more =>
      aborted <- signalAborted signal ;;
      if aborted then Throw (str "Operation cancelled")
      else
        summary <- await (summarize summarizer chunk context) ;;
        match more with
        | [] => Ret tt
        | _ :: _ => sleep 500
        end ;;
        processChunks summarizer context signal more (summaries ++ [summary])
  end.

(** What follows the loop: the fold and the final pass. *)
Definition foldSummaries (summarizer : handle) (context : option text)
           (signal : option nat) (summaries : list text) : prog text :=
  let combinedSummary := join [LINE_FEED; LINE_FEED] summaries in
  if MAX_INPUT_TOKENS <? estimateTokens combinedSummary then
    aborted <- signalAborted signal ;;
    if aborted then Throw (str "Operation cancelled")
    else
      finalResult <- await (summarize summarizer combinedSummary context) ;;
      Ret finalResult
  else Ret combinedSummary.

(** The statements after the session is acquired. *)
Definition simplifyWith (summarizer : handle) (content : text)
           (context : option text) (signal : option nat) : prog text :=
  let estimatedTokens := estimateTokens content in
  aborted <- signalAborted signal ;;
  if aborted then Throw (str "Operation cancelled")
  else if MAX_INPUT_TOKENS <? estimatedTokens then
    let chunks := simplifyChunks content in
    summaries <- processChunks summarizer context signal chunks [] ;;
    foldSummaries summarizer context signal summaries
  else
    result <- await (summarize summarizer content context) ;;
    Ret result.

(** The [catch] block. *)
Definition friendlyError (error : error) : prog text :=
  if includes error (str "cancelled") then
    Throw (str "Simplification was cancelled")
  else if includes error (str "timeout") then
    Throw (str "Simplification timed out. Please try with a shorter article.")
  else if includes error (str "not available") then
    Throw (str "Chrome AI is not available. Please check your setup.")
  else Throw error.

Definition simplifyConfig (level : SimplificationLevel) (context : option text)
  : SessionConfig :=
  {| cfg_type := summarizer;
     cfg_options := Some (summarizerOptions (getLengthForLevel level) context) |}.

Definition simplifyArticle (content : text) (level : SimplificationLevel)
           (context : option text) (signal : option nat) : prog text :=
  aborted <- signalAborted signal ;;
  if aborted then Throw (str "Operation cancelled")
  else
    tryCatch
      (summarizer <- await (getSession (simplifyConfig level context)) ;;
       simplifyWith summarizer content context signal)
      friendlyError.

(** ** Running asynchronous code

    The world a function runs in: the singleton [sessionManager], the clock
    that [Date.now()] reads, the signals that have been aborted, the
    capability globals present in [self], and the sessions whose
    [destroy()] throws. *)

Record World := {
  manager : AISessionManager;
  clock : Z;
  abortedSignals : list nat;
  globals : list SessionType;
  faulty : list handle
}.

(** What the host and the user do while a function is suspended at an
    [await]: the time that passes, the signals the user aborts, and how the
    awaited host promise settles (the field for the call that is pending is
    the one that counts). *)
Record reply := {
  elapsed : Z;
  aborts : list nat;
  availability : result AIAvailability;
  created : result handle;
  summary : result text
}.

(** Calls into the host runtime and aborts by the user, with the time on the
    clock. *)
Inductive Event :=
| EvCreate (time : Z) (ty : SessionType) (options : text)
| EvDestroy (time : Z) (h : handle)
| EvProcess (time : Z) (h : handle) (input : text)
| EvAbort (time : Z) (signal : nat).

Definition withManager (f : AISessionManager -> AISessionManager) (w : World)
  : World :=
  {| manager := f (manager w); clock := clock w;
     abortedSignals := abortedSignals w; globals := globals w;
     faulty := faulty w |}.

(** The clock moves by [d] and the user aborts [ss]. *)
Definition pass (d : Z) (ss : list nat) (w : World) : World :=
  {| manager := manager w; clock := clock w + d;
     abortedSignals := ss ++ abortedSignals w; globals := globals w;
     faulty := faulty w |}.

Definition isAborted (s : nat) (w : World) : bool :=
  existsb (Nat.eqb s) (abortedSignals w).

Definition hasGlobal (ty : SessionType) (w : World) : bool :=
  existsb (SessionType_eqb ty) (globals w).

Definition destroyResult (h : handle) (w : World) : result unit :=
  if existsb (Nat.eqb h) (faulty w)
  then Rejected (str "destroy failed") else Resolved tt.

(** A reply that never comes in time and fails whatever is awaited: what a
    run sees once its list of replies is used up. *)
Definition silence : reply :=
  {| elapsed := 0; aborts := [];
     availability := Rejected (str "no answer");
     created := Rejected (str "no answer");
     summary := Rejected (str "no answer") |}.

Definition nextReply (rs : list reply) : reply :=
  match rs with
  | r :: _ => r
  | [] => silence
  end.

(** [Promise.race([hostPromise, timeoutPromise])]: the host has [waited]
    milliseconds to settle before the timer rejects. *)
Definition race {A : Type} (waited timeout : Z) (timeoutError : error)
           (host : result A) : result A :=
  if waited <? timeout then host else Rejected timeoutError.

Record Run (R : Type) := {
  outcome : result R;
  final : World;
  unused : list reply;
  events : list Event
}.
Arguments outcome {R} r.
Arguments final {R} r.
Arguments unused {R} r.
Arguments events {R} r.

Definition emit {R : Type} (evs : list Event) (r : Run R) : Run R :=
  {| outcome := outcome r; final := final r; unused := unused r;
     events := evs ++ events r |}.

Definition abortEvents (time : Z) (ss : list nat) : list Event :=
  map (EvAbort time) ss.

(** One function run on its own: it is resumed at each [await] with the next
    reply.  A timer fires when it is due or later; a raced host call is
    abandoned after its timeout. *)
Fixpoint exec {R : Type} (p : prog R) (rs : list reply) (w : World) : Run R :=
  match p with
  | Ret r =>
      {| outcome := Resolved r; final := w; unused := rs; events := [] |}
  | Throw e =>
      {| outcome := Rejected e; final := w; unused := rs; events := [] |}
  | DateNow k => exec (k (clock w)) rs w
  | ReadManager k => exec (k (manager w)) rs w
  | ModifyManager f k => exec k rs (withManager f w)
  | SignalAborted s k => exec (k (isAborted s w)) rs w
  | InSelf ty k => exec (k (hasGlobal ty w)) rs w
  | HostDestroy h k =>
      emit [EvDestroy (clock w) h] (exec (k (destroyResult h w)) rs w)
  | AwaitTick k => exec k rs w
  | SetTimeout ms k =>
      let r := nextReply rs in
      let d := Z.max (Z.max 0 ms) (elapsed r) in
      emit (abortEvents (clock w + d) (aborts r))
           (exec k (tl rs) (pass d (aborts r) w))
  | HostAvailability ty timeout te k =>
      let r := nextReply rs in
      let waited := Z.max 0 (elapsed r) in
      let d := Z.min waited timeout in
      emit (abortEvents (clock w + d) (aborts r))
           (exec (k (race waited timeout te (availability r))) (tl rs)
                 (pass d (aborts r) w))
  | HostCreate ty options timeout te k =>
      let r := nextReply rs in
      let waited := Z.max 0 (elapsed r) in
      let d := Z.min waited timeout in
      emit (EvCreate (clock w) ty options :: abortEvents (clock w + d) (aborts r))
           (exec (k (race waited timeout te (created r))) (tl rs)
                 (pass d (aborts r) w))
  | HostSummarize h input context k =>
      let r := nextReply rs in
      let d := Z.max 0 (elapsed r) in
      emit (EvProcess (clock w) h input :: abortEvents (clock w + d) (aborts r))
           (exec (k (summary r)) (tl rs) (pass d (aborts r) w))
  end.

(** ** Several calls in flight

    The event loop with more than one [async] call pending.  A call runs its
    synchronous part as soon as it is made and is parked at its first
    [await]; the loop then resumes one parked call at a time. *)

Inductive value := VHandle (h : handle) | VText (t : text) | VUnit.

Definition asHandle (p : prog handle) : prog value := h <- p ;; Ret (VHandle h).
Definition asText (p : prog text) : prog value := t <- p ;; Ret (VText t).
Definition asUnit (p : prog unit) : prog value := p ;; Ret VUnit.

(** A parked call: the clock when it was parked and what is left of it,
    which starts with the [await] it is parked at (or is finished). *)
Record Task := {
  since : Z;
  code : prog value
}.

Record Loop := {
  world : World;
  tasks : list Task;
  trace : list Event
}.

(** The synchronous part of a call, up to its next [await] or its end. *)
Fixpoint runSync {R : Type} (p : prog R) (w : World)
  : World * list Event * prog R :=
  match p with
  | DateNow k => runSync (k (clock w)) w
  | ReadManager k => runSync (k (manager w)) w
  | ModifyManager f k => runSync k (withManager f w)
  | SignalAborted s k => runSync (k (isAborted s w)) w
  | InSelf ty k => runSync (k (hasGlobal ty w)) w
  | HostDestroy h k =>
      let '(w', evs, p') := runSync (k (destroyResult h w)) w in
      (w', EvDestroy (clock w) h :: evs, p')
  | _ => (w, [], p)
  end.

(** The host call that starts when a call parks. *)
Definition issued {R : Type} (time : Z) (p : prog R) : list Event :=
  match p with
  | HostCreate ty options _ _ _ => [EvCreate time ty options]
  | HostSummarize h input _ _ => [EvProcess time h input]
  | _ => []
  end.

(** When a parked call may be resumed at the earliest. *)
Definition dueTime {R : Type} (since : Z) (p : prog R) : Z :=
  match p with
  | SetTimeout ms _ => since + Z.max 0 ms
  | _ => since
  end.

(** What a parked call goes on with when it is resumed [waited] milliseconds
    after it was parked; [None] for a call that has finished. *)
Definition wake {R : Type} (p : prog R) (waited : Z) (r : reply)
  : option (prog R) :=
  match p with
  | AwaitTick k => Some k
  | SetTimeout _ k => Some k
  | HostAvailability _ timeout te k =>
      Some (k (race waited timeout te (availability r)))
  | HostCreate _ _ timeout te k =>
      Some (k (race waited timeout te (created r)))
  | HostSummarize _ _ _ k => Some (k (summary r))
  | _ => None
  end.

Definition park (p : prog value) (l : Loop) : Task * Loop :=
  let '(w, evs, p') := runSync p (world l) in
  ({| since := clock w; code := p' |},
   {| world := w; tasks := tasks l;
      trace := trace l ++ evs ++ issued (clock w) p' |}).

Fixpoint replaceTask (i : nat) (t : Task) (ts : list Task) : list Task :=
  match ts, i with
  | [], _ => []
  | _ :: r, O => t :: r
  | x :: r, S i' => x :: replaceTask i' t r
  end.

Inductive Action :=
| Call (p : prog value)
| Resume (i : nat) (r : reply).

(** [Call p]: some caller invokes the function [p]; it becomes the last
    task.  [Resume i r]: [elapsed r] milliseconds pass (more when task [i]
    waits for a timer that is not due yet), the user aborts [aborts r], and
    task [i] goes on with the answers of [r]. *)
Definition step (a : Action) (l : Loop) : option Loop :=
  match a with
  | Call p =>
      let '(t, l') := park p l in
      Some {| world := world l'; tasks := tasks l' ++ [t]; trace := trace l' |}
  | Resume i r =>
      match nth_error (tasks l) i with
      | None => None
      | Some t =>
          let now :=
            Z.max (clock (world l) + Z.max 0 (elapsed r))
                  (dueTime (since t) (code t)) in
          let w := pass (now - clock (world l)) (aborts r) (world l) in
          match wake (code t) (now - since t) r with
          | None => None
          | Some p =>
              let l1 := {| world := w; tasks := tasks l;
                           trace := trace l ++ abortEvents now (aborts r) |} in
              let '(t', l2) := park p l1 in
              Some {| world := world l2;
                      tasks := replaceTask i t' (tasks l2);
                      trace := trace l2 |}
          end
      end
  end.

Fixpoint steps (acts : list Action) (l : Loop) : option Loop :=
  match acts with
  | [] => Some l
  | a :: more =>
      match step a l with
      | Some l' => steps more l'
      | None => None
      end
  end.

Definition startLoop (w : World) : Loop :=
  {| world := w; tasks := []; trace := [] |}.

(** The times of the [create] calls of a trace. *)
Definition createTimes (evs : list Event) : list Z :=
  flat_map (fun e => match e with EvCreate t _ _ => [t] | _ => [] end) evs.

Definition isProcess (e : Event) : bool :=
  match e with EvProcess _ _ _ => true | _ => false end.

Definition isDestroy (e : Event) : bool :=
  match e with EvDestroy _ _ => true | _ => false end.

Definition isCreate (e : Event) : bool :=
  match e with EvCreate _ _ _ => true | _ => false end.

(** The inputs of the [process] calls of a trace, in order, with the session
    each was sent to. *)
Definition processCalls (evs : list Event) : list (handle * text) :=
  flat_map (fun e => match e with EvProcess _ h i => [(h, i)] | _ => [] end) evs.

(** What a run goes on with after its first part [r]. *)
Definition andThen {A B : Type} (r : Run A)
           (k : A -> list reply -> World -> Run B) : Run B :=
  match outcome r with
  | Resolved a => emit (events r) (k a (unused r) (final r))
  | Rejected e =>
      {| outcome := Rejected e; final := final r; unused := unused r;
         events := events r |}
  end.

Definition orElse {A : Type} (r : Run A)
           (k : error -> list reply -> World -> Run A) : Run A :=
  match outcome r with
  | Resolved a => r
  | Rejected e => emit (events r) (k e (unused r) (final r))
  end.

(** What a function guarantees about its result and the world it leaves
    whenever it returns. *)
Definition ensures {A : Type} (p : prog A) (Q : A -> World -> Prop) : Prop :=
  forall rs w a,
    outcome (exec p rs w) = Resolved a -> Q a (final (exec p rs w)).

(** The events of a trace that are calls into the host. *)
Definition isAbort (e : Event) : bool :=
  match e with EvAbort _ _ => true | _ => false end.

Definition hostCalls (evs : list Event) : list Event :=
  filter (fun e => negb (isAbort e)) evs.

(** The pooled session of a config in a world. *)
Definition pooled (config : SessionConfig) (w : World) : option ManagedSession :=
  map_get (sessionKeyOf config) (sessions (manager w)).

(** ** Callers used to state the properties *)


(** A fresh extension: no session yet, both capability globals present,
    the clock at some time of day. *)
Definition freshWorld : World :=
  {| manager := newManager; clock := 1000000; abortedSignals := [];
     globals := [summarizer; languageModel]; faulty := [] |}.

Definition plainSummarizer : SessionConfig :=
  {| cfg_type := summarizer; cfg_options := None |}.

Definition plainLanguageModel : SessionConfig :=
  {| cfg_type := languageModel; cfg_options := None |}.

Definition chatConfig (systemPrompt : string) : SessionConfig :=
  {| cfg_type := languageModel;
     cfg_options :=
       Some (jsonObject [("systemPrompt"%string, jsonString (str systemPrompt))]) |}.

(** The host answers after [d] milliseconds: the capability is available,
    [create] gives the session [h], [summarize] gives a short text. *)
Definition answer (d : Z) (h : handle) : reply :=
  {| elapsed := d; aborts := [];
     availability := Resolved available;
     created := Resolved h;
     summary := Resolved (str "A summary.") |}.

(** The host rejects the pending call after [d] milliseconds. *)
Definition failure (d : Z) (message : string) : reply :=
  {| elapsed := d; aborts := [];
     availability := Resolved available;
     created := Rejected (str message);
     summary := Rejected (str message) |}.

(** Where a parked call stands. *)
Inductive Pending :=
| Finished (r : result value)
| AtTick
| AtTimer (ms : Z)
| AtAvailability (ty : SessionType)
| AtCreate (ty : SessionType)
| AtProcess (h : handle) (input : text)
| Running.

Definition pending (t : Task) : Pending :=
  match code t with
  | Ret v => Finished (Resolved v)
  | Throw e => Finished (Rejected e)
  | AwaitTick _ => AtTick
  | SetTimeout ms _ => AtTimer ms
  | HostAvailability ty _ _ _ => AtAvailability ty
  | HostCreate ty _ _ _ _ => AtCreate ty
  | HostSummarize h input _ _ => AtProcess h input
  | _ => Running
  end.

(** Are the times of a list, taken in order, at least [gap] apart? *)
Fixpoint spaced (gap : Z) (times : list Z) : bool :=
  match times with
  | a :: ((b :: _) as more) => (a + gap <=? b) && spaced gap more
  | _ => true
  end.

(** The sessions of the pool as (handle, lastUsedAt). *)
Definition poolView (l : Loop) : list (handle * Z) :=
  map (fun e => (session (snd e), lastUsedAt (snd e)))
      (sessions (manager (world l))).

Definition destroyCalls (evs : list Event) : list (Z * handle) :=
  flat_map (fun e => match e with EvDestroy t h => [(t, h)] | _ => [] end) evs.

Definition processTimes (evs : list Event) : list (Z * handle) :=
  flat_map (fun e => match e with EvProcess t h _ => [(t, h)] | _ => [] end) evs.

(** A turn of the microtask queue: no time passes. *)
Definition tick : reply := answer 0 0.

Definition acquire (config : SessionConfig) : Action :=
  Call (asHandle (getSession config)).

(** Two acquires for different configs made in the same turn, as when the
    background script gets two messages and starts a function for each
    without awaiting it.  Each call is parked at [await this.cleanup()];
    then the calls take turns. *)
Definition twoAcquiresUntilCreate : list Action :=
  [ acquire plainSummarizer;        (* task 0 *)
    acquire plainLanguageModel;     (* task 1 *)
    Resume 0 tick;                  (* task 0: past the sweep, both checks; asks availability *)
    Resume 1 tick;                  (* task 1: the same *)
    Resume 0 (answer 3 0);       (* task 0: available; calls create *)
    Resume 1 (answer 0 0) ].     (* task 1: available; calls create *)

Definition twoAcquires : list Action :=
  twoAcquiresUntilCreate ++
  [ Resume 0 (answer 40 1);      (* task 0: session 1 created *)
    Resume 1 (answer 5 2);       (* task 1: session 2 created *)
    Resume 0 tick; Resume 1 tick;
    Resume 0 tick; Resume 1 tick ]. (* both store their session and return *)

(** Four acquires for four configs made in the same turn. *)
Definition fourAcquires : list Action :=
  [ acquire plainSummarizer; acquire plainLanguageModel;
    acquire (chatConfig "a"); acquire (chatConfig "b");
    Resume 0 tick; Resume 1 tick; Resume 2 tick; Resume 3 tick;
    Resume 0 (answer 3 0); Resume 1 (answer 0 0);
    Resume 2 (answer 0 0); Resume 3 (answer 0 0);
    Resume 0 (answer 40 1); Resume 1 (answer 5 2);
    Resume 2 (answer 5 3); Resume 3 (answer 5 4);
    Resume 0 tick; Resume 1 tick; Resume 2 tick; Resume 3 tick;
    Resume 0 tick; Resume 1 tick; Resume 2 tick; Resume 3 tick ].

(** An article is being simplified (its one [summarize] call is pending)
    while the chat is opened three times with different system prompts. *)
Definition shortArticle : text := str "A short article.".

Definition simplifyUntilProcess : list Action :=
  [ Call (asText (simplifyArticle shortArticle Mid None None));  (* task 0 *)
    Resume 0 tick;                  (* past the sweep and the checks *)
    Resume 0 (answer 3 0);       (* available; calls create *)
    Resume 0 (answer 40 1);      (* session 1 created *)
    Resume 0 tick; Resume 0 tick;   (* stored and returned *)
    Resume 0 tick ].                (* summarize(session 1) is pending *)

Definition chatAcquire (i : nat) (prompt : string) (h : handle) : list Action :=
  [ acquire (chatConfig prompt);    (* task i: a miss *)
    Resume i tick;                  (* past the sweep; below capacity; waits out the interval *)
    Resume i (answer 0 0);       (* the interval is over; asks availability *)
    Resume i (answer 3 0);       (* available; calls create *)
    Resume i (answer 40 h);      (* session h created *)
    Resume i tick; Resume i tick ]. (* stored and returned *)

Definition evictionWhileProcessing : list Action :=
  simplifyUntilProcess ++
  chatAcquire 1 "a" 2 ++
  chatAcquire 2 "b" 3 ++
  [ acquire (chatConfig "c");       (* task 3: a miss with three sessions pooled *)
    Resume 3 tick;                  (* past the sweep; at capacity: the oldest is session 1 *)
    Resume 3 (answer 0 0) ].     (* the 200 ms are over: session 1 is destroyed *)

(** The extension is suspended, and [destroyAll] runs, while the article is
    being simplified. *)
Definition destroyAllWhileProcessing : list Action :=
  simplifyUntilProcess ++
  [ Call (asUnit destroyAll);       (* task 1: waits 200 ms for session 1 *)
    Resume 1 (answer 0 0) ].     (* destroys session 1, clears the map *)

(** What the properties below look at in a state of the event loop. *)
Record Observation := {
  obs_tasks : list Pending;
  obs_creates : list Z;
  obs_destroys : list (Z * handle);
  obs_processes : list (Z * handle);
  obs_pool : list (handle * Z);
  obs_lastCreationTime : Z
}.

Definition observe (l : Loop) : Observation :=
  {| obs_tasks := map pending (tasks l);
     obs_creates := createTimes (trace l);
     obs_destroys := destroyCalls (trace l);
     obs_processes := processTimes (trace l);
     obs_pool := poolView l;
     obs_lastCreationTime := lastCreationTime (manager (world l)) |}.

Definition observeAfter (acts : list Action) (w : World) : option Observation :=
  option_map observe (steps acts (startLoop w)).

(** Every event a function causes, in whatever run, satisfies [Q]. *)
Definition Emits {A : Type} (Q : Event -> Prop) (p : prog A) : Prop :=
  forall rs w, Forall Q (events (exec p rs w)).

Definition notProcess (e : Event) : Prop := isProcess e = false.
Definition notDestroy (e : Event) : Prop := isDestroy e = false.
Definition notCreate (e : Event) : Prop := isCreate e = false.

(** A function calls the host's [create] at most [n] times in a run. *)
Definition CreatesAtMost {A : Type} (n : nat) (p : prog A) : Prop :=
  forall rs w, (length (createTimes (events (exec p rs w))) <= n)%nat.

(** The value of [signal?.aborted] in a world. *)
Definition sigAborted (signal : option nat) (w : World) : bool :=
  match signal with
  | Some s => isAborted s w
  | None => false
  end.

(** The first passes of the [for] loop of [simplifyArticle], over chunks
    that are all followed by another chunk: each pass ends with the pause of
    500 ms. *)
Fixpoint processPrefix (summarizer : handle) (context : option text)
         (signal : option nat) (chunks : list text) (summaries : list text)
  : prog (list text) :=
  match chunks with
  | [] => Ret summaries
  | chunk :: more =>
      aborted <- signalAborted signal ;;
      if aborted then Throw (str "Operation cancelled")
      else
        summary <- await (summarize summarizer chunk context) ;;
        sleep 500 ;;
        processPrefix summarizer context signal more (summaries ++ [summary])
  end.

Definition rejected {R : Type} (e : error) (rs : list reply) (w : World) : Run R :=
  {| outcome := Rejected e; final := w; unused := rs; events := [] |}.


(** A caller that acquires one config after the other, each call awaited
    before the next. *)
Fixpoint acquireEach (configs : list SessionConfig) : prog (list handle) :=
  match configs with
  | [] => Ret []
  | config :: more =>
      h <- await (getSession config) ;;
      hs <- acquireEach more ;;
      Ret (h :: hs)
  end.

Definition fourConfigs : list SessionConfig :=
  [plainSummarizer; plainLanguageModel; chatConfig "a"; chatConfig "b"].

Definition fourCreations : list reply :=
  [ answer 3 0; answer 40 1;                  (* availability, create *)
    answer 0 0; answer 3 0; answer 40 2;   (* interval, availability, create *)
    answer 0 0; answer 3 0; answer 40 3;
    answer 0 0;                                  (* the 200 ms before the eviction *)
    answer 0 0; answer 3 0; answer 40 4 ].

(** ** Inputs used as instances *)

Definition letters (n : Z) : text := repeat 97%N (Z.to_nat n).

Definition chunkOptions (maxSize overlap : Z) : option ChunkOptions :=
  Some {| maxChunkSize := Some maxSize; overlap := Some overlap |}.

(** The host answers [summarize] with the text [s] after [d] milliseconds,
    while the user aborts the signals [ss]. *)
Definition summaryOf (d : Z) (s : text) (ss : list nat) : reply :=
  {| elapsed := d; aborts := ss;
     availability := Resolved available;
     created := Resolved 0%nat;
     summary := Resolved s |}.

(** Does a run of the chunk loop return exactly these summaries? *)
Definition returns (r : result (list text)) (summaries : list text) : bool :=
  match r with
  | Resolved out =>
      if list_eq_dec (list_eq_dec N.eq_dec) out summaries then true else false
  | Rejected _ => false
  end.

(** An article of two chunks whose summaries come back long. *)
Definition twoChunkArticle : text := letters 16001.
Definition longSummary : text := letters 9000.
Definition longSummaryReplies : list reply :=
  [ summaryOf 900 longSummary [];   (* chunk 1 *)
    answer 0 0;                  (* the pause *)
    summaryOf 900 longSummary [];   (* chunk 2 *)
    summaryOf 700 (str "The gist.") [] ].     (* the final pass *)

(** An article of five chunks; the user aborts signal 7 while the second
    chunk is with the host. *)
Definition fiveChunkArticle : text := letters 70000.
Definition abortDuringSecondChunk : list reply :=
  [ answer 3 0;                          (* availability *)
    answer 40 1;                         (* create: session 1 *)
    summaryOf 900 (str "one") [];           (* chunk 1 *)
    answer 0 0;                          (* the pause *)
    summaryOf 900 (str "two") [7%nat];      (* chunk 2; the user cancels *)
    answer 0 0 ].                        (* the pause *)

(** The same article of two chunks; the user aborts signal 7 while the last
    chunk is with the host. *)
Definition abortDuringLastChunk : list reply :=
  [ answer 3 0;                          (* availability *)
    answer 40 1;                         (* create: session 1 *)
    summaryOf 900 longSummary [];           (* chunk 1 *)
    answer 0 0;                          (* the pause *)
    summaryOf 900 longSummary [7%nat] ].    (* chunk 2; the user cancels *)

(** A world in which signal 7 is aborted already. *)
Definition cancelledWorld : World := pass 0 [7%nat] freshWorld.

(** ** utils/contentExtractor.ts: [cleanTextContent] *)

(** [text.replace(/\s+/g, ' ')]: every maximal run of whitespace becomes
    one space.  [inRun] tells that the unit before was whitespace. *)
Fixpoint replaceWhiteSpace (inRun : bool) (s : text) : text :=
  match s with
  | [] => []
  | c :: r =>
      if isWhiteSpace c then
        if inRun then replaceWhiteSpace true r
        else SPACE :: replaceWhiteSpace true r
      else c :: replaceWhiteSpace false r
  end.

(** [text.replace(/\n{3,}/g, '\n\n')]: every maximal run of three or more
    line feeds becomes two.  [run] counts the line feeds of the run being
    read, which are written when the run ends. *)
Definition writeNewlines (run : nat) : text :=
  repeat LINE_FEED (if (3 <=? run)%nat then 2%nat else run).

Fixpoint replaceNewlines (run : nat) (s : text) : text :=
  match s with
  | [] => writeNewlines run
  | c :: r =>
      if N.eqb c LINE_FEED then replaceNewlines (S run) r
      else writeNewlines run ++ c :: replaceNewlines 0 r
  end.

Definition cleanTextContent (t : text) : text :=
  trim (replaceNewlines 0 (replaceWhiteSpace false t)).

(** Texts in which whitespace occurs only as single spaces between other
    units. *)
Fixpoint singleSpaced (afterSpace : bool) (s : text) : bool :=
  match s with
  | [] => true
  | c :: r =>
      if isWhiteSpace c then
        negb afterSpace && N.eqb c SPACE && singleSpaced true r
      else singleSpaced false r
  end.

Definition startsWithWhiteSpace (s : text) : bool :=
  match s with
  | c :: _ => isWhiteSpace c
  | [] => false
  end.

Fixpoint endsWithWhiteSpace (s : text) : bool :=
  match s with
  | [] => false
  | [c] => isWhiteSpace c
  | _ :: r => endsWithWhiteSpace r
  end.

Definition tidy (s : text) : bool :=
  singleSpaced false s && negb (startsWithWhiteSpace s) &&
  negb (endsWithWhiteSpace s).

(** The units of a text that are not whitespace. *)
Definition inked (s : text) : text :=
  filter (fun c => negb (isWhiteSpace c)) s.

(** ** The windows of the splitter *)

(** Where the chunk of the window at [startIndex] ends in the text, before
    it is trimmed: at the break point, or at the window's edge. *)
Definition cutOf (t : text) (maxSize startIndex : Z) : Z :=
  let endIndex := Z.min (startIndex + maxSize) (len t) in
  if endIndex <? len t then
    let breakPoint := breakPointOf (substring t startIndex endIndex) in
    if maxSize <? 2 * breakPoint then startIndex + breakPoint + 1 else endIndex
  else endIndex.

(** The stretches [(start, cut)] of the text the loop takes its chunks
    from, in order. *)
Fixpoint splitWindows (fuel : nat) (t : text) (maxSize overlap startIndex : Z)
  : list (Z * Z) :=
  match fuel with
  | O => []
  | S fuel' =>
      if startIndex <? len t then
        (startIndex, cutOf t maxSize startIndex) ::
        splitWindows fuel' t maxSize overlap
          (snd (splitBody t maxSize overlap startIndex))
      else []
  end.

(** Stretches that follow each other from [startIndex] to the end of a text
    of length [n]: each is not empty and at most [maxSize] long, each but
    the last is followed by one that starts [overlap] before its end, and
    the last ends where the text ends. *)
Fixpoint chained (n maxSize overlap startIndex : Z) (ws : list (Z * Z)) : Prop :=
  match ws with
  | [] => n <= startIndex
  | (a, c) :: more =>
      a = startIndex /\ startIndex < c <= n /\ c - startIndex <= maxSize /\
      chained n maxSize overlap (if c <? n then c - overlap else c) more
  end.

Definition stretch (t : text) (w : Z * Z) : text :=
  trim (substring t (fst w) (snd w)).

(** ** The state of the session manager *)

(** A [Map] holds each key once. *)
Definition distinctKeys (m : SessionMap) : Prop := NoDup (map fst m).

(** Is the session expired at [now]? ([cleanup]) *)
Definition expired (now : Z) (v : ManagedSession) : bool :=
  SESSION_TIMEOUT <? now - lastUsedAt v.

(** The handles of the sessions of a map, in its order. *)
Definition handlesOf (m : SessionMap) : list handle :=
  map (fun e => session (snd e)) m.

(** The session stored under a key. *)
Definition pooledKey (key : text) (w : World) : option ManagedSession :=
  map_get key (sessions (manager w)).

(** The pool as acquires that are awaited one after the other keep it: each
    key once, no empty key, and at most [MAX_SESSIONS] sessions. *)
Definition poolOk (m : SessionMap) : Prop :=
  distinctKeys m /\ Forall (fun e => fst e <> []) m /\ map_size m <= MAX_SESSIONS.

(** The [try] block of [getSession]. *)
Definition createAndRecord (config : SessionConfig) (sessionKey : text)
  : prog handle :=
  tryCatch
    (session <- await (createSessionInternal config) ;;
     now <- dateNow ;;
     modifyManager (withLastCreationTime now) ;;
     created <- dateNow ;;
     used <- dateNow ;;
     modifyManager
       (withSessions
          (map_set sessionKey
             {| session := session; type := cfg_type config;
                createdAt := created; lastUsedAt := used; useCount := 1 |})) ;;
     Ret session)
    (fun error => Throw error).

(** The record [getSession] stores for a session it has created. *)
Definition newRecord (config : SessionConfig) (h : handle) (now : Z)
  : ManagedSession :=
  {| session := h; type := cfg_type config;
     createdAt := now; lastUsedAt := now; useCount := 1 |}.

(** The host does not report the model as available. *)
Definition notAvailable (r : reply) : Prop :=
  availability r <> Resolved available.

(** A caller that acquires one config after the other, each call awaited
    before the next, and goes on when an acquire is rejected:
    [try { await sessionManager.getSession(config) ... } catch (error) { ... }]. *)
Fixpoint acquireAnyway (configs : list SessionConfig) : prog unit :=
  match configs with
  | [] => Ret tt
  | config :: more =>
      tryCatch (_ <- await (getSession config) ;; Ret tt) (fun _ => Ret tt) ;;
      acquireAnyway more
  end.

(** The host rejects all three [create] calls of an acquire, and answers
    the next acquire at once. *)
Definition thriceRejected : list reply :=
  [ answer 3 0; failure 10 "GPU busy";      (* availability, create: rejected *)
    answer 0 0;                             (* the 2000 ms before the retry *)
    answer 3 0; failure 10 "GPU busy";
    answer 0 0;
    answer 3 0; failure 10 "GPU busy";
    answer 3 0; answer 40 1 ].              (* the next acquire *)

(** ** Inputs used as instances of the further properties *)

(** Are the keys of a list all different? *)
Fixpoint distinctb (keys : list text) : bool :=
  match keys with
  | [] => true
  | k :: more => negb (existsb (text_eqb k) more) && distinctb more
  end.

Definition poolOkb (m : SessionMap) : bool :=
  distinctb (map fst m) &&
  forallb (fun e => match fst e with [] => false | _ :: _ => true end) m &&
  (map_size m <=? MAX_SESSIONS).

Definition recordOf (h : handle) (ty : SessionType) (used : Z) : ManagedSession :=
  {| session := h; type := ty; createdAt := used; lastUsedAt := used;
     useCount := 1 |}.

(** A pool at its capacity, at 1000000: the summarizer session was last
    used more than five minutes before; [destroy()] of session 2 throws. *)
Definition fullWorld : World :=
  {| manager :=
       {| sessions :=
            [ (sessionKeyOf plainSummarizer, recordOf 1 summarizer 600000);
              (sessionKeyOf plainLanguageModel, recordOf 2 languageModel 900000);
              (sessionKeyOf (chatConfig "a"), recordOf 3 languageModel 950000) ];
          creationQueue := tt;
          lastCreationTime := 950000 |};
     clock := 1000000; abortedSignals := [];
     globals := [summarizer; languageModel]; faulty := [2%nat] |}.

(** A browser without the capability globals. *)
Definition bareWorld : World :=
  {| manager := newManager; clock := 1000000; abortedSignals := [];
     globals := []; faulty := [] |}.

(** The host reports after [d] milliseconds that the model is still being
    downloaded. *)
Definition stillDownloading (d : Z) : reply :=
  {| elapsed := d; aborts := [];
     availability := Resolved downloading;
     created := Resolved 0%nat;
     summary := Resolved (str "A summary.") |}.

(** Five words, to be split into chunks of at most ten code units. *)
Definition fiveWords : text := str "aaaa bbbb cccc dddd eeee".

(** * Properties *)

(** ** Facts about the string operations *)

Section StringFacts.

Lemma len_nonneg (s : text) : 0 <= len s.
Proof. unfold len; lia. Qed.

Lemma len_cons (c : N) (s : text) : len (c :: s) = 1 + len s.
Proof. unfold len; cbn [List.length]; lia. Qed.

Lemma len_nil : len [] = 0.
Proof. reflexivity. Qed.


Lemma clamp_range (s : text) (i : Z) : 0 <= clamp s i <= len s.
Proof. unfold clamp; pose proof (len_nonneg s); lia. Qed.

Lemma len_substring (s : text) (a b : Z) :
  len (substring s a b) =
  Z.max (clamp s a) (clamp s b) - Z.min (clamp s a) (clamp s b).
Proof.
  unfold substring, len at 1.
  pose proof (clamp_range s a) as Ha; pose proof (clamp_range s b) as Hb.
  rewrite length_firstn, length_skipn.
  unfold len in *; lia.
Qed.

Lemma lastIndexOf_from_range (s : text) (c : N) :
  forall i found,
    -1 <= found < i ->
    -1 <= lastIndexOf_from s c i found < i + len s.
Proof.
  induction s as [|x r IH]; intros i found H; simpl.
  - rewrite len_nil; lia.
  - rewrite len_cons.
    destruct (N.eqb x c);
      [pose proof (IH (i + 1) i) | pose proof (IH (i + 1) found)]; lia.
Qed.

Lemma lastIndexOf_range (s : text) (c : N) : -1 <= lastIndexOf s c < len s.
Proof.
  unfold lastIndexOf.
  pose proof (lastIndexOf_from_range s c 0 (-1)); lia.
Qed.

Lemma len_trimStart (s : text) : len (trimStart s) <= len s.
Proof.
  induction s as [|c r IH]; simpl; [lia|].
  destruct (isWhiteSpace c); [|lia].
  rewrite len_cons; lia.
Qed.

Lemma len_trimEnd (s : text) : len (trimEnd s) <= len s.
Proof.
  induction s as [|c r IH]; simpl; [lia|].
  destruct (trimEnd r) as [|y r'].
  - destruct (isWhiteSpace c); rewrite ?len_cons, ?len_nil in *;
      pose proof (len_nonneg r); lia.
  - rewrite !len_cons in *; lia.
Qed.

Lemma len_trim (s : text) : len (trim s) <= len s.
Proof.
  unfold trim.
  pose proof (len_trimEnd (trimStart s)); pose proof (len_trimStart s); lia.
Qed.

End StringFacts.

(** ** Facts about the splitter *)

Section Splitter.

Variable t : text.
Variables maxSize overlap : Z.

Lemma breakPointOf_range (chunk : text) :
  -1 <= breakPointOf chunk < len chunk.
Proof.
  unfold breakPointOf.
  pose proof (lastIndexOf_range chunk FULL_STOP).
  pose proof (lastIndexOf_range chunk LINE_FEED).
  pose proof (lastIndexOf_range chunk SPACE).
  lia.
Qed.

(** Every chunk the loop body pushes fits the window size. *)
Lemma splitBody_chunk_le (startIndex : Z) :
  0 <= maxSize -> startIndex < len t ->
  len (fst (splitBody t maxSize overlap startIndex)) <= maxSize.
Proof.
  intros HM Hs. unfold splitBody.
  set (e := Z.min (startIndex + maxSize) (len t)).
  set (chunk := substring t startIndex e).
  assert (Hc : len chunk <= maxSize).
  { unfold chunk. rewrite len_substring. unfold clamp, e.
    pose proof (len_nonneg t). lia. }
  destruct (e <? len t); [|simpl; pose proof (len_trim chunk); lia].
  pose proof (breakPointOf_range chunk) as Hb.
  destruct (maxSize <? 2 * breakPointOf chunk); simpl.
  - etransitivity; [apply len_trim|].
    rewrite len_substring. unfold clamp. pose proof (len_nonneg t). lia.
  - pose proof (len_trim chunk); lia.
Qed.

(** A window that is not the last one moves the start by at most
    [maxSize - overlap]. *)
Lemma splitBody_next_le (startIndex : Z) :
  0 <= maxSize -> startIndex + maxSize < len t ->
  snd (splitBody t maxSize overlap startIndex) <= startIndex + maxSize - overlap.
Proof.
  intros HM Hs. unfold splitBody.
  set (e := Z.min (startIndex + maxSize) (len t)).
  set (chunk := substring t startIndex e).
  assert (Hc : len chunk <= maxSize).
  { unfold chunk. rewrite len_substring. unfold clamp, e.
    pose proof (len_nonneg t). lia. }
  pose proof (breakPointOf_range chunk) as Hb.
  destruct (Z.ltb_spec e (len t)); [|unfold e in *; lia].
  destruct (maxSize <? 2 * breakPointOf chunk); simpl; unfold e; lia.
Qed.

(** Under the precondition on the options the start index moves forward. *)
Lemma splitBody_progress (startIndex : Z) :
  1 <= maxSize -> 0 <= overlap -> 2 * overlap <= maxSize ->
  0 <= startIndex < len t ->
  startIndex < snd (splitBody t maxSize overlap startIndex).
Proof.
  intros HM Ho Hov Hs. unfold splitBody.
  set (e := Z.min (startIndex + maxSize) (len t)).
  set (chunk := substring t startIndex e).
  destruct (Z.ltb_spec e (len t)).
  - destruct (Z.ltb_spec maxSize (2 * breakPointOf chunk)); simpl; unfold e in *; lia.
  - simpl. unfold e in *. lia.
Qed.

Lemma splitLoop_acc (fuel : nat) :
  forall startIndex chunks,
    splitLoop fuel t maxSize overlap startIndex chunks =
    option_map (app chunks) (splitLoop fuel t maxSize overlap startIndex []).
Proof.
  induction fuel as [|f IH]; intros s cs; simpl; [reflexivity|].
  destruct (s <? len t); simpl; [|now rewrite app_nil_r].
  destruct (splitBody t maxSize overlap s) as [c n].
  rewrite (IH n (cs ++ [c])), (IH n [c]).
  destruct (splitLoop f t maxSize overlap n []); simpl; [|reflexivity].
  now rewrite <- app_assoc.
Qed.

Lemma splitLoop_step (fuel : nat) (startIndex : Z) (chunks : list text) :
  startIndex < len t ->
  splitLoop (S fuel) t maxSize overlap startIndex chunks =
  splitLoop fuel t maxSize overlap
    (snd (splitBody t maxSize overlap startIndex))
    (chunks ++ [fst (splitBody t maxSize overlap startIndex)]).
Proof.
  intros Hs. simpl.
  destruct (Z.ltb_spec startIndex (len t)); [|lia].
  now destruct (splitBody t maxSize overlap startIndex).
Qed.

Lemma splitLoop_stop (fuel : nat) (startIndex : Z) (chunks : list text) :
  len t <= startIndex ->
  splitLoop (S fuel) t maxSize overlap startIndex chunks = Some chunks.
Proof.
  intros Hs. simpl. destruct (Z.ltb_spec startIndex (len t)); [lia|reflexivity].
Qed.

(** The result keeps the accumulated chunks as a prefix. *)
Lemma splitLoop_prefix (fuel : nat) :
  forall startIndex chunks out,
    splitLoop fuel t maxSize overlap startIndex chunks = Some out ->
    exists more, out = chunks ++ more.
Proof.
  intros s cs out H. rewrite splitLoop_acc in H.
  destruct (splitLoop fuel t maxSize overlap s []) as [m|]; [|discriminate].
  simpl in H. injection H as <-. now exists m.
Qed.

Lemma splitLoop_bounded (fuel : nat) :
  0 <= maxSize ->
  forall startIndex chunks out,
    Forall (fun c => len c <= maxSize) chunks ->
    splitLoop fuel t maxSize overlap startIndex chunks = Some out ->
    Forall (fun c => len c <= maxSize) out.
Proof.
  intros HM. induction fuel as [|f IH]; intros s cs out Hcs H; [discriminate|].
  destruct (Z.ltb_spec s (len t)) as [Hs|Hs].
  - rewrite splitLoop_step in H by assumption.
    apply IH in H; [assumption|].
    apply Forall_app; split; [assumption|].
    constructor; [|constructor]. now apply splitBody_chunk_le.
  - rewrite splitLoop_stop in H by assumption. now injection H as <-.
Qed.

(** A text that still has [n] full windows ahead yields more than [n]
    further chunks. *)
Lemma splitLoop_min_chunks (n : nat) :
  0 <= maxSize -> 0 <= overlap ->
  forall fuel startIndex chunks out,
    startIndex + Z.of_nat n * maxSize < len t ->
    splitLoop fuel t maxSize overlap startIndex chunks = Some out ->
    (length chunks + n + 1 <= length out)%nat.
Proof.
  intros HM Ho. induction n as [|n IH]; intros fuel s cs out Hs H.
  - destruct fuel as [|f]; [discriminate|].
    rewrite splitLoop_step in H by lia.
    apply splitLoop_prefix in H as [m ->].
    rewrite !length_app. simpl. lia.
  - destruct fuel as [|f]; [discriminate|].
    rewrite splitLoop_step in H by nia.
    apply IH in H.
    + rewrite length_app in H. simpl in H. lia.
    + pose proof (splitBody_next_le s HM). nia.
Qed.

Lemma splitLoop_fuel_mono (fuel : nat) :
  forall fuel' startIndex chunks out,
    (fuel <= fuel')%nat ->
    splitLoop fuel t maxSize overlap startIndex chunks = Some out ->
    splitLoop fuel' t maxSize overlap startIndex chunks = Some out.
Proof.
  induction fuel as [|f IH]; intros f' s cs out Hf H; [discriminate|].
  destruct f' as [|f']; [lia|].
  simpl in *. destruct (s <? len t); [|assumption].
  destruct (splitBody t maxSize overlap s) as [c n].
  apply IH; [lia|assumption].
Qed.

Lemma splitLoop_terminates (fuel : nat) :
  1 <= maxSize -> 0 <= overlap -> 2 * overlap <= maxSize ->
  forall startIndex chunks,
    0 <= startIndex ->
    (Z.to_nat (len t - startIndex) < fuel)%nat ->
    exists out, splitLoop fuel t maxSize overlap startIndex chunks = Some out.
Proof.
  intros HM Ho Hov. induction fuel as [|f IH]; intros s cs Hs Hf; [lia|].
  destruct (Z.ltb_spec s (len t)) as [Hlt|Hge].
  - rewrite splitLoop_step by assumption.
    pose proof (splitBody_progress s HM Ho Hov (conj Hs Hlt)).
    apply IH; lia.
  - rewrite splitLoop_stop by assumption. now exists cs.
Qed.

Lemma splitStarts_lower (fuel : nat) :
  1 <= maxSize -> 0 <= overlap -> 2 * overlap <= maxSize ->
  forall startIndex x,
    0 <= startIndex ->
    In x (splitStarts fuel t maxSize overlap startIndex) -> startIndex <= x.
Proof.
  intros HM Ho Hov. induction fuel as [|f IH]; intros s x Hs Hin; [contradiction|].
  simpl in Hin. destruct (Z.ltb_spec s (len t)) as [Hlt|]; [|contradiction].
  destruct Hin as [<-|Hin]; [lia|].
  pose proof (splitBody_progress s HM Ho Hov (conj Hs Hlt)).
  apply IH in Hin; lia.
Qed.

Lemma splitStarts_increasing (fuel : nat) :
  1 <= maxSize -> 0 <= overlap -> 2 * overlap <= maxSize ->
  forall startIndex,
    0 <= startIndex ->
    StronglySorted Z.lt (splitStarts fuel t maxSize overlap startIndex).
Proof.
  intros HM Ho Hov. induction fuel as [|f IH]; intros s Hs; [constructor|].
  simpl. destruct (Z.ltb_spec s (len t)) as [Hlt|]; [|constructor].
  pose proof (splitBody_progress s HM Ho Hov (conj Hs Hlt)) as Hp.
  constructor; [apply IH; lia|].
  apply Forall_forall. intros x Hx.
  apply splitStarts_lower in Hx; lia.
Qed.

End Splitter.

(** ** Facts about runs *)

Section Runs.

Lemma emit_nil {R : Type} (r : Run R) : emit [] r = r.
Proof. now destruct r. Qed.

Lemma emit_emit {R : Type} (a b : list Event) (r : Run R) :
  emit a (emit b r) = emit (a ++ b) r.
Proof. unfold emit; simpl. now rewrite app_assoc. Qed.

Lemma andThen_emit {A B : Type} (evs : list Event) (r : Run A)
      (k : A -> list reply -> World -> Run B) :
  andThen (emit evs r) k = emit evs (andThen r k).
Proof.
  unfold andThen; simpl. destruct (outcome r); [|unfold emit; reflexivity].
  now rewrite emit_emit.
Qed.

Lemma orElse_emit {A : Type} (evs : list Event) (r : Run A)
      (k : error -> list reply -> World -> Run A) :
  orElse (emit evs r) k = emit evs (orElse r k).
Proof.
  unfold orElse; simpl. destruct (outcome r); [reflexivity|].
  now rewrite emit_emit.
Qed.

Lemma exec_bind {A B : Type} (p : prog A) (f : A -> prog B) :
  forall rs w,
    exec (bind p f) rs w = andThen (exec p rs w) (fun a => exec (f a)).
Proof.
  induction p; intros rs w; simpl;
    try solve [ auto | rewrite andThen_emit; f_equal; auto ].
  - unfold andThen; simpl. now rewrite emit_nil.
Qed.

Lemma exec_tryCatch {A : Type} (p : prog A) (h : error -> prog A) :
  forall rs w,
    exec (tryCatch p h) rs w = orElse (exec p rs w) (fun e => exec (h e)).
Proof.
  induction p; intros rs w; simpl;
    try solve [ auto | rewrite orElse_emit; f_equal; auto ].
  - unfold orElse; simpl. now rewrite emit_nil.
Qed.

Lemma exec_await {A : Type} (p : prog A) (rs : list reply) (w : World) :
  exec (await p) rs w = exec p rs w.
Proof.
  unfold await. rewrite exec_bind. unfold andThen.
  destruct (exec p rs w) as [[a|e] f u evs]; simpl; [|reflexivity].
  unfold emit; simpl. now rewrite app_nil_r.
Qed.

End Runs.

(** ** Facts about the session map *)

Section SessionMapFacts.

Lemma text_eqb_refl (k : text) : text_eqb k k = true.
Proof. unfold text_eqb. now destruct (list_eq_dec N.eq_dec k k). Qed.


Lemma map_get_set_same (key : text) (v : ManagedSession) (m : SessionMap) :
  map_get key (map_set key v m) = Some v.
Proof.
  induction m as [|[k v'] r IH]; simpl.
  - now rewrite text_eqb_refl.
  - destruct (text_eqb k key) eqn:E; simpl; now rewrite E.
Qed.

Lemma map_get_update (key : text) (f : ManagedSession -> ManagedSession)
      (m : SessionMap) (v : ManagedSession) :
  map_get key m = Some v ->
  map_get key (updateSession key f m) = Some (f v).
Proof.
  intros H. unfold updateSession. rewrite H. apply map_get_set_same.
Qed.


End SessionMapFacts.

(** ** Reuse of a pooled session *)

Section Reuse.

Variable config : SessionConfig.

(** The fast path of [getSession]: no [await], no host call. *)
Lemma getSession_hit (existing : ManagedSession) (rs : list reply) (w : World) :
  pooled config w = Some existing ->
  exec (getSession config) rs w =
  {| outcome := Resolved (session existing);
     final :=
       withManager
         (withSessions (updateSession (sessionKeyOf config) incrUseCount))
         (withManager
            (withSessions
               (updateSession (sessionKeyOf config) (setLastUsedAt (clock w))))
            w);
     unused := rs;
     events := [] |}.
Proof.
  unfold pooled. intros H. unfold getSession.
  rewrite exec_bind. unfold andThen. simpl. rewrite H. reflexivity.
Qed.

Lemma getSession_hit_pooled (existing : ManagedSession) (rs : list reply)
      (w : World) :
  pooled config w = Some existing ->
  pooled config (final (exec (getSession config) rs w)) =
  Some {| session := session existing; type := type existing;
          createdAt := createdAt existing; lastUsedAt := clock w;
          useCount := useCount existing + 1 |}.
Proof.
  intros H. rewrite (getSession_hit existing rs w H). unfold pooled in *.
  simpl.
  rewrite (map_get_update _ incrUseCount _ (setLastUsedAt (clock w) existing)).
  - reflexivity.
  - now apply map_get_update.
Qed.

End Reuse.

(** ** What a function leaves behind when it returns *)

Section Ensures.

Lemma outcome_emit {R : Type} (evs : list Event) (r : Run R) :
  outcome (emit evs r) = outcome r.
Proof. reflexivity. Qed.


Lemma ensures_bind {A B : Type} (p : prog A) (f : A -> prog B)
      (Q : B -> World -> Prop) :
  (forall a, ensures (f a) Q) -> ensures (bind p f) Q.
Proof.
  intros Hf rs w b. rewrite exec_bind. unfold andThen.
  destruct (outcome (exec p rs w)) as [a|e]; simpl; [|discriminate].
  apply Hf.
Qed.

Lemma ensures_tryCatch {A : Type} (p : prog A) (h : error -> prog A)
      (Q : A -> World -> Prop) :
  ensures p Q -> (forall e, ensures (h e) Q) -> ensures (tryCatch p h) Q.
Proof.
  intros Hp Hh rs w a. rewrite exec_tryCatch. unfold orElse.
  destruct (outcome (exec p rs w)) as [a'|e] eqn:E; simpl.
  - rewrite E. intros [= <-]. now apply Hp.
  - apply Hh.
Qed.

Lemma ensures_Throw {A : Type} (e : error) (Q : A -> World -> Prop) :
  ensures (Throw e) Q.
Proof. intros rs w a; simpl; discriminate. Qed.

(** An acquire that returns leaves the session it returns in the pool under
    the config's key. *)
Lemma getSession_pooled (config : SessionConfig) :
  ensures (getSession config)
    (fun h w => exists e, pooled config w = Some e /\ session e = h).
Proof.
  intros rs w h.
  destruct (pooled config w) as [existing|] eqn:E.
  - rewrite (getSession_hit_pooled config existing rs w E).
    rewrite (getSession_hit config existing rs w E). simpl.
    intros [= <-]. eexists. split; reflexivity.
  - unfold getSession. rewrite exec_bind. unfold andThen. simpl.
    unfold pooled in E. rewrite E. clear E.
    revert rs w h.
    change (ensures (createAndStore config (sessionKeyOf config))
              (fun h w => exists e, pooled config w = Some e /\ session e = h)).
    unfold createAndStore.
    do 6 (apply ensures_bind; intros ?).
    apply ensures_tryCatch; [|intros; apply ensures_Throw].
    apply ensures_bind. intros s rs w h. simpl. intros [= <-].
    unfold pooled. simpl. eexists. split; [apply map_get_set_same|reflexivity].
Qed.

End Ensures.

(** ** Repeated acquires of one config *)

Section RepeatedAcquire.

Variable config : SessionConfig.

Lemma hostCalls_app (a b : list Event) :
  hostCalls (a ++ b) = hostCalls a ++ hostCalls b.
Proof. apply filter_app. Qed.

Lemma hostCalls_abortEvents (time : Z) (ss : list nat) :
  hostCalls (abortEvents time ss) = [].
Proof. induction ss as [|s r IH]; simpl; auto. Qed.


Lemma exec_sleep {A : Type} (ms : Z) (f : unit -> prog A) (rs : list reply)
      (w : World) :
  exec (bind (sleep ms) f) rs w =
  let r := nextReply rs in
  let d := Z.max (Z.max 0 ms) (elapsed r) in
  emit (abortEvents (clock w + d) (aborts r))
       (exec (f tt) (tl rs) (pass d (aborts r) w)).
Proof. reflexivity. Qed.


End RepeatedAcquire.

(** ** Calls in flight together *)

Section InFlight.

(** C1.  Two acquires for different configs that are in flight together
    both call the host's [create] at the same millisecond: each passed the
    interval check before the other recorded a creation.  The interval of
    1000 ms is not kept. *)
Theorem concurrent_creates_not_spaced :
  observeAfter twoAcquires freshWorld =
  Some {| obs_tasks := [Finished (Resolved (VHandle 1));
                        Finished (Resolved (VHandle 2))];
          obs_creates := [1000003; 1000003];
          obs_destroys := [];
          obs_processes := [];
          obs_pool := [(1%nat, 1000048); (2%nat, 1000048)];
          obs_lastCreationTime := 1000048 |} /\
  option_map (fun o => spaced MIN_CREATION_INTERVAL (obs_creates o))
             (observeAfter twoAcquires freshWorld) = Some false.
Proof. split; vm_compute; reflexivity. Qed.

(** C2.  Four acquires for four configs that are in flight together all
    find the pool below capacity, none evicts, and the pool ends with four
    sessions, one more than [MAX_SESSIONS]. *)
Theorem concurrent_acquires_exceed_capacity :
  observeAfter fourAcquires freshWorld =
  Some {| obs_tasks := [Finished (Resolved (VHandle 1));
                        Finished (Resolved (VHandle 2));
                        Finished (Resolved (VHandle 3));
                        Finished (Resolved (VHandle 4))];
          obs_creates := [1000003; 1000003; 1000003; 1000003];
          obs_destroys := [];
          obs_processes := [];
          obs_pool := [(1%nat, 1000058); (2%nat, 1000058);
                       (3%nat, 1000058); (4%nat, 1000058)];
          obs_lastCreationTime := 1000058 |} /\
  option_map (fun o => Z.of_nat (length (obs_pool o)) <=? MAX_SESSIONS)
             (observeAfter fourAcquires freshWorld) = Some false.
Proof. split; vm_compute; reflexivity. Qed.

(** C4.  With two acquires in flight, the later call has done its capacity
    and interval checks and has called [create] while the manager still
    shows nothing of the earlier call: no session, and the last creation
    time it started with. *)
Theorem later_acquire_sees_no_effect_of_earlier :
  observeAfter twoAcquiresUntilCreate freshWorld =
  Some {| obs_tasks := [AtCreate summarizer; AtCreate languageModel];
          obs_creates := [1000003; 1000003];
          obs_destroys := [];
          obs_processes := [];
          obs_pool := [];
          obs_lastCreationTime := 0 |}.
Proof. vm_compute; reflexivity. Qed.

(** The same acquires made one after the other keep both limits: the
    [create] calls are a second apart, and the fourth acquire first evicts
    the oldest session. *)
Example acquires_in_sequence_keep_the_limits :
  let r := exec (acquireEach fourConfigs) fourCreations freshWorld in
  outcome r = Resolved [1; 2; 3; 4]%nat /\
  createTimes (events r) = [1000003; 1001046; 1002089; 1003132] /\
  spaced MIN_CREATION_INTERVAL (createTimes (events r)) = true /\
  destroyCalls (events r) = [(1002329, 1%nat)] /\
  map (fun e => session (snd e)) (sessions (manager (final r))) = [2; 3; 4]%nat.
Proof. vm_compute. repeat split. Qed.

(** Against C3.  While [simplifyArticle] waits for its [summarize] call on
    session 1, a fourth config is acquired; the pool is at capacity and the
    least recently used session, session 1, is destroyed. *)
Lemma session_destroyed_while_processing :
  observeAfter evictionWhileProcessing freshWorld =
  Some {| obs_tasks := [AtProcess 1 shortArticle;
                        Finished (Resolved (VHandle 2));
                        Finished (Resolved (VHandle 3));
                        AtTick];
          obs_creates := [1000003; 1001046; 1002089];
          obs_destroys := [(1002329, 1%nat)];
          obs_processes := [(1000043, 1%nat)];
          obs_pool := [(2%nat, 1001086); (3%nat, 1002129)];
          obs_lastCreationTime := 1002129 |}.
Proof. vm_compute; reflexivity. Qed.

(** [destroyAll] does the same to a session that is in use. *)
Example destroyAll_while_processing :
  observeAfter destroyAllWhileProcessing freshWorld =
  Some {| obs_tasks := [AtProcess 1 shortArticle; Finished (Resolved VUnit)];
          obs_creates := [1000003];
          obs_destroys := [(1000243, 1%nat)];
          obs_processes := [(1000043, 1%nat)];
          obs_pool := [];
          obs_lastCreationTime := 1000043 |}.
Proof. vm_compute; reflexivity. Qed.

End InFlight.

(** ** Which events a function can cause *)

Section Emits.

Variable Q : Event -> Prop.
Hypothesis Q_abort : forall time signal, Q (EvAbort time signal).

Lemma Forall_abortEvents (time : Z) (ss : list nat) :
  Forall Q (abortEvents time ss).
Proof. induction ss; simpl; constructor; auto. Qed.

Lemma Emits_Ret {A : Type} (a : A) : Emits Q (Ret a).
Proof. intros rs w; simpl; constructor. Qed.

Lemma Emits_Throw {A : Type} (e : error) : Emits Q (@Throw A e).
Proof. intros rs w; simpl; constructor. Qed.

Lemma Emits_bind {A B : Type} (p : prog A) (f : A -> prog B) :
  Emits Q p -> (forall a, Emits Q (f a)) -> Emits Q (bind p f).
Proof.
  intros Hp Hf rs w. rewrite exec_bind. unfold andThen.
  specialize (Hp rs w).
  destruct (outcome (exec p rs w)); simpl; [|assumption].
  apply Forall_app; split; [assumption|apply Hf].
Qed.

Lemma Emits_tryCatch {A : Type} (p : prog A) (h : error -> prog A) :
  Emits Q p -> (forall e, Emits Q (h e)) -> Emits Q (tryCatch p h).
Proof.
  intros Hp Hh rs w. rewrite exec_tryCatch. unfold orElse.
  specialize (Hp rs w).
  destruct (outcome (exec p rs w)); simpl; [assumption|].
  apply Forall_app; split; [assumption|apply Hh].
Qed.

Lemma Emits_await {A : Type} (p : prog A) : Emits Q p -> Emits Q (await p).
Proof. intros Hp rs w. rewrite exec_await. apply Hp. Qed.

Lemma Emits_if {A : Type} (b : bool) (p q : prog A) :
  Emits Q p -> Emits Q q -> Emits Q (if b then p else q).
Proof. now destruct b. Qed.

Lemma Emits_dateNow : Emits Q dateNow.
Proof. intros rs w; simpl; constructor. Qed.

Lemma Emits_readManager : Emits Q readManager.
Proof. intros rs w; simpl; constructor. Qed.

Lemma Emits_modifyManager (f : AISessionManager -> AISessionManager) :
  Emits Q (modifyManager f).
Proof. intros rs w; simpl; constructor. Qed.

Lemma Emits_inSelf (ty : SessionType) : Emits Q (inSelf ty).
Proof. intros rs w; simpl; constructor. Qed.

Lemma Emits_signalAborted (signal : option nat) : Emits Q (signalAborted signal).
Proof. intros rs w; destruct signal; simpl; constructor. Qed.

Lemma Emits_settle {A : Type} (r : result A) : Emits Q (settle r).
Proof. intros rs w; destruct r; simpl; constructor. Qed.

Lemma Emits_sleep (ms : Z) : Emits Q (sleep ms).
Proof.
  intros rs w; simpl. rewrite app_nil_r. apply Forall_abortEvents.
Qed.

Lemma Emits_destroy (h : handle) :
  (forall time, Q (EvDestroy time h)) -> Emits Q (destroy h).
Proof.
  intros HQ rs w; simpl. constructor; [apply HQ|].
  destruct (destroyResult h w); simpl; constructor.
Qed.

Lemma Emits_HostAvailability (ty : SessionType) (timeout : Z) (te : error) :
  Emits Q (HostAvailability ty timeout te settle).
Proof.
  intros rs w; simpl. apply Forall_app; split; [apply Forall_abortEvents|].
  apply Emits_settle.
Qed.

Lemma Emits_HostCreate (ty : SessionType) (options : text) (timeout : Z)
      (te : error) :
  (forall time, Q (EvCreate time ty options)) ->
  Emits Q (HostCreate ty options timeout te settle).
Proof.
  intros HQ rs w; simpl. constructor; [apply HQ|].
  apply Forall_app; split; [apply Forall_abortEvents|apply Emits_settle].
Qed.

Lemma Emits_summarize (h : handle) (input : text) (context : option text) :
  (forall time, Q (EvProcess time h input)) ->
  Emits Q (summarize h input context).
Proof.
  intros HQ. unfold summarize.
  apply Emits_tryCatch; [|intros; apply Emits_Throw].
  apply Emits_bind; [|intros; apply Emits_Ret].
  intros rs w; simpl. constructor; [apply HQ|].
  apply Forall_app; split; [apply Forall_abortEvents|apply Emits_settle].
Qed.

End Emits.

Create HintDb emits.

(** One step in showing what a function built from the pieces above can
    cause; facts already shown for its parts are taken from the [emits]
    hints. *)
Ltac emits_step :=
  first
    [ assumption
    | solve [auto 2 with emits nocore]
    | apply Emits_Ret | apply Emits_Throw
    | apply Emits_dateNow | apply Emits_readManager
    | apply Emits_modifyManager | apply Emits_inSelf
    | apply Emits_signalAborted | apply Emits_settle | apply Emits_sleep
    | apply Emits_HostAvailability
    | apply Emits_await
    | apply Emits_if
    | apply Emits_bind; [|intros ?]
    | apply Emits_tryCatch; [|intros ?] ].

Ltac emits := repeat emits_step.

Section ManagerEvents.

Variable Q : Event -> Prop.
Hypothesis Q_abort : forall time signal, Q (EvAbort time signal).
Hypothesis Q_destroy : forall time h, Q (EvDestroy time h).

Hint Resolve Q_abort : emits.

(** The sweep and the evictions cause [destroy] calls only. *)
Lemma destroyAndDelete_emits key managed :
  Emits Q (destroyAndDelete key managed).
Proof.
  unfold destroyAndDelete. emits.
  destruct managed; [apply Emits_destroy|emits]; auto.
Qed.
Hint Resolve destroyAndDelete_emits : emits.

Lemma cleanupLoop_emits keys : Emits Q (cleanupLoop keys).
Proof. induction keys as [|k r IH]; cbn [cleanupLoop]; emits. Qed.
Hint Resolve cleanupLoop_emits : emits.

Lemma cleanup_emits : Emits Q cleanup.
Proof. unfold cleanup. emits. Qed.

Lemma destroyOldestSession_emits : Emits Q destroyOldestSession.
Proof.
  unfold destroyOldestSession. emits. destruct (oldestKeyOf _); emits.
Qed.

Hypothesis Q_create : forall time ty options, Q (EvCreate time ty options).

Lemma createAttempt_emits ty options : Emits Q (createAttempt ty options).
Proof.
  unfold createAttempt. emits.
  destruct a0; emits. apply Emits_HostCreate; auto.
Qed.
Hint Resolve createAttempt_emits : emits.

Lemma createWithRetry_emits ty options left :
  Emits Q (createWithRetry ty options left).
Proof. induction left as [|n IH]; cbn [createWithRetry]; emits. Qed.
Hint Resolve createWithRetry_emits cleanup_emits destroyOldestSession_emits : emits.

(** Acquiring a session causes [create] and [destroy] calls only. *)
Lemma getSession_emits config : Emits Q (getSession config).
Proof.
  unfold getSession. emits.
  destruct (map_get _ _); [emits|].
  unfold createAndStore, createSessionInternal. emits.
  destruct (cfg_type config); emits.
Qed.

End ManagerEvents.

Section NoProcess.

Lemma notProcess_abort time signal : notProcess (EvAbort time signal).
Proof. reflexivity. Qed.

Lemma notDestroy_abort time signal : notDestroy (EvAbort time signal).
Proof. reflexivity. Qed.

Lemma notCreate_abort time signal : notCreate (EvAbort time signal).
Proof. reflexivity. Qed.

Lemma notCreate_destroy time h : notCreate (EvDestroy time h).
Proof. reflexivity. Qed.

Hint Resolve notProcess_abort notDestroy_abort notCreate_abort : core emits.

(** Acquiring a session sends nothing to any session. *)
Lemma getSession_notProcess config : Emits notProcess (getSession config).
Proof. apply getSession_emits; reflexivity. Qed.

Lemma summarize_notDestroy h input context :
  Emits notDestroy (summarize h input context).
Proof. apply Emits_summarize; auto. reflexivity. Qed.
Hint Resolve summarize_notDestroy : emits.

Lemma processChunks_notDestroy h context signal chunks :
  forall summaries,
    Emits notDestroy (processChunks h context signal chunks summaries).
Proof.
  induction chunks as [|c more IH]; intros summaries; cbn [processChunks]; emits.
  destruct more; emits.
Qed.
Hint Resolve processChunks_notDestroy : emits.

(** After it has its session, [simplifyArticle] destroys nothing. *)
Lemma simplifyWith_notDestroy h content context signal :
  Emits notDestroy (simplifyWith h content context signal).
Proof. unfold simplifyWith, foldSummaries. emits. Qed.

End NoProcess.

(** ** How often a function calls [create] *)

Section CountCreates.

Lemma createTimes_app (a b : list Event) :
  createTimes (a ++ b) = createTimes a ++ createTimes b.
Proof. apply flat_map_app. Qed.

Lemma createTimes_create (time : Z) (ty : SessionType) (options : text)
      (evs : list Event) :
  createTimes (EvCreate time ty options :: evs) = time :: createTimes evs.
Proof. reflexivity. Qed.

Lemma createTimes_notCreate (evs : list Event) :
  Forall notCreate evs -> createTimes evs = [].
Proof.
  induction 1 as [|e r He _ IH]; [reflexivity|].
  destruct e; simpl; auto; discriminate.
Qed.

Lemma CreatesAtMost_quiet {A : Type} (p : prog A) (n : nat) :
  Emits notCreate p -> CreatesAtMost n p.
Proof.
  intros H rs w. rewrite (createTimes_notCreate _ (H rs w)). simpl. lia.
Qed.

Lemma CreatesAtMost_bind {A B : Type} (a b : nat) (p : prog A) (f : A -> prog B) :
  CreatesAtMost a p -> (forall x, CreatesAtMost b (f x)) ->
  CreatesAtMost (a + b) (bind p f).
Proof.
  intros Hp Hf rs w. rewrite exec_bind. unfold andThen.
  specialize (Hp rs w).
  destruct (outcome (exec p rs w)); cbn [events emit]; [|lia].
  rewrite createTimes_app, length_app.
  specialize (Hf a0 (unused (exec p rs w)) (final (exec p rs w))). lia.
Qed.

Lemma CreatesAtMost_tryCatch {A : Type} (a b : nat) (p : prog A)
      (h : error -> prog A) :
  CreatesAtMost a p -> (forall e, CreatesAtMost b (h e)) ->
  CreatesAtMost (a + b) (tryCatch p h).
Proof.
  intros Hp Hh rs w. rewrite exec_tryCatch. unfold orElse.
  specialize (Hp rs w).
  destruct (outcome (exec p rs w)); cbn [events emit]; [lia|].
  rewrite createTimes_app, length_app.
  specialize (Hh e (unused (exec p rs w)) (final (exec p rs w))). lia.
Qed.

Lemma CreatesAtMost_await {A : Type} (n : nat) (p : prog A) :
  CreatesAtMost n p -> CreatesAtMost n (await p).
Proof. intros H rs w. rewrite exec_await. apply H. Qed.

Hint Resolve notCreate_abort notCreate_destroy : emits.

(** One attempt calls [create] at most once. *)
Lemma createAttempt_once ty options : CreatesAtMost 1 (createAttempt ty options).
Proof.
  unfold createAttempt.
  apply (CreatesAtMost_bind 0 1); [apply CreatesAtMost_quiet; emits|].
  intros present. destruct (negb present); [apply CreatesAtMost_quiet; emits|].
  apply (CreatesAtMost_bind 0 1); [apply CreatesAtMost_quiet; emits|].
  intros a rs w. destruct a; try (simpl; lia).
  cbn [exec events emit app].
  rewrite createTimes_create, createTimes_notCreate; [simpl; lia|].
  apply Forall_app; split; [apply Forall_abortEvents; auto with emits|].
  apply Emits_settle.
Qed.

(** With [left] retries to go, at most [left + 1] attempts are made. *)
Lemma createWithRetry_bounded ty options left :
  CreatesAtMost (S left) (createWithRetry ty options left).
Proof.
  induction left as [|n IH]; cbn [createWithRetry].
  - apply (CreatesAtMost_tryCatch 1 0); [apply createAttempt_once|].
    intros e. apply CreatesAtMost_quiet. emits.
  - change (S (S n)) with (1 + S n)%nat.
    apply (CreatesAtMost_tryCatch 1 (S n)); [apply createAttempt_once|].
    intros e. apply (CreatesAtMost_bind 0 (S n)); [apply CreatesAtMost_quiet; emits|].
    intros _. apply IH.
Qed.

(** One acquire calls [create] at most three times. *)
Lemma getSession_creates_at_most_three config :
  CreatesAtMost 3 (getSession config).
Proof.
  unfold getSession.
  apply (CreatesAtMost_bind 0 3); [apply CreatesAtMost_quiet; emits|].
  intros m. destruct (map_get _ _); [apply CreatesAtMost_quiet; emits|].
  unfold createAndStore.
  apply (CreatesAtMost_bind 0 3);
    [apply CreatesAtMost_quiet; apply Emits_await, cleanup_emits; auto with emits|].
  intros _.
  apply (CreatesAtMost_bind 0 3); [apply CreatesAtMost_quiet; emits|]. intros m'.
  apply (CreatesAtMost_bind 0 3).
  { apply CreatesAtMost_quiet. apply Emits_if; [|emits].
    apply Emits_await, destroyOldestSession_emits; auto with emits. }
  intros _.
  apply (CreatesAtMost_bind 0 3); [apply CreatesAtMost_quiet; emits|]. intros now.
  apply (CreatesAtMost_bind 0 3); [apply CreatesAtMost_quiet; emits|]. intros m''.
  apply (CreatesAtMost_bind 0 3); [apply CreatesAtMost_quiet; emits|]. intros _.
  apply (CreatesAtMost_tryCatch 3 0); [|intros e; apply CreatesAtMost_quiet; emits].
  change 3%nat with (3 + 0)%nat.
  apply CreatesAtMost_bind; [|intros h; apply CreatesAtMost_quiet; emits].
  apply CreatesAtMost_await. unfold createSessionInternal.
  destruct (cfg_type config); apply CreatesAtMost_await, createWithRetry_bounded.
Qed.

End CountCreates.

(** ** [simplifyArticle] on its own *)

Section SimplifyAlone.

Lemma exec_signalAborted (signal : option nat) (rs : list reply) (w : World) :
  exec (signalAborted signal) rs w =
  {| outcome := Resolved (sigAborted signal w); final := w; unused := rs;
     events := [] |}.
Proof. destruct signal; reflexivity. Qed.

Lemma exec_check {A : Type} (signal : option nat) (f : bool -> prog A)
      (rs : list reply) (w : World) :
  exec (bind (signalAborted signal) f) rs w = exec (f (sigAborted signal w)) rs w.
Proof.
  rewrite exec_bind, exec_signalAborted. unfold andThen. simpl.
  apply emit_nil.
Qed.

Lemma friendlyError_throws (e : error) : exists e', friendlyError e = Throw e'.
Proof.
  unfold friendlyError.
  destruct (includes e (str "cancelled")); [eauto|].
  destruct (includes e (str "timeout")); [eauto|].
  destruct (includes e (str "not available")); eauto.
Qed.

Lemma friendlyError_events (e : error) (rs : list reply) (w : World) :
  events (exec (friendlyError e) rs w) = [].
Proof. destruct (friendlyError_throws e) as [e' ->]. reflexivity. Qed.

(** In a run of [simplifyArticle] with no other call in flight, every
    [destroy] comes before the first [process] call: the events split into
    a part without [process] calls, the acquisition, and a part without
    [destroy] calls, the processing. *)
Lemma simplifyArticle_events_split
        (content : text) (level : SimplificationLevel) (context : option text)
        (signal : option nat) (rs : list reply) (w : World) :
  exists acquisition processing,
    events (exec (simplifyArticle content level context signal) rs w) =
    acquisition ++ processing /\
    Forall notProcess acquisition /\
    Forall notDestroy processing.
Proof.
  unfold simplifyArticle. rewrite exec_check.
  destruct (sigAborted signal w).
  { exists [], []. simpl. repeat split; constructor. }
  rewrite exec_tryCatch, exec_bind, exec_await.
  pose proof (getSession_notProcess (simplifyConfig level context) rs w) as H1.
  set (r1 := exec (getSession (simplifyConfig level context)) rs w) in *.
  unfold andThen, orElse.
  destruct (outcome r1) as [h|e] eqn:E1.
  - pose proof (simplifyWith_notDestroy h content context signal
                  (unused r1) (final r1)) as H2.
    set (r2 := exec (simplifyWith h content context signal) (unused r1) (final r1)) in *.
    exists (events r1), (events r2).
    cbn [outcome events emit final unused].
    destruct (outcome r2); cbn [events emit].
    + repeat split; assumption.
    + rewrite friendlyError_events, app_nil_r. repeat split; assumption.
  - exists (events r1), []. cbn [outcome events emit final unused].
    rewrite friendlyError_events. repeat split; [assumption|constructor].
Qed.

End SimplifyAlone.

(** ** The loop over the chunks *)

Section ChunkLoop.

Variable h : handle.
Variable context : option text.
Variable signal : option nat.

Lemma processCalls_app (a b : list Event) :
  processCalls (a ++ b) = processCalls a ++ processCalls b.
Proof. apply flat_map_app. Qed.

Lemma processCalls_abortEvents (time : Z) (ss : list nat) :
  processCalls (abortEvents time ss) = [].
Proof. induction ss; simpl; auto. Qed.

Lemma processCalls_process (time : Z) (s : handle) (input : text)
      (evs : list Event) :
  processCalls (EvProcess time s input :: evs) = (s, input) :: processCalls evs.
Proof. reflexivity. Qed.

Lemma processCalls_notProcess (evs : list Event) :
  Forall notProcess evs -> processCalls evs = [].
Proof.
  induction 1 as [|e r He _ IH]; [reflexivity|].
  destruct e; simpl; auto; discriminate.
Qed.

(** One awaited [summarize] call followed by [f]. *)
Lemma exec_summarize {A : Type} (input : text) (f : text -> prog A)
      (rs : list reply) (w : World) :
  exec (bind (await (summarize h input context)) f) rs w =
  let r := nextReply rs in
  let d := Z.max 0 (elapsed r) in
  let w' := pass d (aborts r) w in
  emit (EvProcess (clock w) h input :: abortEvents (clock w + d) (aborts r))
       (match summary r with
        | Resolved s => exec (f s) (tl rs) w'
        | Rejected e => rejected e (tl rs) w'
        end).
Proof.
  simpl. destruct (summary (nextReply rs)); simpl; [|reflexivity].
  f_equal.
Qed.

Lemma processChunks_cancelled (chunk : text) (more summaries : list text)
      (rs : list reply) (w : World) :
  sigAborted signal w = true ->
  exec (processChunks h context signal (chunk :: more) summaries) rs w =
  rejected (str "Operation cancelled") rs w.
Proof.
  intros Ha. cbn [processChunks]. rewrite exec_check, Ha. reflexivity.
Qed.

(** A run of the loop that returns has made one [process] call per chunk,
    in order, on the one session, and has one more summary per chunk. *)
Lemma processChunks_resolved (chunks : list text) :
  forall summaries rs w out,
    outcome (exec (processChunks h context signal chunks summaries) rs w) =
    Resolved out ->
    processCalls (events (exec (processChunks h context signal chunks summaries) rs w)) =
    map (pair h) chunks /\
    length out = (length summaries + length chunks)%nat /\
    (chunks <> [] -> sigAborted signal w = false).
Proof.
  induction chunks as [|c more IH]; intros acc rs w out.
  - simpl. intros [= <-]. repeat split; [lia|congruence].
  - cbn [processChunks]. rewrite exec_check.
    destruct (sigAborted signal w) eqn:Ha; [discriminate|].
    rewrite exec_summarize. cbn zeta.
    destruct (summary (nextReply rs)) as [s|e]; [|discriminate].
    rewrite outcome_emit.
    set (w' := pass _ _ w).
    destruct more as [|c' more'].
    + rewrite exec_bind. cbn [exec andThen outcome final unused events].
      rewrite emit_nil.
      cbn [processChunks exec outcome events emit].
      intros [= <-]. rewrite app_nil_r.
      rewrite processCalls_process, processCalls_abortEvents.
      repeat split. rewrite length_app. simpl. lia.
    + rewrite exec_sleep. cbn zeta. rewrite outcome_emit.
      intros Ho. apply IH in Ho. destruct Ho as (Hc & Hl & _).
      repeat split.
      * cbn [events emit].
        rewrite !processCalls_app, processCalls_process,
          !processCalls_abortEvents, Hc.
        reflexivity.
      * rewrite Hl, length_app. simpl. lia.
Qed.

End ChunkLoop.

(** ** The fold and the cancellation checks *)

Section FoldAndCancel.

Variable h : handle.
Variable context : option text.
Variable signal : option nat.


(** The loop over [done ++ todo] is its first passes over [done] followed
    by the loop over [todo]. *)
Lemma processChunks_app (done todo : list text) :
  todo <> [] ->
  forall summaries rs w,
    exec (processChunks h context signal (done ++ todo) summaries) rs w =
    andThen (exec (processPrefix h context signal done summaries) rs w)
            (fun acc => exec (processChunks h context signal todo acc)).
Proof.
  intros Htodo. induction done as [|c more IH]; intros acc rs w.
  - cbn [app processPrefix exec]. unfold andThen. cbn [outcome events final unused].
    now rewrite emit_nil.
  - cbn [app processChunks processPrefix].
    rewrite !exec_check.
    destruct (sigAborted signal w); [reflexivity|].
    rewrite !exec_summarize. cbn zeta. rewrite andThen_emit. f_equal.
    destruct (summary (nextReply rs)) as [s|e]; [|reflexivity].
    assert (E : exists c' rest, more ++ todo = c' :: rest).
    { destruct (more ++ todo) eqn:E; [|eauto].
      apply app_eq_nil in E. now destruct E. }
    destruct E as (c' & rest & E).
    rewrite E. cbv match. rewrite <- E. rewrite !exec_sleep. cbn zeta. rewrite andThen_emit. f_equal.
    apply IH.
Qed.

Lemma processPrefix_resolved (chunks : list text) :
  forall summaries rs w out,
    outcome (exec (processPrefix h context signal chunks summaries) rs w) =
    Resolved out ->
    processCalls (events (exec (processPrefix h context signal chunks summaries) rs w)) =
    map (pair h) chunks /\
    (chunks <> [] -> sigAborted signal w = false).
Proof.
  induction chunks as [|c more IH]; intros acc rs w out.
  - simpl. intros _. split; congruence.
  - cbn [processPrefix]. rewrite exec_check.
    destruct (sigAborted signal w) eqn:Ha; [discriminate|].
    rewrite exec_summarize. cbn zeta.
    destruct (summary (nextReply rs)) as [s|e]; [|discriminate].
    rewrite outcome_emit, exec_sleep. cbn zeta. rewrite outcome_emit.
    intros Ho. apply IH in Ho. destruct Ho as (Hc & _).
    split; [|reflexivity].
    cbn [events emit].
    rewrite !processCalls_app, processCalls_process,
      !processCalls_abortEvents, Hc.
    reflexivity.
Qed.

Lemma estimateTokens_nil : estimateTokens [] = 0.
Proof. reflexivity. Qed.

(** The statements of [simplifyArticle] after the acquisition, when the
    loop has returned its summaries and their fold is over the limit. *)
Lemma simplifyWith_fold_pass
        (content : text) (rs : list reply) (w : World) (summaries : list text) :
  let loop := exec (processChunks h context signal (simplifyChunks content) []) rs w in
  let combined := join [LINE_FEED; LINE_FEED] summaries in
  let cancelled := sigAborted signal (final loop) in
  let r := exec (simplifyWith h content context signal) rs w in
  MAX_INPUT_TOKENS < estimateTokens content ->
  outcome loop = Resolved summaries ->
  MAX_INPUT_TOKENS < estimateTokens combined ->
  processCalls (events r) =
    map (pair h) (simplifyChunks content) ++
    (if cancelled then [] else [(h, combined)]) /\
  outcome r =
    (if cancelled then Rejected (str "Operation cancelled")
     else summary (nextReply (unused loop))) /\
  unused r = (if cancelled then unused loop else tl (unused loop)).
Proof.
  intros loop combined cancelled r Hlarge Hloop Hfold.
  destruct (processChunks_resolved h context signal _ _ _ _ _ Hloop)
    as (Hcalls & Hlen & Hstart).
  fold loop in Hcalls.
  assert (Hw : sigAborted signal w = false).
  { apply Hstart. intros E. rewrite E in Hlen. simpl in Hlen.
    destruct summaries; [|discriminate].
    unfold combined in Hfold. simpl in Hfold. unfold MAX_INPUT_TOKENS in Hfold.
    rewrite estimateTokens_nil in Hfold. lia. }
  subst r. unfold simplifyWith. rewrite exec_check, Hw.
  apply Z.ltb_lt in Hlarge. rewrite Hlarge.
  rewrite exec_bind. fold loop. unfold andThen. rewrite Hloop.
  unfold foldSummaries. fold combined.
  apply Z.ltb_lt in Hfold. rewrite Hfold.
  rewrite exec_check. fold cancelled. destruct cancelled.
  - cbn [exec events emit outcome unused].
    rewrite !app_nil_r. auto.
  - rewrite exec_summarize. cbn zeta.
    cbn [events emit outcome unused].
    rewrite !processCalls_app, Hcalls, processCalls_process,
      processCalls_abortEvents.
    destruct (summary (nextReply (unused loop))); repeat split.
Qed.

Lemma friendlyError_cancelled :
  friendlyError (str "Operation cancelled") =
  Throw (str "Simplification was cancelled").
Proof. reflexivity. Qed.

(** [simplifyArticle] once its session is acquired. *)
Lemma simplifyArticle_acquired
      (content : text) (level : SimplificationLevel) (rs : list reply) (w : World) :
  let acquired := exec (getSession (simplifyConfig level context)) rs w in
  sigAborted signal w = false ->
  outcome acquired = Resolved h ->
  exec (simplifyArticle content level context signal) rs w =
  orElse
    (emit (events acquired)
          (exec (simplifyWith h content context signal)
                (unused acquired) (final acquired)))
    (fun e => exec (friendlyError e)).
Proof.
  intros acquired Hw Hacq. unfold simplifyArticle.
  rewrite exec_check, Hw, exec_tryCatch, exec_bind, exec_await.
  fold acquired. unfold andThen. now rewrite Hacq.
Qed.

(** C6.  When the loop over the chunks of a [simplifyArticle] call has
    returned its summaries and their fold is still over the limit, the call
    makes exactly one more [process] call: on the same session, with the
    whole fold as its input, unsplit.  What that call gives is the result of
    [simplifyArticle] (a rejection goes through its [catch] block), with no
    further pass whatever its size: the run awaits nothing after it.  (The
    one way round the final pass is the cancellation check in front of it,
    which rejects the call.) *)
Theorem fold_pass_runs_once
        (content : text) (level : SimplificationLevel) (rs : list reply)
        (w : World) (summaries : list text) :
  let acquired := exec (getSession (simplifyConfig level context)) rs w in
  let loop := exec (processChunks h context signal (simplifyChunks content) [])
                   (unused acquired) (final acquired) in
  let combined := join [LINE_FEED; LINE_FEED] summaries in
  let cancelled := sigAborted signal (final loop) in
  let r := exec (simplifyArticle content level context signal) rs w in
  sigAborted signal w = false ->
  outcome acquired = Resolved h ->
  MAX_INPUT_TOKENS < estimateTokens content ->
  outcome loop = Resolved summaries ->
  MAX_INPUT_TOKENS < estimateTokens combined ->
  processCalls (events r) =
    map (pair h) (simplifyChunks content) ++
    (if cancelled then [] else [(h, combined)]) /\
  outcome r =
    (if cancelled then Rejected (str "Simplification was cancelled")
     else match summary (nextReply (unused loop)) with
          | Resolved s => Resolved s
          | Rejected e => outcome (exec (friendlyError e) [] w)
          end) /\
  unused r = (if cancelled then unused loop else tl (unused loop)).
Proof.
  intros acquired loop combined cancelled r Hw Hacq Hlarge Hloop Hfold.
  destruct (simplifyWith_fold_pass content (unused acquired) (final acquired)
              summaries Hlarge Hloop Hfold) as (Hcalls & Hout & Hunused).
  fold loop cancelled combined in Hcalls, Hout, Hunused.
  assert (Hquiet : processCalls (events acquired) = []).
  { apply processCalls_notProcess, getSession_notProcess. }
  subst r. rewrite (simplifyArticle_acquired content level rs w Hw Hacq).
  fold acquired.
  set (r' := exec (simplifyWith h content context signal)
                  (unused acquired) (final acquired)) in *.
  unfold orElse. cbn [outcome emit].
  destruct cancelled.
  - rewrite Hout, friendlyError_cancelled.
    cbn [exec events emit outcome unused final].
    rewrite app_nil_r, processCalls_app, Hquiet, Hcalls. auto.
  - rewrite Hout. destruct (summary (nextReply (unused loop))) as [s|e].
    + cbn [events emit outcome unused].
      rewrite processCalls_app, Hquiet, Hcalls. auto.
    + destruct (friendlyError_throws e) as [e' He']. rewrite He'.
      cbn [exec events emit outcome unused final].
      rewrite app_nil_r, processCalls_app, Hquiet, Hcalls. auto.
Qed.

(** A cancellation seen by a check after the acquisition. *)
Lemma simplifyArticle_cancelled_after
      (content : text) (level : SimplificationLevel) (rs : list reply)
      (w : World) (evs : list Event) (rs' : list reply) (w' : World) :
  let acquired := exec (getSession (simplifyConfig level context)) rs w in
  sigAborted signal w = false ->
  outcome acquired = Resolved h ->
  exec (simplifyWith h content context signal) (unused acquired) (final acquired) =
  emit evs (rejected (str "Operation cancelled") rs' w') ->
  exec (simplifyArticle content level context signal) rs w =
  emit (events acquired ++ evs)
       (rejected (str "Simplification was cancelled") rs' w').
Proof.
  intros acquired Hw Hacq Hwith.
  rewrite (simplifyArticle_acquired content level rs w Hw Hacq).
  fold acquired. rewrite Hwith. unfold orElse.
  cbn [outcome emit rejected events final unused].
  rewrite friendlyError_cancelled. cbn [exec]. unfold emit, rejected.
  cbn [outcome events final unused]. now rewrite !app_nil_r.
Qed.

(** C9.  The signal is read before the session is acquired, before each
    chunk and before the final pass.  A call whose signal is aborted when
    it starts is rejected at once.  A call whose signal is aborted by the
    time the chunks [done] are through, with the chunks [todo] still to
    come, sends none of [todo] to the host: its [process] calls are those
    for [done], and it is rejected with the cancellation error.  A call
    whose signal is aborted by the time all chunks are through, with a fold
    over the limit, makes no final pass and is rejected the same way. *)
Theorem cancellation_is_checked
        (content : text) (level : SimplificationLevel) :
  (forall rs w,
      sigAborted signal w = true ->
      exec (simplifyArticle content level context signal) rs w =
      rejected (str "Operation cancelled") rs w) /\
  (forall rs w done todo summaries,
      let acquired := exec (getSession (simplifyConfig level context)) rs w in
      let passes :=
        exec (processPrefix h context signal done [])
             (unused acquired) (final acquired) in
      let r := exec (simplifyArticle content level context signal) rs w in
      sigAborted signal w = false ->
      outcome acquired = Resolved h ->
      MAX_INPUT_TOKENS < estimateTokens content ->
      simplifyChunks content = done ++ todo ->
      todo <> [] ->
      outcome passes = Resolved summaries ->
      sigAborted signal (final passes) = true ->
      outcome r = Rejected (str "Simplification was cancelled") /\
      processCalls (events r) = map (pair h) done /\
      unused r = unused passes) /\
  (forall rs w summaries,
      let acquired := exec (getSession (simplifyConfig level context)) rs w in
      let loop :=
        exec (processChunks h context signal (simplifyChunks content) [])
             (unused acquired) (final acquired) in
      let r := exec (simplifyArticle content level context signal) rs w in
      sigAborted signal w = false ->
      outcome acquired = Resolved h ->
      MAX_INPUT_TOKENS < estimateTokens content ->
      outcome loop = Resolved summaries ->
      MAX_INPUT_TOKENS < estimateTokens (join [LINE_FEED; LINE_FEED] summaries) ->
      sigAborted signal (final loop) = true ->
      outcome r = Rejected (str "Simplification was cancelled") /\
      processCalls (events r) = map (pair h) (simplifyChunks content) /\
      unused r = unused loop).
Proof.
  split; [|split].
  - intros rs w Ha. unfold simplifyArticle. rewrite exec_check, Ha. reflexivity.
  - intros rs w done todo summaries acquired passes r Hw Hacq Hlarge Hsplit
           Htodo Hpasses Ha.
    pose proof (getSession_notProcess (simplifyConfig level context) rs w) as Hq.
    fold acquired in Hq. apply processCalls_notProcess in Hq.
    destruct (processPrefix_resolved _ _ _ _ _ Hpasses) as (Hcalls & Hstart).
    fold passes in Hcalls.
    destruct todo as [|c todo']; [congruence|].
    assert (Hwith :
      exec (simplifyWith h content context signal) (unused acquired) (final acquired) =
      emit (events passes)
           (rejected (str "Operation cancelled") (unused passes) (final passes))).
    { unfold simplifyWith. rewrite exec_check.
      destruct (sigAborted signal (final acquired)) eqn:Hfa.
      - destruct done as [|d done'].
        + subst passes. cbn [processPrefix exec events unused final].
          now rewrite emit_nil.
        + assert (Hd : d :: done' <> []) by discriminate.
          apply Hstart in Hd. congruence.
      - apply Z.ltb_lt in Hlarge. rewrite Hlarge, Hsplit.
        rewrite exec_bind, processChunks_app by discriminate.
        fold passes. unfold andThen at 2. rewrite Hpasses.
        rewrite processChunks_cancelled by assumption.
        unfold andThen. reflexivity. }
    subst r.
    rewrite (simplifyArticle_cancelled_after content level rs w _ _ _ Hw Hacq Hwith).
    fold acquired. cbn [outcome events unused emit rejected].
    rewrite app_nil_r, processCalls_app, Hq, Hcalls. auto.
  - intros rs w summaries acquired loop r Hw Hacq Hlarge Hloop Hfold Ha.
    pose proof (getSession_notProcess (simplifyConfig level context) rs w) as Hq.
    fold acquired in Hq. apply processCalls_notProcess in Hq.
    destruct (processChunks_resolved _ _ _ _ _ _ _ _ Hloop)
      as (Hcalls & Hlen & Hstart).
    fold loop in Hcalls.
    assert (Hfa : sigAborted signal (final acquired) = false).
    { apply Hstart. intros E. rewrite E in Hlen. simpl in Hlen.
      destruct summaries; [|discriminate].
      simpl in Hfold. unfold MAX_INPUT_TOKENS in Hfold.
      rewrite estimateTokens_nil in Hfold. lia. }
    assert (Hwith :
      exec (simplifyWith h content context signal) (unused acquired) (final acquired) =
      emit (events loop)
           (rejected (str "Operation cancelled") (unused loop) (final loop))).
    { unfold simplifyWith. rewrite exec_check, Hfa.
      apply Z.ltb_lt in Hlarge. rewrite Hlarge.
      rewrite exec_bind. fold loop. unfold andThen. rewrite Hloop.
      unfold foldSummaries. apply Z.ltb_lt in Hfold. rewrite Hfold.
      rewrite exec_check, Ha. reflexivity. }
    subst r.
    rewrite (simplifyArticle_cancelled_after content level rs w _ _ _ Hw Hacq Hwith).
    fold acquired. cbn [outcome events unused emit rejected].
    rewrite app_nil_r, processCalls_app, Hq, Hcalls. auto.
Qed.

End FoldAndCancel.

(** ** The splitter: the claims *)

Section SplitterClaims.

Lemma splitIntoChunks_fuel (t : text) (options : option ChunkOptions) :
  1 <= optMaxChunkSize options ->
  0 <= optOverlap options ->
  2 * optOverlap options <= optMaxChunkSize options ->
  exists chunks,
    forall fuel, (length t < fuel)%nat ->
                 splitIntoChunks fuel t options = Some chunks.
Proof.
  intros HM Ho Hov. unfold splitIntoChunks.
  destruct (len t <=? optMaxChunkSize options); [now exists [t]|].
  destruct (splitLoop_terminates t _ _ (S (length t)) HM Ho Hov 0 [])
    as [out Hout]; [lia|unfold len; lia|].
  exists out. intros fuel Hf.
  apply (splitLoop_fuel_mono t _ _ (S (length t))); [lia|assumption].
Qed.

(** The options [simplifyArticle] passes let the loop end within the fuel
    [simplifyChunks] gives it. *)
Lemma simplifyChunks_total (content : text) :
  splitIntoChunks (S (length content)) content
    (Some {| maxChunkSize := Some (MAX_INPUT_TOKENS * CHARS_PER_TOKEN);
             overlap := Some 200 |}) =
  Some (simplifyChunks content).
Proof.
  unfold simplifyChunks.
  destruct (splitIntoChunks_fuel content
              (Some {| maxChunkSize := Some (MAX_INPUT_TOKENS * CHARS_PER_TOKEN);
                       overlap := Some 200 |})) as [chunks H];
    [vm_compute; discriminate ..|].
  rewrite (H (S (length content))) by lia. reflexivity.
Qed.

(** C7 (amended).  With [maxChunkSize >= 1] and
    [0 <= overlap <= maxChunkSize / 2] the splitter returns a plan, the same
    for every fuel that is enough; every chunk of the plan is at most
    [maxChunkSize] code units long, and for a text of three and a half times
    [maxChunkSize] the plan has at least four chunks.  Whatever the overlap,
    with [maxChunkSize >= 0] every chunk of a plan the splitter returns is
    at most [maxChunkSize] long, and the plan for a text of three and a half
    times [maxChunkSize], split with an overlap that is not negative, has at
    least four chunks. *)
Theorem chunks_fit_the_limit (t : text) (options : option ChunkOptions) :
  0 <= optMaxChunkSize options ->
  (forall fuel chunks,
      splitIntoChunks fuel t options = Some chunks ->
      Forall (fun c => len c <= optMaxChunkSize options) chunks /\
      (optMaxChunkSize options < len t ->
       2 * len t = 7 * optMaxChunkSize options ->
       0 <= optOverlap options ->
       (4 <= length chunks)%nat)) /\
  (1 <= optMaxChunkSize options ->
   0 <= optOverlap options ->
   2 * optOverlap options <= optMaxChunkSize options ->
   exists chunks,
     (forall fuel, (length t < fuel)%nat ->
                   splitIntoChunks fuel t options = Some chunks) /\
     Forall (fun c => len c <= optMaxChunkSize options) chunks /\
     (2 * len t = 7 * optMaxChunkSize options -> (4 <= length chunks)%nat)).
Proof.
  intros HM.
  assert (Hany : forall fuel chunks,
             splitIntoChunks fuel t options = Some chunks ->
             Forall (fun c => len c <= optMaxChunkSize options) chunks /\
             (optMaxChunkSize options < len t ->
              2 * len t = 7 * optMaxChunkSize options ->
              0 <= optOverlap options ->
              (4 <= length chunks)%nat)).
  { intros fuel chunks H. unfold splitIntoChunks in H.
    destruct (Z.leb_spec (len t) (optMaxChunkSize options)) as [Hle|Hgt].
    - injection H as <-. split; [repeat constructor; assumption|lia].
    - split.
      + eapply splitLoop_bounded; eauto.
      + intros _ H35 Ho.
        pose proof (splitLoop_min_chunks t _ _ 3 HM Ho fuel 0 [] chunks) as Hn.
        simpl length in Hn. apply Hn in H; lia. }
  split; [exact Hany|].
  intros H1 Ho Hov.
  destruct (splitIntoChunks_fuel t options H1 Ho Hov) as [chunks H].
  exists chunks. split; [exact H|].
  destruct (Hany (S (length t)) chunks) as [Hfit Hfour]; [apply H; lia|].
  split; [exact Hfit|]. intros H35. apply Hfour; lia.
Qed.

(** C10.  With [maxChunkSize >= 1] and [0 <= overlap <= maxChunkSize / 2]
    the loop ends: the start index grows with every pass, so one unit of
    fuel per code unit of the text and one more are enough, and more fuel
    gives the same chunks. *)
Theorem splitIntoChunks_terminates (t : text) (options : option ChunkOptions) :
  1 <= optMaxChunkSize options ->
  0 <= optOverlap options ->
  2 * optOverlap options <= optMaxChunkSize options ->
  (exists chunks,
      forall fuel, (length t < fuel)%nat ->
                   splitIntoChunks fuel t options = Some chunks) /\
  (forall startIndex,
      0 <= startIndex < len t ->
      startIndex <
      snd (splitBody t (optMaxChunkSize options) (optOverlap options) startIndex)) /\
  (forall fuel,
      StronglySorted Z.lt
        (splitStarts fuel t (optMaxChunkSize options) (optOverlap options) 0)).
Proof.
  intros HM Ho Hov. repeat split.
  - now apply splitIntoChunks_fuel.
  - intros s Hs. now apply splitBody_progress.
  - intros fuel. apply splitStarts_increasing; auto. lia.
Qed.

(** C8 (amended).  A window that is not the last one and has no break
    point past its half is pushed whole: the chunk is the window up to its
    edge (trimmed), and the next window starts [overlap] code units before
    that edge. *)
Theorem window_without_break_is_pushed_whole
        (t : text) (maxSize overlap startIndex : Z) (fuel : nat)
        (chunks : list text) :
  0 <= maxSize ->
  startIndex + maxSize < len t ->
  2 * breakPointOf (substring t startIndex (startIndex + maxSize)) <= maxSize ->
  let window := substring t startIndex (startIndex + maxSize) in
  splitLoop (S fuel) t maxSize overlap startIndex chunks =
  splitLoop fuel t maxSize overlap (startIndex + maxSize - overlap)
            (chunks ++ [trim window]) /\
  (forall out,
      splitLoop (S fuel) t maxSize overlap startIndex chunks = Some out ->
      nth_error out (length chunks) = Some (trim window)).
Proof.
  intros HM Hs Hb window.
  assert (Hbody : splitBody t maxSize overlap startIndex =
                  (trim window, startIndex + maxSize - overlap)).
  { unfold splitBody.
    replace (Z.min (startIndex + maxSize) (len t)) with (startIndex + maxSize) by lia.
    destruct (Z.ltb_spec (startIndex + maxSize) (len t)); [|lia].
    fold window.
    destruct (Z.ltb_spec maxSize (2 * breakPointOf window)); [|reflexivity].
    unfold window in *. lia. }
  assert (Hstep : splitLoop (S fuel) t maxSize overlap startIndex chunks =
                  splitLoop fuel t maxSize overlap (startIndex + maxSize - overlap)
                            (chunks ++ [trim window])).
  { rewrite splitLoop_step by lia. now rewrite Hbody. }
  split; [exact Hstep|].
  intros out Hout. rewrite Hstep in Hout.
  apply splitLoop_prefix in Hout as [more ->].
  rewrite <- app_assoc. rewrite nth_error_app2 by lia.
  now rewrite Nat.sub_diag.
Qed.

End SplitterClaims.

(** ** Acquiring the same config again: the claim *)

Section ReuseClaim.



End ReuseClaim.

(** ** Instances *)

Section Instances.

Lemma returns_eq (r : result (list text)) (summaries : list text) :
  returns r summaries = true -> r = Resolved summaries.
Proof.
  unfold returns. destruct r as [out|e]; [|discriminate].
  destruct (list_eq_dec (list_eq_dec N.eq_dec) out summaries); [|discriminate].
  intros _. now f_equal.
Defined.

Lemma nonempty_by_length {A : Type} (l : list A) (n : nat) :
  length l = S n -> l <> [].
Proof. intros H E. rewrite E in H. discriminate. Defined.


(** C6: a call that acquires session 1; two chunks, two long summaries, one
    final pass. *)
Lemma fold_pass_runs_once_witness :
  let rs := answer 3 0 :: answer 40 1 :: longSummaryReplies in
  let r := exec (simplifyArticle twoChunkArticle Mid None None) rs freshWorld in
  MAX_INPUT_TOKENS < estimateTokens twoChunkArticle /\
  processCalls (events r) =
    map (pair 1%nat) (simplifyChunks twoChunkArticle) ++
    [(1%nat, join [LINE_FEED; LINE_FEED] [longSummary; longSummary])] /\
  outcome r = Resolved (str "The gist.").
Proof.
  cbv zeta. split; [vm_compute; reflexivity|].
  refine ((fun X => conj (proj1 X) (proj1 (proj2 X)))
            (fold_pass_runs_once 1 None None twoChunkArticle Mid
               (answer 3 0 :: answer 40 1 :: longSummaryReplies) freshWorld
               [longSummary; longSummary] eq_refl eq_refl _ _ _)).
  - vm_compute; reflexivity.
  - apply returns_eq. vm_compute; reflexivity.
  - vm_compute; reflexivity.
Defined.

(** C7: a text of 1400 code units, three and a half times the limit of
    400, with an overlap of 200. *)
Lemma chunks_fit_the_limit_witness :
  0 <= optMaxChunkSize (chunkOptions 400 200) /\
  splitIntoChunks 2000 (letters 1400) (chunkOptions 400 200) =
  Some (repeat (letters 400) 6) /\
  Forall (fun c => len c <= 400) (repeat (letters 400) 6) /\
  (4 <= length (repeat (letters 400) 6))%nat /\
  (exists chunks,
      (forall fuel, (length (letters 1400) < fuel)%nat ->
                    splitIntoChunks fuel (letters 1400) (chunkOptions 400 200) =
                    Some chunks) /\
      Forall (fun c => len c <= optMaxChunkSize (chunkOptions 400 200)) chunks /\
      (4 <= length chunks)%nat).
Proof.
  assert (H0 : 0 <= optMaxChunkSize (chunkOptions 400 200))
    by (vm_compute; discriminate).
  assert (H : splitIntoChunks 2000 (letters 1400) (chunkOptions 400 200) =
              Some (repeat (letters 400) 6))
    by (vm_compute; reflexivity).
  split; [exact H0|]. split; [exact H|].
  destruct (proj1 (chunks_fit_the_limit (letters 1400) (chunkOptions 400 200) H0)
                  2000%nat _ H) as [Hfit Hfour].
  split; [exact Hfit|]. split.
  - apply Hfour; vm_compute; try reflexivity; discriminate.
  - destruct (proj2 (chunks_fit_the_limit (letters 1400) (chunkOptions 400 200) H0))
      as (chunks & Hall & Hfit' & Hfour');
      [vm_compute; discriminate ..|].
    exists chunks. split; [exact Hall|]. split; [exact Hfit'|].
    apply Hfour'. vm_compute; reflexivity.
Defined.

(** C8: the first window of ten letters, with no break point in it. *)
Lemma window_without_break_is_pushed_whole_witness :
  2 * breakPointOf (substring (letters 10) 0 (0 + 4)) <= 4 /\
  splitLoop 20 (letters 10) 4 1 0 [] =
  splitLoop 19 (letters 10) 4 1 (0 + 4 - 1) ([] ++ [trim (substring (letters 10) 0 (0 + 4))]).
Proof.
  split; [vm_compute; discriminate|].
  refine (proj1 (window_without_break_is_pushed_whole
                   (letters 10) 4 1 0 19 [] _ _ _));
    vm_compute; try reflexivity; discriminate.
Defined.

(** Against C8 as stated: the chunk of that window is the whole window of
    four letters up to the window's edge, not the three letters that end
    [overlap] before the edge. *)
Lemma chunk_ends_at_the_window_edge :
  let t := letters 10 in
  0 + 4 < len t /\
  breakPointOf (substring t 0 (0 + 4)) = -1 /\
  splitIntoChunks 20 t (chunkOptions 4 1) = Some [letters 4; letters 4; letters 4] /\
  splitStarts 20 t 4 1 0 = [0; 3; 6] /\
  fst (splitBody t 4 1 0) = substring t 0 4 /\
  fst (splitBody t 4 1 0) <> substring t 0 (4 - 1).
Proof. vm_compute. repeat split; try reflexivity; discriminate. Qed.

(** C10: the default options and the options of [simplifyArticle]. *)
Lemma splitIntoChunks_terminates_witness :
  (1 <= optMaxChunkSize None /\ 0 <= optOverlap None /\
   2 * optOverlap None <= optMaxChunkSize None) /\
  (exists chunks,
      forall fuel, (length (letters 5000) < fuel)%nat ->
                   splitIntoChunks fuel (letters 5000) None = Some chunks) /\
  (exists chunks,
      forall fuel, (length (letters 5000) < fuel)%nat ->
                   splitIntoChunks fuel (letters 5000) (chunkOptions 16000 200) =
                   Some chunks).
Proof.
  assert (H1 : 1 <= optMaxChunkSize None) by (vm_compute; discriminate).
  assert (H2 : 0 <= optOverlap None) by (vm_compute; discriminate).
  assert (H3 : 2 * optOverlap None <= optMaxChunkSize None)
    by (vm_compute; discriminate).
  split; [auto|]. split.
  - exact (proj1 (splitIntoChunks_terminates (letters 5000) None H1 H2 H3)).
  - refine (proj1 (splitIntoChunks_terminates (letters 5000)
                     (chunkOptions 16000 200) _ _ _));
      vm_compute; discriminate.
Defined.

(** C9: a call that starts cancelled; a call over five chunks cancelled
    while the second chunk is with the host; a call over two chunks
    cancelled while the last chunk is with the host, its fold over the
    limit. *)
Lemma cancellation_is_checked_witness :
  (sigAborted (Some 7%nat) cancelledWorld = true /\
   exec (simplifyArticle fiveChunkArticle Mid None (Some 7%nat))
        abortDuringSecondChunk cancelledWorld =
   rejected (str "Operation cancelled") abortDuringSecondChunk cancelledWorld) /\
  (length (simplifyChunks fiveChunkArticle) = 5%nat /\
   let r := exec (simplifyArticle fiveChunkArticle Mid None (Some 7%nat))
                 abortDuringSecondChunk freshWorld in
   outcome r = Rejected (str "Simplification was cancelled") /\
   processCalls (events r) =
   map (pair 1%nat) (firstn 2 (simplifyChunks fiveChunkArticle))) /\
  (let r := exec (simplifyArticle twoChunkArticle Mid None (Some 7%nat))
                 abortDuringLastChunk freshWorld in
   outcome r = Rejected (str "Simplification was cancelled") /\
   processCalls (events r) = map (pair 1%nat) (simplifyChunks twoChunkArticle)).
Proof.
  split; [|split].
  - split; [reflexivity|].
    exact (proj1 (cancellation_is_checked 1 None (Some 7%nat) fiveChunkArticle Mid)
                 abortDuringSecondChunk cancelledWorld eq_refl).
  - split; [vm_compute; reflexivity|].
    pose proof (proj1 (proj2 (cancellation_is_checked
                                1 None (Some 7%nat) fiveChunkArticle Mid))
                      abortDuringSecondChunk freshWorld
                      (firstn 2 (simplifyChunks fiveChunkArticle))
                      (skipn 2 (simplifyChunks fiveChunkArticle))
                      [str "one"; str "two"]) as H.
    cbv zeta in H |- *.
    assert (H' := H eq_refl eq_refl).
    clear H.
    refine ((fun X => conj (proj1 X) (proj1 (proj2 X))) (H' _ _ _ _ _)).
    + vm_compute; reflexivity.
    + symmetry. apply firstn_skipn.
    + apply (nonempty_by_length _ 2). vm_compute; reflexivity.
    + apply returns_eq. vm_compute; reflexivity.
    + vm_compute; reflexivity.
  - pose proof (proj2 (proj2 (cancellation_is_checked
                                1 None (Some 7%nat) twoChunkArticle Mid))
                      abortDuringLastChunk freshWorld
                      [longSummary; longSummary]) as H.
    cbv zeta in H |- *.
    assert (H' := H eq_refl eq_refl).
    clear H.
    refine ((fun X => conj (proj1 X) (proj1 (proj2 X))) (H' _ _ _ _)).
    + vm_compute; reflexivity.
    + apply returns_eq. vm_compute; reflexivity.
    + vm_compute; reflexivity.
    + vm_compute; reflexivity.
Defined.

End Instances.

(** * Further properties of the code *)

(** ** [cleanTextContent] *)

Section CleanText.

Lemma singleSpaced_replaceWhiteSpace (s : text) :
  forall b, singleSpaced b (replaceWhiteSpace b s) = true.
Proof.
  induction s as [|c r IH]; intros b; simpl; [reflexivity|].
  destruct (isWhiteSpace c) eqn:E.
  - destruct b; [apply IH|]. simpl. apply IH.
  - simpl. rewrite E. apply IH.
Qed.

Lemma singleSpaced_no_newline (s : text) :
  forall b, singleSpaced b s = true -> Forall (fun c => c <> LINE_FEED) s.
Proof.
  induction s as [|c r IH]; intros b H; constructor.
  - simpl in H. intros ->. simpl in H.
    rewrite andb_false_r in H. discriminate.
  - simpl in H. destruct (isWhiteSpace c).
    + apply andb_prop in H as [_ H]. eauto.
    + eauto.
Qed.

Lemma replaceNewlines_none (s : text) :
  Forall (fun c => c <> LINE_FEED) s -> replaceNewlines 0 s = s.
Proof.
  induction 1 as [|c r Hc _ IH]; simpl; [reflexivity|].
  apply N.eqb_neq in Hc. rewrite Hc. simpl. now rewrite IH.
Qed.

Lemma singleSpaced_trimStart (s : text) :
  forall b b', singleSpaced b s = true -> singleSpaced b' (trimStart s) = true.
Proof.
  induction s as [|c r IH]; intros b b' H; simpl; [reflexivity|].
  simpl in H. destruct (isWhiteSpace c) eqn:E.
  - apply andb_prop in H as [_ H]. eauto.
  - simpl. now rewrite E.
Qed.

Lemma singleSpaced_trimEnd (s : text) :
  forall b, singleSpaced b s = true -> singleSpaced b (trimEnd s) = true.
Proof.
  induction s as [|c r IH]; intros b H; simpl; [reflexivity|].
  simpl in H. destruct (isWhiteSpace c) eqn:E.
  - apply andb_prop in H as [H1 H2]. apply IH in H2.
    destruct (trimEnd r) as [|y r']; [reflexivity|].
    simpl in *. rewrite E, H1. exact H2.
  - apply IH in H.
    destruct (trimEnd r) as [|y r']; simpl in *; rewrite E; [reflexivity|exact H].
Qed.

Lemma startsWithWhiteSpace_trimStart (s : text) :
  startsWithWhiteSpace (trimStart s) = false.
Proof.
  induction s as [|c r IH]; simpl; [reflexivity|].
  destruct (isWhiteSpace c) eqn:E; [exact IH|]. simpl. exact E.
Qed.

Lemma startsWithWhiteSpace_trimEnd (s : text) :
  startsWithWhiteSpace s = false -> startsWithWhiteSpace (trimEnd s) = false.
Proof.
  destruct s as [|c r]; simpl; [reflexivity|]. intros E.
  destruct (trimEnd r); simpl; rewrite E; reflexivity || exact E.
Qed.

Lemma endsWithWhiteSpace_trimEnd (s : text) :
  endsWithWhiteSpace (trimEnd s) = false.
Proof.
  induction s as [|c r IH]; simpl; [reflexivity|].
  destruct (trimEnd r) as [|y r'] eqn:Er.
  - destruct (isWhiteSpace c) eqn:E; simpl; [reflexivity|exact E].
  - exact IH.
Qed.

Lemma replaceWhiteSpace_fixed (s : text) :
  forall b, singleSpaced b s = true -> replaceWhiteSpace b s = s.
Proof.
  induction s as [|c r IH]; intros b H; simpl; [reflexivity|].
  simpl in H. destruct (isWhiteSpace c) eqn:E.
  - apply andb_prop in H as [H1 H2]. apply andb_prop in H1 as [Hb Hc].
    destruct b; [discriminate|].
    apply N.eqb_eq in Hc. subst c. f_equal. now apply IH.
  - f_equal. now apply IH.
Qed.

Lemma trimStart_fixed (s : text) :
  startsWithWhiteSpace s = false -> trimStart s = s.
Proof. destruct s as [|c r]; simpl; [reflexivity|]. now intros ->. Qed.

Lemma trimEnd_fixed (s : text) :
  endsWithWhiteSpace s = false -> trimEnd s = s.
Proof.
  induction s as [|c r IH]; simpl; [reflexivity|].
  destruct r as [|y r'].
  - simpl. now intros ->.
  - intros H. rewrite (IH H). reflexivity.
Qed.

Lemma inked_replaceWhiteSpace (s : text) :
  forall b, inked (replaceWhiteSpace b s) = inked s.
Proof.
  induction s as [|c r IH]; intros b; simpl; [reflexivity|].
  destruct (isWhiteSpace c) eqn:E; simpl.
  - destruct b; simpl; apply IH.
  - rewrite E. simpl. f_equal. apply IH.
Qed.

Lemma inked_trimStart (s : text) : inked (trimStart s) = inked s.
Proof.
  induction s as [|c r IH]; simpl; [reflexivity|].
  destruct (isWhiteSpace c) eqn:E; simpl; [exact IH|now rewrite E].
Qed.

Lemma inked_trimEnd (s : text) : inked (trimEnd s) = inked s.
Proof.
  induction s as [|c r IH]; simpl; [reflexivity|].
  destruct (trimEnd r) as [|y r'] eqn:Er.
  - destruct (isWhiteSpace c) eqn:E; simpl; rewrite ?E; simpl;
      rewrite <- IH; reflexivity.
  - destruct (isWhiteSpace c) eqn:E; simpl; rewrite E; simpl; rewrite <- IH;
      reflexivity.
Qed.

Lemma len_replaceWhiteSpace (s : text) :
  forall b, len (replaceWhiteSpace b s) <= len s.
Proof.
  induction s as [|c r IH]; intros b; simpl; [lia|].
  destruct (isWhiteSpace c); [destruct b|]; rewrite ?len_cons;
    [pose proof (IH true)|pose proof (IH true)|pose proof (IH false)]; lia.
Qed.

End CleanText.

(** ** The windows of the splitter *)

Section Windows.

Variable t : text.
Variables maxSize overlap : Z.

Lemma len_window (startIndex : Z) :
  0 <= maxSize -> startIndex < len t ->
  len (substring t startIndex (Z.min (startIndex + maxSize) (len t))) <= maxSize /\
  (0 <= startIndex ->
   len (substring t startIndex (Z.min (startIndex + maxSize) (len t))) =
   Z.min (startIndex + maxSize) (len t) - startIndex).
Proof.
  intros HM Hs. rewrite len_substring. unfold clamp.
  pose proof (len_nonneg t). lia.
Qed.

(** What one pass of the loop pushes and where it goes on. *)
Lemma splitBody_cut (startIndex : Z) :
  0 <= maxSize -> startIndex < len t ->
  let cut := cutOf t maxSize startIndex in
  splitBody t maxSize overlap startIndex =
  (trim (substring t startIndex cut), if cut <? len t then cut - overlap else cut).
Proof.
  intros HM Hs. unfold cutOf, splitBody. cbv zeta.
  set (e := Z.min (startIndex + maxSize) (len t)).
  destruct (Z.ltb_spec e (len t)) as [He|He].
  - pose proof (breakPointOf_range (substring t startIndex e)) as Hb.
    destruct (len_window startIndex HM Hs) as [Hl _]. fold e in Hl.
    destruct (Z.ltb_spec maxSize (2 * breakPointOf (substring t startIndex e))).
    + destruct (Z.ltb_spec (startIndex + breakPointOf (substring t startIndex e) + 1)
                           (len t)); [reflexivity|].
      unfold e in *. lia.
    + destruct (Z.ltb_spec e (len t)); [reflexivity|lia].
  - destruct (Z.ltb_spec e (len t)); [lia|reflexivity].
Qed.

Lemma cutOf_range (startIndex : Z) :
  1 <= maxSize -> 0 <= startIndex < len t ->
  startIndex < cutOf t maxSize startIndex <= len t /\
  cutOf t maxSize startIndex - startIndex <= maxSize.
Proof.
  intros HM Hs. unfold cutOf. cbv zeta.
  set (e := Z.min (startIndex + maxSize) (len t)).
  pose proof (breakPointOf_range (substring t startIndex e)) as Hb.
  assert (Hl : len (substring t startIndex e) = e - startIndex).
  { apply len_window; lia. }
  destruct (Z.ltb_spec e (len t)).
  - destruct (Z.ltb_spec maxSize (2 * breakPointOf (substring t startIndex e)));
      unfold e in *; lia.
  - unfold e in *; lia.
Qed.

(** The chunks are the trimmed stretches. *)
Lemma splitLoop_windows (fuel : nat) :
  0 <= maxSize ->
  forall startIndex chunks out,
    splitLoop fuel t maxSize overlap startIndex chunks = Some out ->
    out = chunks ++ map (stretch t) (splitWindows fuel t maxSize overlap startIndex).
Proof.
  intros HM. induction fuel as [|f IH]; intros s cs out H; [discriminate|].
  destruct (Z.ltb_spec s (len t)) as [Hs|Hs].
  - rewrite splitLoop_step in H by assumption.
    apply IH in H. rewrite H. cbn [splitWindows].
    destruct (Z.ltb_spec s (len t)); [|lia].
    rewrite <- app_assoc. cbn [map app]. repeat f_equal.
    unfold stretch. cbn [fst snd].
    now rewrite (splitBody_cut s HM Hs).
  - rewrite splitLoop_stop in H by assumption. injection H as <-.
    cbn [splitWindows]. destruct (Z.ltb_spec s (len t)); [lia|].
    now rewrite app_nil_r.
Qed.

(** When the loop ends, its stretches follow each other to the end of the
    text. *)
Lemma splitWindows_chained (fuel : nat) :
  1 <= maxSize -> 0 <= overlap -> 2 * overlap <= maxSize ->
  forall startIndex chunks out,
    0 <= startIndex ->
    splitLoop fuel t maxSize overlap startIndex chunks = Some out ->
    chained (len t) maxSize overlap startIndex
            (splitWindows fuel t maxSize overlap startIndex).
Proof.
  intros HM Ho Hov. induction fuel as [|f IH]; intros s cs out Hs H; [discriminate|].
  cbn [splitWindows].
  destruct (Z.ltb_spec s (len t)) as [Hlt|Hge].
  - rewrite splitLoop_step in H by assumption.
    pose proof (cutOf_range s HM (conj Hs Hlt)) as [Hc Hm].
    pose proof (splitBody_progress t maxSize overlap s HM Ho Hov (conj Hs Hlt)) as Hp.
    cbn [chained]. repeat split; try lia.
    assert (Hn : snd (splitBody t maxSize overlap s) =
                 if cutOf t maxSize s <? len t then cutOf t maxSize s - overlap
                 else cutOf t maxSize s).
    { rewrite splitBody_cut by lia. reflexivity. }
    rewrite <- Hn. eapply IH; [lia|exact H].
  - simpl. lia.
Qed.

(** Stretches that follow each other leave out nothing of the text. *)
Lemma chained_covers (n : Z) (ws : list (Z * Z)) :
  0 <= overlap ->
  forall startIndex i,
    chained n maxSize overlap startIndex ws ->
    startIndex <= i < n ->
    exists w, In w ws /\ fst w <= i < snd w.
Proof.
  intros Ho. induction ws as [|[a c] more IH]; intros s i H Hi.
  - simpl in H. lia.
  - cbn [chained] in H. destruct H as (-> & Hc & _ & Hrest).
    destruct (Z.lt_ge_cases i c) as [Hic|Hic].
    + exists (s, c). split; [now left|simpl; lia].
    + destruct (Z.ltb_spec c n); [|lia].
      destruct (IH _ i Hrest) as (w & Hw & Hin); [lia|].
      exists w. split; [now right|assumption].
Qed.

End Windows.

(** ** More facts about the session map *)

Section SessionMapMore.

Lemma text_eqb_neq (a b : text) : a <> b -> text_eqb a b = false.
Proof. unfold text_eqb. now destruct (list_eq_dec N.eq_dec a b). Qed.

Lemma text_eqb_true (a b : text) : text_eqb a b = true -> a = b.
Proof.
  unfold text_eqb. destruct (list_eq_dec N.eq_dec a b); congruence.
Qed.

Lemma map_get_set_other (key key' : text) (v : ManagedSession) (m : SessionMap) :
  key <> key' -> map_get key' (map_set key v m) = map_get key' m.
Proof.
  intros Hk. induction m as [|[k x] r IH]; simpl.
  - rewrite text_eqb_neq by assumption. reflexivity.
  - destruct (text_eqb k key) eqn:E; simpl.
    + apply text_eqb_true in E. subst k.
      now rewrite text_eqb_neq by assumption.
    + destruct (text_eqb k key'); [reflexivity|exact IH].
Qed.

Lemma map_get_delete_other (key key' : text) (m : SessionMap) :
  key <> key' -> map_get key' (map_delete key m) = map_get key' m.
Proof.
  intros Hk. induction m as [|[k x] r IH]; simpl; [reflexivity|].
  destruct (text_eqb k key) eqn:E; simpl.
  - apply text_eqb_true in E. subst k. now rewrite text_eqb_neq by assumption.
  - destruct (text_eqb k key'); [reflexivity|exact IH].
Qed.

Lemma map_get_none (key : text) (m : SessionMap) :
  ~ In key (map fst m) -> map_get key m = None.
Proof.
  induction m as [|[k x] r IH]; simpl; [reflexivity|]. intros H.
  rewrite text_eqb_neq by tauto. apply IH. tauto.
Qed.

Lemma map_get_some_in (key : text) (v : ManagedSession) (m : SessionMap) :
  map_get key m = Some v -> In (key, v) m.
Proof.
  induction m as [|[k x] r IH]; simpl; [discriminate|].
  destruct (text_eqb k key) eqn:E.
  - apply text_eqb_true in E. intros [= ->]. left. now subst.
  - intros H. right. now apply IH.
Qed.

Lemma map_get_in (key : text) (v : ManagedSession) (m : SessionMap) :
  distinctKeys m -> In (key, v) m -> map_get key m = Some v.
Proof.
  unfold distinctKeys. induction m as [|[k x] r IH]; simpl; [contradiction|].
  intros Hd [H|H].
  - injection H as -> ->. now rewrite text_eqb_refl.
  - inversion Hd as [|? ? Hn Hd']; subst.
    destruct (text_eqb k key) eqn:E; [|now apply IH].
    apply text_eqb_true in E. subst k. exfalso. apply Hn.
    change key with (fst (key, v)). now apply in_map.
Qed.

(** Deleting a key leaves the entries with other keys, in order. *)
Lemma map_delete_filter (key : text) (m : SessionMap) :
  distinctKeys m ->
  map_delete key m = filter (fun e => negb (text_eqb (fst e) key)) m.
Proof.
  unfold distinctKeys. induction m as [|[k x] r IH]; simpl; [reflexivity|].
  intros Hd. inversion Hd as [|? ? Hn Hd']; subst.
  destruct (text_eqb k key) eqn:E; simpl.
  - apply text_eqb_true in E. subst k.
    symmetry. apply forallb_filter_id. apply forallb_forall.
    intros [k' x'] Hin. simpl.
    rewrite text_eqb_neq; [reflexivity|]. intros ->. apply Hn.
    change key with (fst (key, x')). now apply in_map.
  - f_equal. now apply IH.
Qed.

Lemma distinctKeys_filter (f : text * ManagedSession -> bool) (m : SessionMap) :
  distinctKeys m -> distinctKeys (filter f m).
Proof.
  unfold distinctKeys. induction m as [|e r IH]; simpl; [auto|].
  intros Hd. inversion Hd as [|? ? Hn Hd']; subst.
  destruct (f e); simpl; [|auto].
  constructor; [|auto]. intros Hin. apply Hn.
  apply in_map_iff in Hin as (e' & He & Hin').
  apply filter_In in Hin' as [Hin' _].
  rewrite <- He. now apply in_map.
Qed.

Lemma distinctKeys_delete (key : text) (m : SessionMap) :
  distinctKeys m -> distinctKeys (map_delete key m).
Proof.
  intros H. rewrite map_delete_filter by assumption.
  now apply distinctKeys_filter.
Qed.

Lemma map_set_keys_present (key : text) (v v' : ManagedSession) (m : SessionMap) :
  map_get key m = Some v' -> map fst (map_set key v m) = map fst m.
Proof.
  induction m as [|[k x] r IH]; simpl; [discriminate|].
  destruct (text_eqb k key) eqn:E; simpl; [reflexivity|].
  intros H. f_equal. now apply IH.
Qed.

Lemma map_set_keys_absent (key : text) (v : ManagedSession) (m : SessionMap) :
  map_get key m = None -> map fst (map_set key v m) = map fst m ++ [key].
Proof.
  induction m as [|[k x] r IH]; simpl; [reflexivity|].
  destruct (text_eqb k key) eqn:E; simpl; [discriminate|].
  intros H. f_equal. now apply IH.
Qed.

Lemma map_get_not_in (key : text) (m : SessionMap) :
  map_get key m = None -> ~ In key (map fst m).
Proof.
  induction m as [|[k x] r IH]; simpl; [tauto|].
  destruct (text_eqb k key) eqn:E; [discriminate|].
  intros H [Hk|Hin]; [|now apply IH].
  subst k. now rewrite text_eqb_refl in E.
Qed.

Lemma distinctKeys_set (key : text) (v : ManagedSession) (m : SessionMap) :
  distinctKeys m -> distinctKeys (map_set key v m).
Proof.
  unfold distinctKeys. intros Hd.
  destruct (map_get key m) as [v'|] eqn:E.
  - now rewrite (map_set_keys_present key v v' m E).
  - rewrite (map_set_keys_absent key v m E).
    apply NoDup_app; [assumption|repeat constructor; simpl; tauto|].
    intros k Hk [<-|[]]. now apply (map_get_not_in key m E).
Qed.

Lemma map_size_set (key : text) (v : ManagedSession) (m : SessionMap) :
  map_size (map_set key v m) =
  match map_get key m with Some _ => map_size m | None => map_size m + 1 end.
Proof.
  unfold map_size.
  induction m as [|[k x] r IH]; cbn [map_set map_get length]; [lia|].
  destruct (text_eqb k key); cbn [length]; [lia|].
  revert IH. destruct (map_get key r); intros IH; lia.
Qed.

Lemma map_size_delete (key : text) (m : SessionMap) :
  map_size (map_delete key m) =
  match map_get key m with Some _ => map_size m - 1 | None => map_size m end.
Proof.
  unfold map_size.
  induction m as [|[k x] r IH]; cbn [map_delete map_get length]; [lia|].
  destruct (text_eqb k key); cbn [length]; [lia|].
  revert IH. destruct (map_get key r); intros IH; lia.
Qed.

End SessionMapMore.

(** ** Destroying sessions *)

Section Destroying.

Lemma exec_readManager {A : Type} (f : AISessionManager -> prog A)
      (rs : list reply) (w : World) :
  exec (bind readManager f) rs w = exec (f (manager w)) rs w.
Proof. reflexivity. Qed.

Lemma exec_dateNow {A : Type} (f : Z -> prog A) (rs : list reply) (w : World) :
  exec (bind dateNow f) rs w = exec (f (clock w)) rs w.
Proof. reflexivity. Qed.

Lemma spaced_cons (gap a b : Z) (l : list Z) :
  spaced gap (a :: b :: l) = (a + gap <=? b) && spaced gap (b :: l).
Proof. reflexivity. Qed.

Lemma destroyCalls_app (a b : list Event) :
  destroyCalls (a ++ b) = destroyCalls a ++ destroyCalls b.
Proof. apply flat_map_app. Qed.

Lemma destroyCalls_abortEvents (time : Z) (ss : list nat) :
  destroyCalls (abortEvents time ss) = [].
Proof. induction ss; simpl; auto. Qed.

(** The shared body: after the pause the session is destroyed, when there
    is one, and the key is deleted, whether or not [destroy()] throws. *)
Lemma exec_destroyAndDelete (key : text) (managed : option ManagedSession)
      (rs : list reply) (w : World) :
  let r := nextReply rs in
  let d := Z.max 200 (elapsed r) in
  let w' := pass d (aborts r) w in
  exec (destroyAndDelete key managed) rs w =
  {| outcome := Resolved tt;
     final := withManager (withSessions (map_delete key)) w';
     unused := tl rs;
     events :=
       abortEvents (clock w + d) (aborts r) ++
       match managed with
       | Some v => [EvDestroy (clock w') (session v)]
       | None => []
       end |}.
Proof.
  unfold destroyAndDelete. destruct managed as [v|]; simpl.
  - destruct (destroyResult (session v) _); reflexivity.
  - reflexivity.
Qed.

Lemma exec_destroyAllLoop_step (key : text) (more : list text)
      (v : ManagedSession) (rs : list reply) (w : World) :
  map_get key (sessions (manager w)) = Some v ->
  let r := nextReply rs in
  let d := Z.max 200 (elapsed r) in
  let w' := pass d (aborts r) w in
  exec (destroyAllLoop (key :: more)) rs w =
  emit (abortEvents (clock w + d) (aborts r) ++ [EvDestroy (clock w') (session v)])
       (exec (destroyAllLoop more) (tl rs) w').
Proof.
  intros H. cbn [destroyAllLoop]. rewrite exec_readManager.
  rewrite H. rewrite exec_bind, exec_tryCatch.
  simpl. destruct (destroyResult (session v) _); simpl;
    unfold andThen, orElse, emit; simpl; rewrite <- ?app_assoc; reflexivity.
Qed.

Lemma destroyCalls_destroy (time : Z) (h : handle) (evs : list Event) :
  destroyCalls (EvDestroy time h :: evs) = (time, h) :: destroyCalls evs.
Proof. reflexivity. Qed.

Lemma distinctKeys_get_all (m : SessionMap) :
  distinctKeys m -> Forall (fun e => map_get (fst e) m = Some (snd e)) m.
Proof.
  intros Hd. apply Forall_forall. intros [k v] Hin. now apply map_get_in.
Qed.

(** X7.  [destroySession]: the config's session, if it has one, is destroyed and
    taken from the map; the other sessions stay; the call never rejects,
    also when [destroy()] throws.  Without a session for the config nothing
    happens at all. *)
Theorem destroySession_removes_the_session
        (config : SessionConfig) (rs : list reply) (w : World) :
  distinctKeys (sessions (manager w)) ->
  let r := exec (destroySession config) rs w in
  outcome r = Resolved tt /\
  map snd (destroyCalls (events r)) =
    match pooled config w with Some v => [session v] | None => [] end /\
  pooled config (final r) = None /\
  (forall config',
      sessionKeyOf config' <> sessionKeyOf config ->
      pooled config' (final r) = pooled config' w) /\
  (pooled config w = None -> final r = w /\ unused r = rs /\ events r = []).
Proof.
  intros Hd r.
  assert (Hr : r = match pooled config w with
                   | Some v => exec (destroyAndDelete (sessionKeyOf config) (Some v)) rs w
                   | None => {| outcome := Resolved tt; final := w; unused := rs;
                                events := [] |}
                   end).
  { subst r. unfold destroySession, pooled. rewrite exec_readManager.
    now destruct (map_get _ _). }
  rewrite Hr. clear Hr r. unfold pooled.
  destruct (map_get (sessionKeyOf config) (sessions (manager w))) as [v|] eqn:E.
  - rewrite exec_destroyAndDelete. cbn [outcome events final unused].
    rewrite destroyCalls_app, destroyCalls_abortEvents.
    repeat split; try discriminate.
    + cbn [manager withManager withSessions sessions pass].
      apply map_get_none. rewrite map_delete_filter by assumption.
      intros Hin. apply in_map_iff in Hin as ([k x] & Hk & Hin).
      apply filter_In in Hin as [_ Hf]. simpl in Hk, Hf. subst k.
      now rewrite text_eqb_refl in Hf.
    + intros config' Hk. cbn [manager withManager withSessions sessions pass].
      apply map_get_delete_other. congruence.
  - cbn [outcome events final unused]. repeat split; auto.
Qed.

Lemma destroyAllLoop_spec (es : SessionMap) :
  forall rs w,
    Forall (fun e => map_get (fst e) (sessions (manager w)) = Some (snd e)) es ->
    let r := exec (destroyAllLoop (map fst es)) rs w in
    outcome r = Resolved tt /\
    manager (final r) = manager w /\
    map snd (destroyCalls (events r)) = handlesOf es /\
    spaced 200 (clock w :: map fst (destroyCalls (events r))) = true /\
    length (unused r) = (length rs - length es)%nat.
Proof.
  induction es as [|[k v] more IH]; intros rs w H.
  - simpl. repeat split. lia.
  - inversion H as [|? ? Hk Hmore]; subst. cbn [fst snd] in Hk.
    cbn [map fst]. cbv zeta. rewrite (exec_destroyAllLoop_step k _ v rs w Hk).
    cbv zeta.
    set (w' := pass _ _ w).
    specialize (IH (tl rs) w' Hmore). cbv zeta in IH.
    destruct IH as (Ho & Hm & Hh & Hs & Hu).
    cbn [outcome events final unused emit].
    rewrite <- app_assoc, destroyCalls_app, destroyCalls_abortEvents.
    cbn [app]. rewrite destroyCalls_destroy. cbn [map fst snd].
    repeat split; auto.
    + unfold handlesOf in *. cbn [map snd]. now rewrite Hh.
    + rewrite spaced_cons, Hs, andb_true_r.
      apply Z.leb_le. unfold w'. cbn [clock pass]. lia.
    + rewrite Hu. destruct rs; simpl; lia.
Qed.

(** X8.  [destroyAll]: every session of the map gets its [destroy()] call, in
    the map's order and at least 200 ms after the call before, also when
    some of the calls throw; the map is empty afterwards and the call never
    rejects. *)
Theorem destroyAll_destroys_every_session (rs : list reply) (w : World) :
  distinctKeys (sessions (manager w)) ->
  let r := exec destroyAll rs w in
  outcome r = Resolved tt /\
  map snd (destroyCalls (events r)) = handlesOf (sessions (manager w)) /\
  spaced 200 (clock w :: map fst (destroyCalls (events r))) = true /\
  sessions (manager (final r)) = [] /\
  lastCreationTime (manager (final r)) = lastCreationTime (manager w).
Proof.
  intros Hd r.
  destruct (destroyAllLoop_spec (sessions (manager w)) rs w
              (distinctKeys_get_all _ Hd)) as (Ho & Hm & Hh & Hs & _).
  subst r. unfold destroyAll. rewrite exec_readManager, exec_bind.
  unfold andThen. rewrite Ho.
  cbn [exec modifyManager outcome events final unused emit].
  rewrite app_nil_r. repeat split; auto.
  cbn [manager withManager withSessions lastCreationTime]. now rewrite Hm.
Qed.

Lemma filter_filter {A : Type} (f g : A -> bool) (l : list A) :
  filter f (filter g l) = filter (fun x => g x && f x) l.
Proof.
  induction l as [|x r IH]; simpl; [reflexivity|].
  destruct (g x); simpl; [destruct (f x)|]; now rewrite IH.
Qed.

Lemma exec_cleanupLoop_step (key : text) (more : list text)
      (rs : list reply) (w : World) :
  let r := nextReply rs in
  let d := Z.max 200 (elapsed r) in
  let w' := pass d (aborts r) w in
  exec (cleanupLoop (key :: more)) rs w =
  emit (abortEvents (clock w + d) (aborts r) ++
        match map_get key (sessions (manager w)) with
        | Some v => [EvDestroy (clock w') (session v)]
        | None => []
        end)
       (exec (cleanupLoop more) (tl rs)
             (withManager (withSessions (map_delete key)) w')).
Proof.
  cbn [cleanupLoop]. rewrite exec_readManager, exec_bind, exec_destroyAndDelete.
  reflexivity.
Qed.

Lemma cleanupLoop_spec (es : SessionMap) :
  forall rs w,
    distinctKeys (sessions (manager w)) ->
    incl es (sessions (manager w)) ->
    NoDup (map fst es) ->
    let r := exec (cleanupLoop (map fst es)) rs w in
    outcome r = Resolved tt /\
    sessions (manager (final r)) =
      filter (fun e => negb (existsb (text_eqb (fst e)) (map fst es)))
             (sessions (manager w)) /\
    lastCreationTime (manager (final r)) = lastCreationTime (manager w) /\
    map snd (destroyCalls (events r)) = handlesOf es /\
    spaced 200 (clock w :: map fst (destroyCalls (events r))) = true.
Proof.
  induction es as [|[k v] more IH]; intros rs w Hd Hin Hnd.
  - simpl. repeat split. symmetry. apply forallb_filter_id.
    apply forallb_forall. reflexivity.
  - cbn [map fst]. cbv zeta. rewrite exec_cleanupLoop_step. cbv zeta.
    assert (Hk : map_get k (sessions (manager w)) = Some v).
    { apply map_get_in; [assumption|]. apply Hin. now left. }
    rewrite Hk.
    set (w' := pass _ _ w).
    set (w1 := withManager (withSessions (map_delete k)) w').
    inversion Hnd as [|? ? Hk' Hnd']; subst.
    assert (Hs1 : sessions (manager w1) =
                  filter (fun e => negb (text_eqb (fst e) k)) (sessions (manager w))).
    { unfold w1, w'. cbn [manager withManager withSessions sessions pass].
      now apply map_delete_filter. }
    specialize (IH (tl rs) w1). cbv zeta in IH.
    destruct IH as (Ho & Hsess & Hl & Hh & Hsp).
    + rewrite Hs1. now apply distinctKeys_filter.
    + intros [k2 v2] H2. rewrite Hs1. apply filter_In. split.
      * apply Hin. now right.
      * cbn [fst]. rewrite text_eqb_neq; [reflexivity|].
        intros ->. apply Hk'. change k with (fst (k, v2)). now apply in_map.
    + assumption.
    + cbn [outcome events final unused emit].
      rewrite <- app_assoc, destroyCalls_app, destroyCalls_abortEvents.
      cbn [app]. rewrite destroyCalls_destroy. cbn [map fst snd].
      repeat split; auto.
      * rewrite Hsess, Hs1, filter_filter. apply filter_ext.
        intros [k2 v2]. cbn [fst existsb]. now rewrite negb_orb.
      * unfold handlesOf in *. cbn [map snd]. now rewrite Hh.
      * change (clock w1) with (clock w') in Hsp.
        rewrite spaced_cons, Hsp, andb_true_r.
        apply Z.leb_le. unfold w'. cbn [clock pass]. lia.
Qed.

Lemma cleanup_run (rs : list reply) (w : World) :
  distinctKeys (sessions (manager w)) ->
  let r := exec cleanup rs w in
  let old := fun e : text * ManagedSession => expired (clock w) (snd e) in
  outcome r = Resolved tt /\
  sessions (manager (final r)) =
    filter (fun e => negb (old e)) (sessions (manager w)) /\
  map snd (destroyCalls (events r)) =
    handlesOf (filter old (sessions (manager w))) /\
  spaced 200 (clock w :: map fst (destroyCalls (events r))) = true /\
  lastCreationTime (manager (final r)) = lastCreationTime (manager w).
Proof.
  intros Hd r old. subst r. unfold cleanup.
  rewrite exec_dateNow, exec_readManager. unfold expiredKeys.
  change (fun e : text * ManagedSession =>
            SESSION_TIMEOUT <? clock w - lastUsedAt (snd e)) with old.
  destruct (cleanupLoop_spec (filter old (sessions (manager w))) rs w Hd)
    as (Ho & Hs & Hl & Hh & Hsp).
  - intros e He. now apply filter_In in He.
  - now apply distinctKeys_filter.
  - repeat split; auto.
    rewrite Hs. apply filter_ext_in. intros [k v] Hin. cbn [fst]. f_equal.
    destruct (old (k, v)) eqn:E.
    + apply existsb_exists. exists k. split; [|apply text_eqb_refl].
      change k with (fst (k, v)). apply in_map. now apply filter_In.
    + apply Bool.not_true_is_false. intros Hex.
      apply existsb_exists in Hex as (k' & Hk' & Heq).
      apply text_eqb_true in Heq. subst k'.
      apply in_map_iff in Hk' as ([k2 v2] & Hk2 & Hin2). cbn [fst] in Hk2. subst k2.
      apply filter_In in Hin2 as [Hin2 Hold].
      pose proof (map_get_in k v _ Hd Hin) as G1.
      pose proof (map_get_in k v2 _ Hd Hin2) as G2.
      rewrite G1 in G2. injection G2 as <-. congruence.
Qed.

(** X9.  [cleanup]: the sessions that have not been used for more than
    [SESSION_TIMEOUT] at the time the sweep starts are destroyed, in the
    map's order and 200 ms or more apart, and taken from the map; the others
    stay as they are, in their order.  The sweep never rejects. *)
Theorem cleanup_sweeps_the_expired (rs : list reply) (w : World) :
  distinctKeys (sessions (manager w)) ->
  let r := exec cleanup rs w in
  let old := fun e : text * ManagedSession => expired (clock w) (snd e) in
  outcome r = Resolved tt /\
  sessions (manager (final r)) =
    filter (fun e => negb (old e)) (sessions (manager w)) /\
  map snd (destroyCalls (events r)) =
    handlesOf (filter old (sessions (manager w))) /\
  spaced 200 (clock w :: map fst (destroyCalls (events r))) = true /\
  lastCreationTime (manager (final r)) = lastCreationTime (manager w).
Proof. exact (cleanup_run rs w). Qed.

Lemma fold_oldest (m : SessionMap) :
  forall k0 v0,
    exists k v,
      fold_left oldestStep m (Some k0, Some (lastUsedAt v0)) =
      (Some k, Some (lastUsedAt v)) /\
      In (k, v) ((k0, v0) :: m) /\
      lastUsedAt v <= lastUsedAt v0 /\
      forall e, In e m -> lastUsedAt v <= lastUsedAt (snd e).
Proof.
  induction m as [|[k1 v1] r IH]; intros k0 v0.
  - exists k0, v0. simpl. repeat split; auto; try lia.
  - cbn [fold_left]. unfold oldestStep at 2. cbn [fst snd].
    destruct (Z.ltb_spec (lastUsedAt v1) (lastUsedAt v0)) as [Hlt|Hge].
    + destruct (IH k1 v1) as (k & v & Hf & Hin & Hle & Hall).
      exists k, v. repeat split; auto; try lia.
      * destruct Hin as [Hin|Hin]; [right; now left|right; now right].
      * intros e [<-|He]; [simpl; lia|auto].
    + destruct (IH k0 v0) as (k & v & Hf & Hin & Hle & Hall).
      exists k, v. repeat split; auto.
      * destruct Hin as [Hin|Hin]; [now left|right; now right].
      * intros e [<-|He]; [simpl; lia|auto].
Qed.

Lemma oldestKeyOf_spec (m : SessionMap) :
  m <> [] ->
  exists k v,
    oldestKeyOf m = Some k /\ In (k, v) m /\
    forall e, In e m -> lastUsedAt v <= lastUsedAt (snd e).
Proof.
  destruct m as [|[k1 v1] r]; [congruence|]. intros _.
  unfold oldestKeyOf. cbn [fold_left]. unfold oldestStep at 2. cbn [fst snd].
  destruct (fold_oldest r k1 v1) as (k & v & Hf & Hin & Hle & Hall).
  exists k, v. rewrite Hf. repeat split; auto.
  intros e [<-|He]; [simpl; lia|auto].
Qed.

Lemma destroyOldestSession_run (rs : list reply) (w : World) :
  distinctKeys (sessions (manager w)) ->
  Forall (fun e => fst e <> []) (sessions (manager w)) ->
  let m := sessions (manager w) in
  let r := exec destroyOldestSession rs w in
  outcome r = Resolved tt /\
  (m = [] -> final r = w /\ unused r = rs /\ events r = []) /\
  (m <> [] ->
   exists k v,
     In (k, v) m /\
     (forall e, In e m -> lastUsedAt v <= lastUsedAt (snd e)) /\
     map snd (destroyCalls (events r)) = [session v] /\
     sessions (manager (final r)) = map_delete k m /\
     pooledKey k (final r) = None /\
     map_size (sessions (manager (final r))) = map_size m - 1).
Proof.
  intros Hd Hkeys m r. subst r m. unfold destroyOldestSession.
  rewrite exec_readManager. cbv zeta.
  destruct (sessions (manager w)) as [|e0 m'] eqn:Em.
  - simpl. repeat split; auto. congruence.
  - destruct (oldestKeyOf_spec (e0 :: m')) as (k & v & Hk & Hin & Hmin);
      [discriminate|].
    rewrite Hk.
    assert (Hne : k <> []).
    { rewrite Forall_forall in Hkeys. apply (Hkeys (k, v)). assumption. }
    assert (Ht : truthyKey (Some k) = true) by (destruct k; [congruence|reflexivity]).
    rewrite Ht.
    assert (Hg : map_get k (e0 :: m') = Some v).
    { apply map_get_in; assumption. }
    rewrite Hg, exec_destroyAndDelete.
    cbn [outcome events final unused].
    rewrite destroyCalls_app, destroyCalls_abortEvents.
    split; [reflexivity|]. split; [discriminate|]. intros _.
    exists k, v. unfold pooledKey.
    cbn [manager withManager withSessions sessions pass].
    rewrite Em. repeat split; auto.
    + apply map_get_none.
      rewrite map_delete_filter by assumption.
      intros Hi. apply in_map_iff in Hi as ([k2 x] & Hk2 & Hi).
      apply filter_In in Hi as [_ Hf]. simpl in Hk2, Hf. subst k2.
      now rewrite text_eqb_refl in Hf.
    + rewrite map_size_delete, Hg. reflexivity.
Qed.

(** X10.  [destroyOldestSession]: of a map that is not empty, a session
    that was used least recently is destroyed and taken from the map, which
    gets one entry smaller; the call never rejects.  On an empty map nothing
    happens. *)
Theorem destroyOldestSession_evicts_least_recently_used
        (rs : list reply) (w : World) :
  distinctKeys (sessions (manager w)) ->
  Forall (fun e => fst e <> []) (sessions (manager w)) ->
  let m := sessions (manager w) in
  let r := exec destroyOldestSession rs w in
  outcome r = Resolved tt /\
  (m = [] -> final r = w /\ unused r = rs /\ events r = []) /\
  (m <> [] ->
   exists k v,
     In (k, v) m /\
     (forall e, In e m -> lastUsedAt v <= lastUsedAt (snd e)) /\
     map snd (destroyCalls (events r)) = [session v] /\
     sessions (manager (final r)) = map_delete k m /\
     pooledKey k (final r) = None /\
     map_size (sessions (manager (final r))) = map_size m - 1).
Proof. exact (destroyOldestSession_run rs w). Qed.

End Destroying.

(** ** [cleanTextContent] and the splitter: what they return *)

Section TextResults.

Lemma singleSpaced_weaken (s : text) :
  forall b, singleSpaced b s = true -> singleSpaced false s = true.
Proof.
  destruct s as [|c r]; intros b H; [reflexivity|].
  simpl in *. destruct (isWhiteSpace c); [|exact H].
  apply andb_prop in H as [H1 H2]. apply andb_prop in H1 as [_ Hc].
  now rewrite Hc, H2.
Qed.

Lemma singleSpaced_only_spaces (s : text) :
  forall b, singleSpaced b s = true ->
            Forall (fun c => isWhiteSpace c = true -> c = SPACE) s.
Proof.
  induction s as [|c r IH]; intros b H; constructor.
  - simpl in H. intros E. rewrite E in H.
    apply andb_prop in H as [H _]. apply andb_prop in H as [_ H].
    now apply N.eqb_eq.
  - simpl in H. destruct (isWhiteSpace c); [|eauto].
    apply andb_prop in H as [_ H]. eauto.
Qed.

Lemma tidy_trim (s : text) : singleSpaced false s = true -> tidy (trim s) = true.
Proof.
  intros H. unfold tidy, trim.
  rewrite (singleSpaced_trimEnd _ _ (singleSpaced_trimStart s false false H)).
  rewrite (startsWithWhiteSpace_trimEnd _ (startsWithWhiteSpace_trimStart s)).
  now rewrite endsWithWhiteSpace_trimEnd.
Qed.

Lemma cleanTextContent_eq (t : text) :
  cleanTextContent t = trim (replaceWhiteSpace false t).
Proof.
  unfold cleanTextContent. f_equal. apply replaceNewlines_none.
  apply (singleSpaced_no_newline _ false), singleSpaced_replaceWhiteSpace.
Qed.

Lemma cleanTextContent_tidy (t : text) : tidy (cleanTextContent t) = true.
Proof.
  rewrite cleanTextContent_eq. apply tidy_trim, singleSpaced_replaceWhiteSpace.
Qed.

Lemma cleanTextContent_fixed (s : text) : tidy s = true -> cleanTextContent s = s.
Proof.
  unfold tidy. intros H.
  apply andb_prop in H as [H He]. apply andb_prop in H as [Hs Hb].
  apply negb_true_iff in He, Hb.
  rewrite cleanTextContent_eq, (replaceWhiteSpace_fixed s false Hs).
  unfold trim. now rewrite (trimStart_fixed s Hb), (trimEnd_fixed s He).
Qed.

(** X1.  [cleanTextContent] returns a text in which whitespace occurs
    only as single spaces between other characters: no line feed, tab or
    other whitespace character is left, and none at either end.  The
    second replacement, of three or more line feeds by two, never changes
    anything, as the first has already replaced every line feed. *)
Theorem cleanTextContent_leaves_single_spaces (t : text) :
  tidy (cleanTextContent t) = true /\
  Forall (fun c => isWhiteSpace c = true -> c = SPACE) (cleanTextContent t) /\
  Forall (fun c => c <> LINE_FEED) (cleanTextContent t) /\
  replaceNewlines 0 (replaceWhiteSpace false t) = replaceWhiteSpace false t.
Proof.
  pose proof (cleanTextContent_tidy t) as Ht.
  split; [exact Ht|].
  unfold tidy in Ht. apply andb_prop in Ht as [Ht _]. apply andb_prop in Ht as [Hs _].
  split; [|split].
  - exact (singleSpaced_only_spaces _ _ Hs).
  - exact (singleSpaced_no_newline _ _ Hs).
  - apply replaceNewlines_none.
    apply (singleSpaced_no_newline _ false), singleSpaced_replaceWhiteSpace.
Qed.

(** X2.  The texts [cleanTextContent] leaves as they are, are those with
    single spaces only, between other characters; so cleaning a cleaned
    text changes nothing. *)
Theorem cleanTextContent_fixed_points (t : text) :
  (cleanTextContent t = t <-> tidy t = true) /\
  cleanTextContent (cleanTextContent t) = cleanTextContent t.
Proof.
  split; [split|].
  - intros <-. apply cleanTextContent_tidy.
  - apply cleanTextContent_fixed.
  - apply cleanTextContent_fixed, cleanTextContent_tidy.
Qed.

(** X3.  [cleanTextContent] keeps every character that is not whitespace,
    in order, and adds none; the text it returns is never longer than the
    text it is given. *)
Theorem cleanTextContent_keeps_the_characters (t : text) :
  inked (cleanTextContent t) = inked t /\
  len (cleanTextContent t) <= len t.
Proof.
  rewrite cleanTextContent_eq. split.
  - unfold trim. now rewrite inked_trimEnd, inked_trimStart, inked_replaceWhiteSpace.
  - pose proof (len_trim (replaceWhiteSpace false t)).
    pose proof (len_replaceWhiteSpace t false). lia.
Qed.

(** X4.  A text longer than [maxChunkSize], split with
    [0 <= overlap <= maxChunkSize / 2]: the chunks are the trimmed
    stretches of the text that the loop cuts; the first stretch starts at
    0, each is at most [maxChunkSize] long, each next one starts [overlap]
    before the end of the one before, and the last ends at the end of the
    text.  So every code unit of the text lies in a stretch: no part of the
    text is left out. *)
Theorem splitIntoChunks_covers_the_text
        (fuel : nat) (t : text) (options : option ChunkOptions)
        (chunks : list text) :
  1 <= optMaxChunkSize options ->
  0 <= optOverlap options ->
  2 * optOverlap options <= optMaxChunkSize options ->
  optMaxChunkSize options < len t ->
  splitIntoChunks fuel t options = Some chunks ->
  let ws := splitWindows fuel t (optMaxChunkSize options) (optOverlap options) 0 in
  chunks = map (stretch t) ws /\
  chained (len t) (optMaxChunkSize options) (optOverlap options) 0 ws /\
  (forall i, 0 <= i < len t -> exists w, In w ws /\ fst w <= i < snd w).
Proof.
  intros HM Ho Hov Hlong H ws. unfold splitIntoChunks in H.
  destruct (Z.leb_spec (len t) (optMaxChunkSize options)); [lia|].
  assert (Hc : chained (len t) (optMaxChunkSize options) (optOverlap options) 0 ws).
  { eapply splitWindows_chained; eauto. lia. }
  split; [|split].
  - apply splitLoop_windows in H; [exact H|lia].
  - exact Hc.
  - intros i Hi. eapply chained_covers; eauto.
Qed.

Lemma splitLoop_stuck (t : text) (maxSize overlap : Z) (fuel : nat) :
  0 <= maxSize -> maxSize <= overlap -> maxSize < len t ->
  forall startIndex chunks,
    startIndex <= 0 ->
    splitLoop fuel t maxSize overlap startIndex chunks = None.
Proof.
  intros HM Ho Hlong. induction fuel as [|f IH]; intros s cs Hs; [reflexivity|].
  rewrite splitLoop_step by lia. apply IH.
  rewrite splitBody_cut by lia. cbn [snd].
  pose proof (len_nonneg t).
  assert (Hcut : cutOf t maxSize s <= s + maxSize).
  { unfold cutOf. cbv zeta.
    set (e := Z.min (s + maxSize) (len t)).
    pose proof (breakPointOf_range (substring t s e)) as Hb.
    destruct (len_window t maxSize s HM) as [Hl _]; [lia|]. fold e in Hl.
    destruct (Z.ltb_spec e (len t)); [|unfold e in *; lia].
    destruct (Z.ltb_spec maxSize (2 * breakPointOf (substring t s e)));
      unfold e in *; lia. }
  destruct (Z.ltb_spec (cutOf t maxSize s) (len t)); lia.
Qed.

(** Against C7 as stated.  A text of 700 code units, three and a half times
    a [maxChunkSize] of 200, split with an overlap of 200: the start index
    stays at 0, the loop never ends, and there is no plan whose chunks could
    be counted. *)
Lemma overlap_of_the_chunk_size_gives_no_plan :
  2 * len (letters 700) = 7 * optMaxChunkSize (chunkOptions 200 200) /\
  optOverlap (chunkOptions 200 200) = 200 /\
  ~ (exists fuel chunks,
        splitIntoChunks fuel (letters 700) (chunkOptions 200 200) = Some chunks).
Proof.
  split; [vm_compute; reflexivity|]. split; [reflexivity|].
  intros (fuel & chunks & H). unfold splitIntoChunks in H.
  destruct (Z.leb_spec (len (letters 700)) (optMaxChunkSize (chunkOptions 200 200)))
    as [Hle|_]; [vm_compute in Hle; apply Hle; reflexivity|].
  rewrite splitLoop_stuck in H;
    [discriminate|vm_compute; first [reflexivity|discriminate] ..].
Qed.

(** X5.  With an overlap that is not smaller than [maxChunkSize], the loop
    of [splitIntoChunks] never ends on a text longer than [maxChunkSize]:
    the start index never gets past 0, and the call returns nothing,
    however long it runs. *)
Theorem splitIntoChunks_never_returns
        (t : text) (options : option ChunkOptions) :
  0 <= optMaxChunkSize options ->
  optMaxChunkSize options <= optOverlap options ->
  optMaxChunkSize options < len t ->
  forall fuel, splitIntoChunks fuel t options = None.
Proof.
  intros HM Ho Hlong fuel. unfold splitIntoChunks.
  destruct (Z.leb_spec (len t) (optMaxChunkSize options)); [lia|].
  apply splitLoop_stuck; auto. lia.
Qed.

End TextResults.

(** ** Acquiring a session with no other call in flight *)

Section Acquiring.

(** No function changes the globals or the sessions whose [destroy()]
    throws. *)
Lemma exec_host_kept {A : Type} (p : prog A) :
  forall rs w,
    globals (final (exec p rs w)) = globals w /\
    faulty (final (exec p rs w)) = faulty w.
Proof.
  induction p; intros rs w; cbn [exec]; cbv zeta; cbn [final emit]; auto;
    match goal with
    | IH : forall _ _ _, _ |- _ => exact (IH _ _ _)
    | IH : forall _ _, _ |- _ => exact (IH _ _)
    end.
Qed.

Lemma Forall_tl {A : Type} (P : A -> Prop) (l : list A) :
  Forall P l -> Forall P (tl l).
Proof. destruct 1; [constructor|assumption]. Qed.

(** What is left of the replies is a rest of what was given. *)
Lemma exec_unused_Forall {A : Type} (P : reply -> Prop) (p : prog A) :
  forall rs w, Forall P rs -> Forall P (unused (exec p rs w)).
Proof.
  induction p; intros rs w Hrs; cbn [exec]; cbv zeta; cbn [unused emit]; auto;
    match goal with
    | IH : forall _ _ _, _ -> _ |- _ => apply IH; auto using Forall_tl
    | IH : forall _ _, _ -> _ |- _ => apply IH; auto using Forall_tl
    end.
Qed.

Lemma exec_rethrow {A : Type} (p : prog A) (rs : list reply) (w : World) :
  exec (tryCatch p (fun error => Throw error)) rs w = exec p rs w.
Proof.
  rewrite exec_tryCatch. unfold orElse.
  destruct (exec p rs w) as [[a|e] f u evs]; simpl; [reflexivity|].
  unfold emit; simpl. now rewrite app_nil_r.
Qed.

Lemma exec_bind_resolved {A B : Type} (p : prog A) (f : A -> prog B)
      (rs : list reply) (w : World) (a : A) :
  outcome (exec p rs w) = Resolved a ->
  exec (bind p f) rs w =
  emit (events (exec p rs w))
       (exec (f a) (unused (exec p rs w)) (final (exec p rs w))).
Proof. intros H. rewrite exec_bind. unfold andThen. now rewrite H. Qed.

Lemma createTimes_abortEvents (time : Z) (ss : list nat) :
  createTimes (abortEvents time ss) = [].
Proof. induction ss as [|s r IH]; simpl; auto. Qed.

Lemma nextReply_notAvailable (rs : list reply) :
  Forall notAvailable rs -> notAvailable (nextReply rs).
Proof. destruct 1; [discriminate|assumption]. Qed.

Lemma race_notAvailable (waited timeout : Z) (te : error) (r : reply) :
  notAvailable r -> race waited timeout te (availability r) <> Resolved available.
Proof. unfold race. destruct (waited <? timeout); [auto|discriminate]. Qed.

Lemma spaced_single (gap a : Z) : spaced gap [a] = true.
Proof. reflexivity. Qed.

Lemma spaced_app (gap : Z) (a b : list Z) :
  spaced gap a = true -> spaced gap b = true ->
  (forall x y, In x a -> In y b -> x + gap <= y) ->
  spaced gap (a ++ b) = true.
Proof.
  induction a as [|x [|x' r] IH]; intros Ha Hb H; [exact Hb| |].
  - destruct b as [|y b']; [reflexivity|].
    cbn [app]. rewrite spaced_cons, Hb, andb_true_r.
    apply Z.leb_le. apply H; now left.
  - rewrite spaced_cons in Ha. apply andb_prop in Ha as [H1 H2].
    change ((x :: x' :: r) ++ b) with (x :: (x' :: r) ++ b).
    change ((x' :: r) ++ b) with (x' :: r ++ b) at 1.
    rewrite spaced_cons, H1. cbn [andb].
    change (x' :: r ++ b) with ((x' :: r) ++ b).
    apply IH; auto. intros u v Hu Hv. apply H; [now right|assumption].
Qed.

Lemma spaced_weaken (gap gap' : Z) (l : list Z) :
  gap' <= gap -> spaced gap l = true -> spaced gap' l = true.
Proof.
  intros Hg. induction l as [|x [|x' r] IH]; intros H; try reflexivity.
  rewrite spaced_cons in *. apply andb_prop in H as [H1 H2].
  rewrite (IH H2), andb_true_r. apply Z.leb_le. apply Z.leb_le in H1. lia.
Qed.

(** One attempt of [createSummarizerWithRetry] or
    [createLanguageModelWithRetry]. *)
Lemma createAttempt_run (ty : SessionType) (o : option text)
      (rs : list reply) (w : World) :
  let r := exec (createAttempt ty o) rs w in
  manager (final r) = manager w /\
  clock w <= clock (final r) /\
  Forall (fun t => clock w <= t <= clock (final r)) (createTimes (events r)) /\
  (hasGlobal ty w = false ->
   r = rejected (apiName ty ++ str " API not available") rs w) /\
  (Forall notAvailable rs ->
   createTimes (events r) = [] /\ exists e, outcome r = Rejected e).
Proof.
  unfold createAttempt. cbv zeta. rewrite exec_bind. unfold andThen.
  cbn [inSelf exec outcome events final unused]. rewrite emit_nil.
  destruct (hasGlobal ty w) eqn:Eg; cbn [negb].
  - rewrite exec_bind. unfold andThen. cbn [exec]. cbv zeta.
    set (r1 := nextReply rs).
    pose proof (race_notAvailable (Z.max 0 (elapsed r1)) 5000
                  (str "Availability check timeout") r1) as Hrace.
    destruct (race (Z.max 0 (elapsed r1)) 5000 (str "Availability check timeout")
                   (availability r1)) as [a|e];
      cbn [settle exec outcome events final unused emit].
    + destruct a; cbn [exec settle outcome events final unused emit]; cbv zeta;
        try set (r2 := nextReply (tl rs));
        try destruct (race (Z.max 0 (elapsed r2)) 15000
                           (str "Session creation timeout") (created r2))
          as [h|e];
        cbn [settle exec outcome events final unused emit];
        rewrite ?app_nil_r, ?createTimes_app, ?createTimes_create,
          ?createTimes_abortEvents;
        cbn [manager clock pass app];
        (split; [reflexivity|]); (split; [lia|]);
        (split; [repeat (apply Forall_cons; [lia|]); apply Forall_nil|]);
        (split; [discriminate|]);
        intros Hall;
        first [ split; [reflexivity|eauto]
              | exfalso; apply Hrace;
                [now apply nextReply_notAvailable|reflexivity] ].
    + rewrite ?app_nil_r, ?createTimes_abortEvents. cbn [manager clock pass].
      split; [reflexivity|]. split; [lia|]. split; [constructor|].
      split; [discriminate|]. intros _. eauto.
  - cbn [exec outcome events final unused createTimes flat_map].
    split; [reflexivity|]. split; [lia|]. split; [constructor|].
    split; [reflexivity|]. intros _. eauto.
Qed.

Lemma spaced_short (gap : Z) (l : list Z) :
  (length l <= 1)%nat -> spaced gap l = true.
Proof. destruct l as [|a [|b r]]; simpl; auto; lia. Qed.

(** The [for] loop of the two functions, pass by pass. *)
Lemma createWithRetry_step (ty : SessionType) (o : option text) (left : nat)
      (rs : list reply) (w : World) :
  exec (createWithRetry ty o left) rs w =
  orElse (exec (createAttempt ty o) rs w)
    (fun error rs' w' =>
       match left with
       | O => rejected error rs' w'
       | S left' =>
           let r := nextReply rs' in
           let d := Z.max 2000 (elapsed r) in
           emit (abortEvents (clock w' + d) (aborts r))
                (exec (createWithRetry ty o left') (tl rs') (pass d (aborts r) w'))
       end).
Proof. destruct left; cbn [createWithRetry]; rewrite exec_tryCatch; reflexivity. Qed.

(** Creating a session leaves the manager as it is; the [create] calls of
    the attempts are 2000 ms or more apart. *)
Lemma createWithRetry_run (ty : SessionType) (o : option text) (left : nat) :
  forall rs w,
    let r := exec (createWithRetry ty o left) rs w in
    manager (final r) = manager w /\
    clock w <= clock (final r) /\
    Forall (fun t => clock w <= t <= clock (final r)) (createTimes (events r)) /\
    spaced 2000 (createTimes (events r)) = true.
Proof.
  induction left as [|n IH]; intros rs w; cbv zeta;
    rewrite createWithRetry_step; unfold orElse;
    destruct (createAttempt_run ty o rs w) as (Hm & Hc & Ht & _ & _);
    pose proof (createAttempt_once ty o rs w) as Hone;
    set (r1 := exec (createAttempt ty o) rs w) in *;
    destruct (outcome r1) as [h|e].
  - auto using spaced_short.
  - cbn [outcome final unused events emit rejected]. rewrite app_nil_r.
    auto using spaced_short.
  - auto using spaced_short.
  - cbv zeta. cbn [outcome final unused events emit].
    set (r := nextReply (unused r1)).
    set (d := Z.max 2000 (elapsed r)).
    destruct (IH (tl (unused r1)) (pass d (aborts r) (final r1)))
      as (Hm2 & Hc2 & Ht2 & Hs2).
    set (r2 := exec (createWithRetry ty o n) _ _) in *.
    cbn [manager clock pass] in *.
    rewrite !createTimes_app, createTimes_abortEvents. cbn [app].
    split; [congruence|]. split; [lia|]. split.
    + apply Forall_app. split; eapply Forall_impl; eauto; cbv beta; intros; lia.
    + apply spaced_app; auto using spaced_short.
      intros x y Hx Hy. rewrite Forall_forall in Ht, Ht2.
      specialize (Ht x Hx). specialize (Ht2 y Hy). lia.
Qed.

(** Without the capability global no attempt reaches the host. *)
Lemma createWithRetry_no_global (ty : SessionType) (o : option text) (left : nat) :
  forall rs w,
    hasGlobal ty w = false ->
    let r := exec (createWithRetry ty o left) rs w in
    outcome r = Rejected (apiName ty ++ str " API not available") /\
    hostCalls (events r) = [] /\
    clock w + 2000 * Z.of_nat left <= clock (final r) /\
    manager (final r) = manager w.
Proof.
  induction left as [|n IH]; intros rs w Hg; cbv zeta;
    rewrite createWithRetry_step; unfold orElse;
    destruct (createAttempt_run ty o rs w) as (_ & _ & _ & Hr & _);
    rewrite (Hr Hg); cbn [outcome final unused events emit rejected app].
  - repeat split. lia.
  - cbv zeta.
    set (r := nextReply rs).
    set (d := Z.max 2000 (elapsed r)).
    destruct (IH (tl rs) (pass d (aborts r) w) Hg) as (Ho & Hh & Hc & Hm).
    cbn [outcome final unused events emit].
    rewrite hostCalls_app, hostCalls_abortEvents, Hh.
    cbn [clock pass manager] in Hc, Hm. repeat split; auto. lia.
Qed.

(** While the host does not report the model as available, [create] is
    not called, and the attempts fail. *)
Lemma createWithRetry_not_available (ty : SessionType) (o : option text)
      (left : nat) :
  forall rs w,
    Forall notAvailable rs ->
    let r := exec (createWithRetry ty o left) rs w in
    createTimes (events r) = [] /\ exists e, outcome r = Rejected e.
Proof.
  induction left as [|n IH]; intros rs w Hrs; cbv zeta;
    rewrite createWithRetry_step; unfold orElse;
    destruct (createAttempt_run ty o rs w) as (_ & _ & _ & _ & Hr);
    destruct (Hr Hrs) as (Ht & e & He);
    pose proof (exec_unused_Forall notAvailable (createAttempt ty o) rs w Hrs) as Hu;
    set (r1 := exec (createAttempt ty o) rs w) in *;
    rewrite He; cbn [outcome final unused events emit rejected].
  - rewrite app_nil_r. eauto.
  - cbv zeta.
    destruct (IH (tl (unused r1))
                 (pass (Z.max 2000 (elapsed (nextReply (unused r1))))
                       (aborts (nextReply (unused r1))) (final r1))
                 (Forall_tl _ _ Hu)) as (Ht2 & e2 & He2).
    cbn [outcome final unused events emit].
    rewrite !createTimes_app, createTimes_abortEvents, Ht, Ht2. eauto.
Qed.

(** *** The sweep and the eviction before a creation *)

Lemma cleanupLoop_frame (keys : list text) :
  forall rs w,
    let r := exec (cleanupLoop keys) rs w in
    outcome r = Resolved tt /\
    lastCreationTime (manager (final r)) = lastCreationTime (manager w) /\
    clock w <= clock (final r).
Proof.
  induction keys as [|k more IH]; intros rs w; cbv zeta.
  - simpl. repeat split. lia.
  - rewrite exec_cleanupLoop_step. cbv zeta. cbn [outcome final emit].
    destruct (IH (tl rs)
                 (withManager (withSessions (map_delete k))
                    (pass (Z.max 200 (elapsed (nextReply rs)))
                          (aborts (nextReply rs)) w)))
      as (Ho & Hl & Hc).
    cbn [manager withManager withSessions lastCreationTime clock pass] in *.
    repeat split; auto. lia.
Qed.

Lemma poolOk_filter (f : text * ManagedSession -> bool) (m : SessionMap) :
  poolOk m -> poolOk (filter f m).
Proof.
  intros (Hd & Hk & Hs). repeat split.
  - now apply distinctKeys_filter.
  - rewrite Forall_forall in *. intros e He. apply filter_In in He as [He _]. auto.
  - unfold map_size in *. pose proof (filter_length_le f m). lia.
Qed.

Lemma map_get_filter_none (f : text * ManagedSession -> bool) (key : text)
      (m : SessionMap) :
  map_get key m = None -> map_get key (filter f m) = None.
Proof.
  intros H. apply map_get_none. intros Hin. apply (map_get_not_in _ _ H).
  apply in_map_iff in Hin as (e & He & Hin). apply filter_In in Hin as [Hin _].
  apply in_map_iff. eauto.
Qed.

Lemma sessionKeyOf_nonempty (config : SessionConfig) : sessionKeyOf config <> [].
Proof. unfold sessionKeyOf. destruct (cfg_type config); discriminate. Qed.

Lemma poolOk_set (key : text) (v : ManagedSession) (m : SessionMap) :
  poolOk m -> key <> [] ->
  (map_get key m = None -> map_size m < MAX_SESSIONS) ->
  poolOk (map_set key v m).
Proof.
  intros (Hd & Hk & Hs) Hne Hroom. repeat split.
  - now apply distinctKeys_set.
  - apply Forall_forall. intros e He.
    assert (Hin : In (fst e) (map fst (map_set key v m))) by now apply in_map.
    destruct (map_get key m) as [v'|] eqn:E.
    + rewrite (map_set_keys_present key v v' m E) in Hin.
      apply in_map_iff in Hin as (e' & <- & Hin).
      rewrite Forall_forall in Hk. auto.
    + rewrite (map_set_keys_absent key v m E) in Hin.
      apply in_app_or in Hin as [Hin|[<-|[]]]; [|assumption].
      apply in_map_iff in Hin as (e' & <- & Hin).
      rewrite Forall_forall in Hk. auto.
  - rewrite map_size_set. destruct (map_get key m); [assumption|].
    specialize (Hroom eq_refl). lia.
Qed.

(** [await this.cleanup()] *)
Lemma sweep_step (rs : list reply) (w : World) :
  let r := exec (await cleanup) rs w in
  outcome r = Resolved tt /\
  lastCreationTime (manager (final r)) = lastCreationTime (manager w) /\
  clock w <= clock (final r) /\
  Forall notCreate (events r) /\
  (poolOk (sessions (manager w)) ->
   poolOk (sessions (manager (final r))) /\
   forall k, map_get k (sessions (manager w)) = None ->
             map_get k (sessions (manager (final r))) = None).
Proof.
  cbv zeta. rewrite exec_await.
  assert (Hf : let r := exec cleanup rs w in
               outcome r = Resolved tt /\
               lastCreationTime (manager (final r)) = lastCreationTime (manager w) /\
               clock w <= clock (final r)).
  { unfold cleanup. rewrite exec_dateNow, exec_readManager.
    apply cleanupLoop_frame. }
  destruct Hf as (Ho & Hl & Hc).
  split; [exact Ho|]. split; [exact Hl|]. split; [exact Hc|]. split.
  { apply cleanup_emits; auto using notCreate_abort, notCreate_destroy. }
  intros Hp. destruct (cleanup_run rs w (proj1 Hp)) as (_ & Hs & _).
  rewrite Hs. split; [now apply poolOk_filter|].
  intros k Hk. now apply map_get_filter_none.
Qed.

(** [if (this.sessions.size >= this.MAX_SESSIONS) await this.destroyOldestSession()] *)
Lemma capacity_step (rs : list reply) (w : World) :
  let r := exec (if MAX_SESSIONS <=? map_size (sessions (manager w))
                 then await destroyOldestSession else Ret tt) rs w in
  outcome r = Resolved tt /\
  lastCreationTime (manager (final r)) = lastCreationTime (manager w) /\
  clock w <= clock (final r) /\
  Forall notCreate (events r) /\
  (poolOk (sessions (manager w)) ->
   poolOk (sessions (manager (final r))) /\
   map_size (sessions (manager (final r))) < MAX_SESSIONS /\
   forall k, map_get k (sessions (manager w)) = None ->
             map_get k (sessions (manager (final r))) = None).
Proof.
  cbv zeta.
  destruct (Z.leb_spec MAX_SESSIONS (map_size (sessions (manager w)))) as [Hfull|Hroom].
  - rewrite exec_await.
    assert (Hf : let r := exec destroyOldestSession rs w in
                 outcome r = Resolved tt /\
                 lastCreationTime (manager (final r)) = lastCreationTime (manager w) /\
                 clock w <= clock (final r)).
    { unfold destroyOldestSession. rewrite exec_readManager. cbv zeta.
      destruct (truthyKey _); [destruct (oldestKeyOf _)|];
        rewrite ?exec_destroyAndDelete;
        cbn [exec outcome final manager withManager withSessions
             lastCreationTime clock pass];
        repeat split; lia. }
    destruct Hf as (Ho & Hl & Hc).
    split; [exact Ho|]. split; [exact Hl|]. split; [exact Hc|]. split.
    { apply destroyOldestSession_emits; auto using notCreate_abort, notCreate_destroy. }
    intros (Hd & Hk & Hs).
    destruct (destroyOldestSession_run rs w Hd Hk) as (_ & _ & Hev).
    destruct Hev as (k & v & Hin & _ & _ & Hdel & _ & Hsize).
    { intros E. rewrite E in Hfull. unfold MAX_SESSIONS, map_size in Hfull.
      simpl in Hfull. lia. }
    rewrite Hdel, map_delete_filter by assumption.
    split; [|split].
    + apply poolOk_filter. repeat split; assumption.
    + rewrite <- map_delete_filter, <- Hdel by assumption. lia.
    + intros k' Hk'. now apply map_get_filter_none.
  - cbn [exec outcome final events].
    split; [reflexivity|]. split; [reflexivity|]. split; [lia|].
    split; [constructor|]. intros Hp. auto.
Qed.

(** *** Which sessions the sweep and the eviction destroy *)

Lemma destroyCalls_notDestroy (evs : list Event) :
  Forall notDestroy evs -> destroyCalls evs = [].
Proof.
  induction 1 as [|e r He _ IH]; [reflexivity|].
  destruct e; simpl; auto; discriminate.
Qed.

Lemma incl_map_delete (key : text) (m : SessionMap) : incl (map_delete key m) m.
Proof.
  induction m as [|[k v] r IH]; simpl; [apply incl_refl|].
  destruct (text_eqb k key); [apply incl_tl, incl_refl|].
  intros e [<-|He]; [now left|right; now apply IH].
Qed.

Lemma handlesOf_incl (m m' : SessionMap) :
  incl m m' -> incl (handlesOf m) (handlesOf m').
Proof. apply incl_map. Qed.

Lemma destroyAndDelete_destroys (key : text) (rs : list reply) (w : World) :
  let r := exec (destroyAndDelete key (map_get key (sessions (manager w)))) rs w in
  incl (map snd (destroyCalls (events r))) (handlesOf (sessions (manager w))) /\
  incl (sessions (manager (final r))) (sessions (manager w)).
Proof.
  cbv zeta. rewrite exec_destroyAndDelete. cbn [events final].
  rewrite destroyCalls_app, destroyCalls_abortEvents.
  cbn [app manager withManager withSessions sessions pass]. split.
  - destruct (map_get key (sessions (manager w))) as [v|] eqn:E;
      [|intros x []].
    intros x [<-|[]]. cbn [snd]. unfold handlesOf.
    apply in_map_iff. exists (key, v). split; [reflexivity|].
    now apply map_get_some_in.
  - apply incl_map_delete.
Qed.

Lemma cleanupLoop_destroys (keys : list text) :
  forall rs w,
    let r := exec (cleanupLoop keys) rs w in
    incl (map snd (destroyCalls (events r))) (handlesOf (sessions (manager w))) /\
    incl (sessions (manager (final r))) (sessions (manager w)).
Proof.
  induction keys as [|k more IH]; intros rs w; cbv zeta.
  - simpl. split; [intros x []|apply incl_refl].
  - cbn [cleanupLoop]. rewrite exec_readManager, exec_bind. unfold andThen.
    destruct (destroyAndDelete_destroys k rs w) as (Hd & Hs).
    pose proof (exec_destroyAndDelete k (map_get k (sessions (manager w))) rs w) as E.
    cbv zeta in E.
    set (r1 := exec (destroyAndDelete k (map_get k (sessions (manager w)))) rs w) in *.
    assert (Ho : outcome r1 = Resolved tt) by now rewrite E.
    rewrite Ho.
    destruct (IH (unused r1) (final r1)) as (Hd2 & Hs2).
    cbn [events final emit]. rewrite destroyCalls_app, map_app. split.
    + apply incl_app; [exact Hd|].
      eapply incl_tran; [exact Hd2|]. now apply handlesOf_incl.
    + eapply incl_tran; eassumption.
Qed.

Lemma sweep_destroys (rs : list reply) (w : World) :
  let r := exec (await cleanup) rs w in
  incl (map snd (destroyCalls (events r))) (handlesOf (sessions (manager w))) /\
  incl (sessions (manager (final r))) (sessions (manager w)).
Proof.
  cbv zeta. rewrite exec_await. unfold cleanup.
  rewrite exec_dateNow, exec_readManager. apply cleanupLoop_destroys.
Qed.

Lemma capacity_destroys (rs : list reply) (w : World) :
  let r := exec (if MAX_SESSIONS <=? map_size (sessions (manager w))
                 then await destroyOldestSession else Ret tt) rs w in
  incl (map snd (destroyCalls (events r))) (handlesOf (sessions (manager w))) /\
  incl (sessions (manager (final r))) (sessions (manager w)).
Proof.
  cbv zeta. destruct (MAX_SESSIONS <=? map_size (sessions (manager w))).
  - rewrite exec_await. unfold destroyOldestSession.
    rewrite exec_readManager. cbv zeta.
    destruct (truthyKey _); [destruct (oldestKeyOf _) as [k|]|];
      try apply destroyAndDelete_destroys;
      simpl; (split; [intros x []|apply incl_refl]).
  - simpl. split; [intros x []|apply incl_refl].
Qed.

(** *** What [getSession] does after a miss *)

(** Up to the [try] block: the sweep, the eviction and the wait for the
    creation interval. *)
Lemma createAndStore_prefix (config : SessionConfig) (key : text)
      (rs : list reply) (w : World) :
  exists evs rs3 w3,
    exec (createAndStore config key) rs w =
    emit evs (exec (createAndRecord config key) rs3 w3) /\
    Forall notCreate evs /\
    incl (map snd (destroyCalls evs)) (handlesOf (sessions (manager w))) /\
    lastCreationTime (manager w3) = lastCreationTime (manager w) /\
    lastCreationTime (manager w) + MIN_CREATION_INTERVAL <= clock w3 /\
    clock w <= clock w3 /\
    globals w3 = globals w /\
    (forall P : reply -> Prop, Forall P rs -> Forall P rs3) /\
    (poolOk (sessions (manager w)) ->
     poolOk (sessions (manager w3)) /\
     map_size (sessions (manager w3)) < MAX_SESSIONS /\
     forall k, map_get k (sessions (manager w)) = None ->
               map_get k (sessions (manager w3)) = None).
Proof.
  unfold createAndStore.
  destruct (sweep_step rs w) as (Ho1 & Hl1 & Hc1 & He1 & Hp1).
  destruct (sweep_destroys rs w) as (Hd1 & Hi1).
  rewrite (exec_bind_resolved _ _ rs w tt Ho1), exec_readManager.
  pose proof (proj1 (exec_host_kept (await cleanup) rs w)) as Hg1.
  pose proof (fun P => exec_unused_Forall P (await cleanup) rs w) as Hu1.
  set (r1 := exec (await cleanup) rs w) in *.
  destruct (capacity_step (unused r1) (final r1)) as (Ho2 & Hl2 & Hc2 & He2 & Hp2).
  destruct (capacity_destroys (unused r1) (final r1)) as (Hd2 & _).
  assert (Hd : incl (map snd (destroyCalls (events r1)) ++
                     map snd (destroyCalls
                                (events
                                   (exec (if MAX_SESSIONS <=?
                                             map_size (sessions (manager (final r1)))
                                          then await destroyOldestSession
                                          else Ret tt)
                                         (unused r1) (final r1)))))
                    (handlesOf (sessions (manager w)))).
  { apply incl_app; [exact Hd1|].
    eapply incl_tran; [exact Hd2|]. now apply handlesOf_incl. }
  rewrite (exec_bind_resolved _ _ (unused r1) (final r1) tt Ho2).
  pose proof (proj1 (exec_host_kept
                (if MAX_SESSIONS <=? map_size (sessions (manager (final r1)))
                 then await destroyOldestSession else Ret tt)
                (unused r1) (final r1))) as Hg2.
  pose proof (fun P => exec_unused_Forall P
                (if MAX_SESSIONS <=? map_size (sessions (manager (final r1)))
                 then await destroyOldestSession else Ret tt)
                (unused r1) (final r1)) as Hu2.
  set (r2 := exec (if MAX_SESSIONS <=? map_size (sessions (manager (final r1)))
                   then await destroyOldestSession else Ret tt)
                  (unused r1) (final r1)) in *.
  rewrite exec_dateNow, exec_readManager. cbv zeta.
  destruct (Z.ltb_spec (clock (final r2) - lastCreationTime (manager (final r2)))
                       MIN_CREATION_INTERVAL) as [Hsoon|Hlate].
  - rewrite exec_sleep. cbv zeta.
    set (r := nextReply (unused r2)).
    set (d := Z.max (Z.max 0 (MIN_CREATION_INTERVAL -
                               (clock (final r2) - lastCreationTime (manager (final r2)))))
                    (elapsed r)).
    exists (events r1 ++ events r2 ++ abortEvents (clock (final r2) + d) (aborts r)),
           (tl (unused r2)), (pass d (aborts r) (final r2)).
    rewrite !emit_emit, <- app_assoc.
    split; [reflexivity|]. cbn [manager clock globals pass].
    split; [|split; [|split; [congruence|split; [lia|split; [lia|split; [congruence|split]]]]]].
    + repeat (apply Forall_app; split); auto.
      apply Forall_abortEvents. apply notCreate_abort.
    + rewrite !destroyCalls_app, destroyCalls_abortEvents, app_nil_r, map_app.
      exact Hd.
    + intros P HP. apply Forall_tl. auto.
    + intros Hp. destruct (Hp1 Hp) as (Hq1 & Hn1).
      destruct (Hp2 Hq1) as (Hq2 & Hs2 & Hn2). auto.
  - exists (events r1 ++ events r2), (unused r2), (final r2).
    rewrite !emit_emit.
    split; [reflexivity|].
    split; [|split; [|split; [congruence|split; [lia|split; [lia|split; [congruence|split]]]]]].
    + apply Forall_app; split; auto.
    + rewrite destroyCalls_app, map_app. exact Hd.
    + intros P HP. auto.
    + intros Hp. destruct (Hp1 Hp) as (Hq1 & Hn1).
      destruct (Hp2 Hq1) as (Hq2 & Hs2 & Hn2). auto.
Qed.

Lemma createSessionInternal_exec (config : SessionConfig) (rs : list reply)
      (w : World) :
  exec (await (createSessionInternal config)) rs w =
  exec (createWithRetry (cfg_type config) (cfg_options config) 2) rs w.
Proof.
  unfold createSessionInternal, createSummarizerWithRetry,
    createLanguageModelWithRetry.
  destruct (cfg_type config); now rewrite !exec_await.
Qed.

(** The [try] block: the creation and the bookkeeping. *)
Lemma createAndRecord_run (config : SessionConfig) (key : text)
      (rs : list reply) (w : World) :
  let r := exec (createWithRetry (cfg_type config) (cfg_options config) 2) rs w in
  exec (createAndRecord config key) rs w =
  {| outcome := outcome r;
     final :=
       match outcome r with
       | Resolved h =>
           withManager
             (withSessions (map_set key (newRecord config h (clock (final r)))))
             (withManager (withLastCreationTime (clock (final r))) (final r))
       | Rejected _ => final r
       end;
     unused := unused r;
     events := events r |}.
Proof.
  cbv zeta. unfold createAndRecord.
  rewrite exec_rethrow, exec_bind, createSessionInternal_exec. unfold andThen.
  destruct (outcome (exec (createWithRetry _ _ 2) rs w)) as [h|e];
    [|reflexivity].
  cbn [dateNow modifyManager bind exec outcome final unused events].
  unfold emit. cbn [outcome final unused events]. now rewrite app_nil_r.
Qed.

Lemma getSession_miss_exec (config : SessionConfig) (rs : list reply) (w : World) :
  pooled config w = None ->
  exec (getSession config) rs w =
  exec (createAndStore config (sessionKeyOf config)) rs w.
Proof.
  unfold pooled, getSession. intros H. cbv zeta.
  now rewrite exec_readManager, H.
Qed.

(** When [getSession] calls [create], and what it leaves in
    [lastCreationTime]. *)
Lemma getSession_times (config : SessionConfig) (rs : list reply) (w : World) :
  let r := exec (getSession config) rs w in
  let last := lastCreationTime (manager w) in
  let last' := lastCreationTime (manager (final r)) in
  Forall (fun t => last + MIN_CREATION_INTERVAL <= t) (createTimes (events r)) /\
  spaced 2000 (createTimes (events r)) = true /\
  match outcome r with
  | Resolved _ =>
      Forall (fun t => t <= last') (createTimes (events r)) /\ last <= last'
  | Rejected _ => last' = last
  end.
Proof.
  cbv zeta. destruct (pooled config w) as [existing|] eqn:E.
  - rewrite (getSession_hit config existing rs w E).
    cbn [outcome events final createTimes flat_map manager withManager
         withSessions lastCreationTime].
    repeat split; try constructor. lia.
  - rewrite (getSession_miss_exec config rs w E).
    destruct (createAndStore_prefix config (sessionKeyOf config) rs w)
      as (evs & rs3 & w3 & -> & Hevs & _ & Hl & Hwait & _).
    rewrite createAndRecord_run. cbv zeta.
    destruct (createWithRetry_run (cfg_type config) (cfg_options config) 2 rs3 w3)
      as (Hm & Hc & Ht & Hs).
    set (r4 := exec (createWithRetry _ _ 2) rs3 w3) in *.
    cbn [outcome events final emit].
    rewrite createTimes_app, (createTimes_notCreate _ Hevs). cbn [app].
    split; [|split; [exact Hs|]].
    + eapply Forall_impl; [|exact Ht]. cbv beta. intros t Ht'. lia.
    + destruct (outcome r4) as [h|e].
      * cbn [manager withManager withSessions withLastCreationTime lastCreationTime].
        split; [|unfold MIN_CREATION_INTERVAL in Hwait; lia].
        eapply Forall_impl; [|exact Ht]. cbv beta. intros t Ht'. lia.
      * now rewrite Hm.
Qed.

(** What [getSession] leaves in the pool. *)
Lemma getSession_poolOk (config : SessionConfig) (rs : list reply) (w : World) :
  poolOk (sessions (manager w)) ->
  poolOk (sessions (manager (final (exec (getSession config) rs w)))).
Proof.
  intros Hp. destruct (pooled config w) as [existing|] eqn:E.
  - rewrite (getSession_hit config existing rs w E).
    cbn [final manager withManager withSessions sessions].
    unfold pooled in E.
    assert (H1 : poolOk (updateSession (sessionKeyOf config)
                           (setLastUsedAt (clock w)) (sessions (manager w)))).
    { unfold updateSession. rewrite E.
      apply poolOk_set; auto using sessionKeyOf_nonempty. congruence. }
    unfold updateSession at 1.
    rewrite (map_get_update _ _ _ _ E).
    apply poolOk_set; auto using sessionKeyOf_nonempty.
    rewrite (map_get_update _ _ _ _ E). discriminate.
  - rewrite (getSession_miss_exec config rs w E).
    destruct (createAndStore_prefix config (sessionKeyOf config) rs w)
      as (evs & rs3 & w3 & -> & _ & _ & _ & _ & _ & _ & _ & Hpool).
    destruct (Hpool Hp) as (Hp3 & Hs3 & _).
    rewrite createAndRecord_run. cbv zeta.
    destruct (createWithRetry_run (cfg_type config) (cfg_options config) 2 rs3 w3)
      as (Hm & _).
    set (r4 := exec (createWithRetry _ _ 2) rs3 w3) in *.
    cbn [final emit]. destruct (outcome r4) as [h|e].
    + cbn [manager withManager withSessions withLastCreationTime sessions].
      rewrite Hm. apply poolOk_set; auto using sessionKeyOf_nonempty.
    + now rewrite Hm.
Qed.

(** X11.  An acquire that finds no session for its config, run with no
    other call in flight: if it returns a session, that session is stored
    under the config's key as used once, created and last used at the time
    of the return, which is also the new [lastCreationTime]; if it rejects,
    the config still has no session and [lastCreationTime] is as it
    was. *)
Theorem getSession_miss_records_the_creation
        (config : SessionConfig) (rs : list reply) (w : World) :
  poolOk (sessions (manager w)) ->
  pooled config w = None ->
  let r := exec (getSession config) rs w in
  match outcome r with
  | Resolved h =>
      pooled config (final r) = Some (newRecord config h (clock (final r))) /\
      lastCreationTime (manager (final r)) = clock (final r)
  | Rejected _ =>
      pooled config (final r) = None /\
      lastCreationTime (manager (final r)) = lastCreationTime (manager w)
  end.
Proof.
  intros Hp E. cbv zeta. rewrite (getSession_miss_exec config rs w E).
  destruct (createAndStore_prefix config (sessionKeyOf config) rs w)
    as (evs & rs3 & w3 & -> & _ & _ & Hl & _ & _ & _ & _ & Hpool).
  destruct (Hpool Hp) as (_ & _ & Hnone).
  rewrite createAndRecord_run. cbv zeta.
  destruct (createWithRetry_run (cfg_type config) (cfg_options config) 2 rs3 w3)
    as (Hm & _).
  set (r4 := exec (createWithRetry _ _ 2) rs3 w3) in *.
  cbn [outcome final emit]. unfold pooled in *.
  destruct (outcome r4) as [h|e].
  - cbn [manager withManager withSessions withLastCreationTime sessions
         lastCreationTime clock].
    split; [apply map_get_set_same|reflexivity].
  - rewrite Hm. split; [now apply Hnone|exact Hl].
Qed.

(** X12.  An acquire run with no other call in flight calls [create] no
    sooner than [MIN_CREATION_INTERVAL] after [lastCreationTime], at most
    three times, and 2000 ms or more apart.  If it returns, no [create] call
    is later than the [lastCreationTime] it leaves; if it rejects, it leaves
    [lastCreationTime] as it was, whatever [create] calls it has made. *)
Theorem getSession_waits_for_the_creation_interval
        (config : SessionConfig) (rs : list reply) (w : World) :
  let r := exec (getSession config) rs w in
  let times := createTimes (events r) in
  Forall (fun t => lastCreationTime (manager w) + MIN_CREATION_INTERVAL <= t) times /\
  spaced 2000 times = true /\
  (length times <= 3)%nat /\
  (forall h, outcome r = Resolved h ->
             Forall (fun t => t <= lastCreationTime (manager (final r))) times) /\
  (forall e, outcome r = Rejected e ->
             lastCreationTime (manager (final r)) = lastCreationTime (manager w)).
Proof.
  cbv zeta. destruct (getSession_times config rs w) as (H1 & H2 & H3).
  split; [exact H1|]. split; [exact H2|].
  split; [apply getSession_creates_at_most_three|].
  split; intros x Hx; rewrite Hx in H3; tauto.
Qed.

(** *** Acquires awaited one after the other *)

Lemma exec_map_ret {A B : Type} (p : prog A) (g : A -> B) (rs : list reply)
      (w : World) :
  let r := exec p rs w in
  exec (bind p (fun x => Ret (g x))) rs w =
  {| outcome := match outcome r with
                | Resolved a => Resolved (g a)
                | Rejected e => Rejected e
                end;
     final := final r; unused := unused r; events := events r |}.
Proof.
  cbv zeta. rewrite exec_bind. unfold andThen.
  destruct (outcome (exec p rs w)); [|reflexivity].
  cbn [exec outcome final unused events]. unfold emit.
  cbn [outcome final unused events]. now rewrite app_nil_r.
Qed.

Lemma exec_acquireEach_cons (config : SessionConfig) (more : list SessionConfig)
      (rs : list reply) (w : World) :
  let r1 := exec (getSession config) rs w in
  let r2 := exec (acquireEach more) (unused r1) (final r1) in
  final (exec (acquireEach (config :: more)) rs w) =
    match outcome r1 with Resolved _ => final r2 | Rejected _ => final r1 end /\
  events (exec (acquireEach (config :: more)) rs w) =
    match outcome r1 with
    | Resolved _ => events r1 ++ events r2
    | Rejected _ => events r1
    end.
Proof.
  cbv zeta. cbn [acquireEach]. rewrite exec_bind, exec_await. unfold andThen.
  destruct (outcome (exec (getSession config) rs w)) as [h|e];
    [|split; reflexivity].
  rewrite exec_map_ret. split; reflexivity.
Qed.

(** X13.  Acquires that are awaited one after the other keep the pool
    within [MAX_SESSIONS], each key once, whatever the host answers and
    whether they return or reject. *)
Theorem acquires_in_sequence_stay_within_capacity (configs : list SessionConfig) :
  forall rs w,
    poolOk (sessions (manager w)) ->
    let m := sessions (manager (final (exec (acquireEach configs) rs w))) in
    map_size m <= MAX_SESSIONS /\ poolOk m.
Proof.
  assert (H : forall rs w,
             poolOk (sessions (manager w)) ->
             poolOk (sessions (manager (final (exec (acquireEach configs) rs w))))).
  { induction configs as [|c more IH]; intros rs w Hp; [exact Hp|].
    rewrite (proj1 (exec_acquireEach_cons c more rs w)).
    pose proof (getSession_poolOk c rs w Hp) as H1.
    destruct (outcome (exec (getSession c) rs w)); auto. }
  intros rs w Hp. cbv zeta. split; [apply H, Hp|apply H, Hp].
Qed.

Lemma acquireEach_spaced (configs : list SessionConfig) :
  forall rs w,
    let times := createTimes (events (exec (acquireEach configs) rs w)) in
    spaced MIN_CREATION_INTERVAL times = true /\
    Forall (fun t => lastCreationTime (manager w) + MIN_CREATION_INTERVAL <= t) times.
Proof.
  induction configs as [|c more IH]; intros rs w; cbv zeta.
  - simpl. split; [reflexivity|constructor].
  - rewrite (proj2 (exec_acquireEach_cons c more rs w)).
    destruct (getSession_times c rs w) as (H1 & H2 & H3).
    apply (spaced_weaken 2000 MIN_CREATION_INTERVAL) in H2;
      [|unfold MIN_CREATION_INTERVAL; lia].
    set (r1 := exec (getSession c) rs w) in *.
    destruct (outcome r1) as [h|e]; [|auto].
    destruct H3 as (H3 & H4).
    destruct (IH (unused r1) (final r1)) as (H5 & H6).
    rewrite createTimes_app. split.
    + apply spaced_app; auto. intros x y Hx Hy.
      rewrite Forall_forall in H3, H6.
      specialize (H3 x Hx). specialize (H6 y Hy). lia.
    + apply Forall_app. split; [exact H1|].
      eapply Forall_impl; [|exact H6]. cbv beta. intros t Ht. lia.
Qed.

(** An acquire whose rejection is caught. *)
Lemma exec_swallow {A : Type} (p : prog A) (rs : list reply) (w : World) :
  let r := exec p rs w in
  exec (tryCatch (_ <- await p ;; Ret tt) (fun _ => Ret tt)) rs w =
  {| outcome := Resolved tt; final := final r; unused := unused r;
     events := events r |}.
Proof.
  cbv zeta. rewrite exec_tryCatch, exec_bind, exec_await.
  unfold andThen, orElse.
  destruct (exec p rs w) as [[a|e] f u evs]; simpl; unfold emit; simpl;
    now rewrite app_nil_r.
Qed.

Lemma exec_acquireAnyway_cons (config : SessionConfig) (more : list SessionConfig)
      (rs : list reply) (w : World) :
  let r1 := exec (getSession config) rs w in
  events (exec (acquireAnyway (config :: more)) rs w) =
  events r1 ++ events (exec (acquireAnyway more) (unused r1) (final r1)).
Proof.
  cbv zeta. cbn [acquireAnyway].
  rewrite exec_bind, exec_swallow. reflexivity.
Qed.

(** Whatever the outcomes of the acquires, no [create] call comes sooner
    than the creation interval after the [lastCreationTime] they start
    with. *)
Lemma acquireAnyway_waits (configs : list SessionConfig) :
  forall rs w,
    Forall (fun t => lastCreationTime (manager w) + MIN_CREATION_INTERVAL <= t)
           (createTimes (events (exec (acquireAnyway configs) rs w))).
Proof.
  induction configs as [|c more IH]; intros rs w; [constructor|].
  rewrite exec_acquireAnyway_cons. cbv zeta. rewrite createTimes_app.
  destruct (getSession_times c rs w) as (H1 & _ & H3).
  specialize (IH (unused (exec (getSession c) rs w))
                 (final (exec (getSession c) rs w))).
  apply Forall_app. split; [exact H1|].
  eapply Forall_impl; [|exact IH]. cbv beta. intros t Ht.
  destruct (outcome (exec (getSession c) rs w)); [destruct H3|]; lia.
Qed.

(** X14.  Acquires awaited one after the other, in a sequence that ends at
    the first rejection, call [create] at least [MIN_CREATION_INTERVAL]
    apart, and the first of the calls at least that long after the
    [lastCreationTime] they start with.  For a caller that goes on after a
    rejection: every [create] call of the acquires that follow an acquire
    which has returned a session comes at least [MIN_CREATION_INTERVAL]
    after each [create] call of that acquire.  The [create] calls of a
    rejected acquire are not counted, as [lastCreationTime] is written on
    success only. *)
Theorem acquires_in_sequence_space_creates :
  (forall configs rs w,
      let times := createTimes (events (exec (acquireEach configs) rs w)) in
      spaced MIN_CREATION_INTERVAL times = true /\
      Forall (fun t => lastCreationTime (manager w) + MIN_CREATION_INTERVAL <= t)
             times) /\
  (forall config more rs w h,
      let first := exec (getSession config) rs w in
      let later := exec (acquireAnyway more) (unused first) (final first) in
      outcome first = Resolved h ->
      forall x y,
        In x (createTimes (events first)) ->
        In y (createTimes (events later)) ->
        x + MIN_CREATION_INTERVAL <= y).
Proof.
  split; [intros configs; apply acquireEach_spaced|].
  intros config more rs w h first later Hfirst x y Hx Hy.
  destruct (getSession_times config rs w) as (_ & _ & H3).
  fold first in H3. rewrite Hfirst in H3. destruct H3 as (H3 & _).
  pose proof (acquireAnyway_waits more (unused first) (final first)) as H4.
  fold later in H4. rewrite Forall_forall in H3, H4.
  specialize (H3 x Hx). specialize (H4 y Hy). lia.
Qed.

(** After an acquire that is rejected, the next acquire calls [create]
    without a wait: here 13 ms after the last [create] call of the rejected
    acquire. *)
Example create_follows_a_rejected_acquire_at_once :
  let r := exec (acquireAnyway [plainSummarizer; plainLanguageModel])
                thriceRejected freshWorld in
  createTimes (events r) = [1000003; 1002016; 1004029; 1004042] /\
  spaced MIN_CREATION_INTERVAL (createTimes (events r)) = false.
Proof. vm_compute. split; reflexivity. Qed.

(** *** When the host has no model to give *)

Lemma createTimes_hostCalls (evs : list Event) :
  hostCalls evs = [] -> createTimes evs = [].
Proof.
  induction evs as [|e r IH]; [reflexivity|].
  destruct e; simpl; intros H; auto; discriminate.
Qed.

Lemma getSession_no_global (config : SessionConfig) (rs : list reply) (w : World) :
  pooled config w = None ->
  hasGlobal (cfg_type config) w = false ->
  let r := exec (getSession config) rs w in
  outcome r = Rejected (apiName (cfg_type config) ++ str " API not available") /\
  createTimes (events r) = [] /\
  clock w + 4000 <= clock (final r) /\
  lastCreationTime (manager (final r)) = lastCreationTime (manager w).
Proof.
  intros E Hg. cbv zeta. rewrite (getSession_miss_exec config rs w E).
  destruct (createAndStore_prefix config (sessionKeyOf config) rs w)
    as (evs & rs3 & w3 & -> & Hevs & _ & Hl & _ & Hc & Hg3 & _).
  rewrite createAndRecord_run. cbv zeta.
  assert (Hg' : hasGlobal (cfg_type config) w3 = false).
  { unfold hasGlobal in *. now rewrite Hg3. }
  destruct (createWithRetry_no_global (cfg_type config) (cfg_options config) 2
              rs3 w3 Hg') as (Ho & Hh & Hc4 & Hm).
  set (r4 := exec (createWithRetry _ _ 2) rs3 w3) in *.
  cbn [outcome events final emit]. rewrite Ho.
  rewrite createTimes_app, (createTimes_notCreate _ Hevs),
    (createTimes_hostCalls _ Hh), Hm.
  repeat split; auto. change (Z.of_nat 2) with 2 in Hc4. lia.
Qed.

(** X15.  Without the capability global of its type, an acquire that finds
    no session for its config never calls [create]: it rejects with
    [<Api> API not available], after the two pauses of 2000 ms between its
    three attempts, and leaves [lastCreationTime] as it was. *)
Theorem getSession_without_the_api
        (config : SessionConfig) (rs : list reply) (w : World) :
  pooled config w = None ->
  hasGlobal (cfg_type config) w = false ->
  let r := exec (getSession config) rs w in
  outcome r = Rejected (apiName (cfg_type config) ++ str " API not available") /\
  createTimes (events r) = [] /\
  clock w + 4000 <= clock (final r) /\
  lastCreationTime (manager (final r)) = lastCreationTime (manager w).
Proof. exact (getSession_no_global config rs w). Qed.

(** X16.  [create] is called only after the host has reported the model
    as [available]: in a run in which it never does, an acquire calls no
    [create], and rejects unless it finds a session for its config. *)
Theorem create_needs_an_available_model
        (config : SessionConfig) (rs : list reply) (w : World) :
  Forall notAvailable rs ->
  let r := exec (getSession config) rs w in
  createTimes (events r) = [] /\
  (pooled config w = None -> exists e, outcome r = Rejected e).
Proof.
  intros Hrs. cbv zeta. destruct (pooled config w) as [existing|] eqn:E.
  - rewrite (getSession_hit config existing rs w E). split; [reflexivity|discriminate].
  - rewrite (getSession_miss_exec config rs w E).
    destruct (createAndStore_prefix config (sessionKeyOf config) rs w)
      as (evs & rs3 & w3 & -> & Hevs & _ & _ & _ & _ & _ & Hu & _).
    rewrite createAndRecord_run. cbv zeta.
    destruct (createWithRetry_not_available (cfg_type config) (cfg_options config)
                2 rs3 w3 (Hu _ Hrs)) as (Ht & e & He).
    cbn [outcome events final emit].
    rewrite createTimes_app, (createTimes_notCreate _ Hevs), Ht, He. eauto.
Qed.

(** X17.  Without the [Summarizer] global, [simplifyArticle] for a config
    that has no session rejects with the message that Chrome AI is not
    available; it has called neither [create] nor [summarize]. *)
Theorem simplifyArticle_without_the_api
        (content : text) (level : SimplificationLevel) (context : option text)
        (signal : option nat) (rs : list reply) (w : World) :
  sigAborted signal w = false ->
  pooled (simplifyConfig level context) w = None ->
  hasGlobal summarizer w = false ->
  let r := exec (simplifyArticle content level context signal) rs w in
  outcome r =
    Rejected (str "Chrome AI is not available. Please check your setup.") /\
  createTimes (events r) = [] /\
  processCalls (events r) = [].
Proof.
  intros Hs E Hg. cbv zeta. unfold simplifyArticle.
  rewrite exec_check, Hs, exec_tryCatch, exec_bind, exec_await.
  destruct (getSession_no_global (simplifyConfig level context) rs w E Hg)
    as (Ho & Ht & _).
  pose proof (getSession_notProcess (simplifyConfig level context) rs w) as Hp.
  set (r1 := exec (getSession (simplifyConfig level context)) rs w) in *.
  unfold andThen, orElse. rewrite Ho. cbn [outcome events final unused].
  change (friendlyError (apiName (cfg_type (simplifyConfig level context)) ++
                         str " API not available"))
    with (@Throw text (str "Chrome AI is not available. Please check your setup.")).
  cbn [exec emit outcome events]. rewrite app_nil_r.
  repeat split; auto. now apply processCalls_notProcess.
Qed.

(** X21.  In an acquire run with no other call in flight, every [destroy]
    call, of the sweep or of the eviction, comes before the first [create]
    call: room is made in the pool before the host is asked for a new
    session. *)
Theorem getSession_destroys_before_it_creates
        (config : SessionConfig) (rs : list reply) (w : World) :
  exists before after,
    events (exec (getSession config) rs w) = before ++ after /\
    Forall notCreate before /\
    Forall notDestroy after.
Proof.
  destruct (pooled config w) as [existing|] eqn:E.
  - rewrite (getSession_hit config existing rs w E).
    exists [], []. repeat split; constructor.
  - rewrite (getSession_miss_exec config rs w E).
    destruct (createAndStore_prefix config (sessionKeyOf config) rs w)
      as (evs & rs3 & w3 & -> & Hevs & _ & _).
    rewrite createAndRecord_run. cbv zeta. cbn [events emit].
    exists evs, (events (exec (createWithRetry (cfg_type config)
                                               (cfg_options config) 2) rs3 w3)).
    split; [reflexivity|]. split; [exact Hevs|].
    apply createWithRetry_emits; reflexivity.
Qed.

End Acquiring.

(** ** The events of the statements after the acquisition *)

Section ProcessEvents.

Variable Q : Event -> Prop.
Hypothesis Q_abort : forall time signal, Q (EvAbort time signal).

Variable h : handle.
Variable context : option text.
Variable signal : option nat.
Hypothesis Q_process : forall time input, Q (EvProcess time h input).

#[local] Hint Resolve Q_abort : emits.

Lemma summarize_emits (input : text) : Emits Q (summarize h input context).
Proof. apply Emits_summarize; auto. Qed.
#[local] Hint Resolve summarize_emits : emits.

Lemma processChunks_emits (chunks : list text) :
  forall summaries, Emits Q (processChunks h context signal chunks summaries).
Proof.
  induction chunks as [|c more IH]; intros summaries; cbn [processChunks]; emits.
  destruct more; emits.
Qed.
#[local] Hint Resolve processChunks_emits : emits.

Lemma simplifyWith_emits (content : text) :
  Emits Q (simplifyWith h content context signal).
Proof. unfold simplifyWith, foldSummaries. emits. Qed.

End ProcessEvents.

(** ** The session of a [simplifyArticle] call *)

Section SessionKept.

Variable h : handle.
Variable context : option text.
Variable signal : option nat.

(** The sessions an acquire destroys were in the pool when it started. *)
Lemma getSession_destroys_pooled (config : SessionConfig) (rs : list reply)
      (w : World) :
  let r := exec (getSession config) rs w in
  incl (map snd (destroyCalls (events r))) (handlesOf (sessions (manager w))) /\
  (pooled config w <> None -> events r = []).
Proof.
  cbv zeta. destruct (pooled config w) as [existing|] eqn:E.
  - rewrite (getSession_hit config existing rs w E). cbn [events].
    split; [intros x []|reflexivity].
  - split; [|congruence].
    rewrite (getSession_miss_exec config rs w E).
    destruct (createAndStore_prefix config (sessionKeyOf config) rs w)
      as (evs & rs3 & w3 & -> & _ & Hd & _).
    rewrite createAndRecord_run. cbv zeta. cbn [events emit].
    rewrite destroyCalls_app, map_app,
      (destroyCalls_notDestroy
         (events (exec (createWithRetry (cfg_type config) (cfg_options config) 2)
                       rs3 w3))), app_nil_r; [exact Hd|].
    apply createWithRetry_emits; reflexivity.
Qed.

(** Every [process] call of the statements after the acquisition is on the
    session acquired. *)
Lemma simplifyWith_calls_its_session (content : text) (rs : list reply)
      (w : World) :
  Forall (fun call => fst call = h)
         (processCalls (events (exec (simplifyWith h content context signal) rs w))).
Proof.
  pose proof (simplifyWith_emits
                (fun e => match e with
                          | EvProcess _ h' _ => h' = h
                          | _ => True
                          end)
                (fun _ _ => I) h context signal (fun _ _ => eq_refl)
                content rs w) as H.
  revert H.
  generalize (events (exec (simplifyWith h content context signal) rs w)).
  induction 1 as [|e r He _ IH]; [constructor|].
  destruct e; simpl; auto.
Qed.

(** The statements after the acquisition leave the manager as it is. *)
Lemma processChunks_manager (chunks : list text) :
  forall summaries rs w,
    manager (final (exec (processChunks h context signal chunks summaries) rs w)) =
    manager w.
Proof.
  induction chunks as [|c more IH]; intros acc rs w; [reflexivity|].
  cbn [processChunks]. rewrite exec_check.
  destruct (sigAborted signal w); [reflexivity|].
  rewrite exec_summarize. cbv zeta. cbn [final emit].
  destruct (summary (nextReply rs)) as [s|e]; [|reflexivity].
  destruct more as [|c' more']; [reflexivity|].
  rewrite exec_sleep. cbv zeta. cbn [final emit]. now rewrite IH.
Qed.

Lemma simplifyWith_manager (content : text) (rs : list reply) (w : World) :
  manager (final (exec (simplifyWith h content context signal) rs w)) = manager w.
Proof.
  unfold simplifyWith. cbv zeta. rewrite exec_check.
  destruct (sigAborted signal w); [reflexivity|].
  destruct (MAX_INPUT_TOKENS <? estimateTokens content).
  - rewrite exec_bind. unfold andThen.
    pose proof (processChunks_manager (simplifyChunks content) [] rs w) as Hm.
    set (loop := exec (processChunks h context signal (simplifyChunks content) [])
                      rs w) in *.
    destruct (outcome loop) as [summaries|e]; [|exact Hm].
    cbn [final emit]. unfold foldSummaries. cbv zeta.
    destruct (MAX_INPUT_TOKENS <? estimateTokens _); [|exact Hm].
    rewrite exec_check.
    destruct (sigAborted signal (final loop)); [exact Hm|].
    rewrite exec_summarize. cbv zeta. cbn [final emit].
    destruct (summary (nextReply (unused loop))); exact Hm.
  - rewrite exec_summarize. cbv zeta. cbn [final emit].
    destruct (summary (nextReply rs)); reflexivity.
Qed.

(** A call that has acquired its session: its events and the manager it
    leaves. *)
Lemma simplifyArticle_after_acquire
      (content : text) (level : SimplificationLevel) (rs : list reply) (w : World) :
  let acquired := exec (getSession (simplifyConfig level context)) rs w in
  let work := exec (simplifyWith h content context signal)
                   (unused acquired) (final acquired) in
  let r := exec (simplifyArticle content level context signal) rs w in
  sigAborted signal w = false ->
  outcome acquired = Resolved h ->
  events r = events acquired ++ events work /\
  manager (final r) = manager (final acquired).
Proof.
  intros acquired work r Hw Hacq. subst r.
  rewrite (simplifyArticle_acquired h context signal content level rs w Hw Hacq).
  fold acquired work. unfold orElse. cbn [outcome emit].
  pose proof (simplifyWith_manager content (unused acquired) (final acquired)) as Hm.
  fold work in Hm.
  destruct (outcome work) as [s|e]; [split; [reflexivity|exact Hm]|].
  destruct (friendlyError_throws e) as [e' ->].
  cbn [exec events final emit]. rewrite app_nil_r. split; [reflexivity|exact Hm].
Qed.

End SessionKept.

(** C3 (amended).  In a run of [simplifyArticle] with no other call in
    flight, the session the call has acquired is not destroyed.  Every
    [destroy] call of the run is on a session that was in the pool when the
    call started, and comes before the first [process] call: the events
    split into a part without [process] calls, the acquisition, and a part
    without [destroy] calls, the processing.  Every [process] call is on the
    session acquired; that session is still pooled under the config's key
    when the call ends, and it is not among the sessions destroyed: when
    it was pooled already the run destroys nothing, and otherwise it is the
    session the host has created during the run, which was in no pool
    before. *)
Theorem simplifyArticle_destroys_nothing_while_processing
        (content : text) (level : SimplificationLevel) (context : option text)
        (signal : option nat) (rs : list reply) (w : World) :
  let config := simplifyConfig level context in
  let acquired := exec (getSession config) rs w in
  let r := exec (simplifyArticle content level context signal) rs w in
  let destroyed := map snd (destroyCalls (events r)) in
  (exists acquisition processing,
      events r = acquisition ++ processing /\
      Forall notProcess acquisition /\
      Forall notDestroy processing) /\
  incl destroyed (handlesOf (sessions (manager w))) /\
  (forall h,
      sigAborted signal w = false ->
      outcome acquired = Resolved h ->
      Forall (fun call => fst call = h) (processCalls (events r)) /\
      (exists v, pooled config (final r) = Some v /\ session v = h) /\
      ((pooled config w = None -> ~ In h (handlesOf (sessions (manager w)))) ->
       ~ In h destroyed)).
Proof.
  cbv zeta.
  pose proof (getSession_destroys_pooled (simplifyConfig level context) rs w)
    as (Hdestroys & Hhit). cbv zeta in Hdestroys.
  split; [apply simplifyArticle_events_split|].
  destruct (sigAborted signal w) eqn:Hw.
  { assert (E : exec (simplifyArticle content level context signal) rs w =
                rejected (str "Operation cancelled") rs w).
    { unfold simplifyArticle. now rewrite exec_check, Hw. }
    rewrite E. split; [intros x []|discriminate]. }
  assert (Hall : forall h,
             outcome (exec (getSession (simplifyConfig level context)) rs w) =
             Resolved h ->
             map snd (destroyCalls
                        (events (exec (simplifyArticle content level context signal)
                                      rs w))) =
             map snd (destroyCalls
                        (events (exec (getSession (simplifyConfig level context))
                                      rs w)))).
  { intros h Hacq.
    destruct (simplifyArticle_after_acquire h context signal content level rs w
                Hw Hacq) as (Hev & _).
    rewrite Hev, destroyCalls_app, (destroyCalls_notDestroy _
      (simplifyWith_notDestroy h content context signal _ _)).
    now rewrite app_nil_r. }
  split.
  - destruct (outcome (exec (getSession (simplifyConfig level context)) rs w))
      as [h|e] eqn:Hacq.
    + now rewrite (Hall h eq_refl).
    + assert (E : events (exec (simplifyArticle content level context signal) rs w) =
                  events (exec (getSession (simplifyConfig level context)) rs w)).
      { unfold simplifyArticle.
        rewrite exec_check, Hw, exec_tryCatch, exec_bind, exec_await.
        unfold andThen, orElse. rewrite Hacq. cbn [outcome events emit final unused].
        now rewrite friendlyError_events, app_nil_r. }
      now rewrite E.
  - intros h _ Hacq.
    destruct (simplifyArticle_after_acquire h context signal content level rs w
                Hw Hacq) as (Hev & Hm).
    split; [|split].
    + rewrite Hev, processCalls_app,
        (processCalls_notProcess _
           (getSession_notProcess (simplifyConfig level context) rs w)).
      apply simplifyWith_calls_its_session.
    + destruct (getSession_pooled (simplifyConfig level context) rs w h Hacq)
        as (v & Hv & Hs).
      exists v. split; [|exact Hs]. unfold pooled in *. now rewrite Hm.
    + intros Hfresh Hin. rewrite (Hall h Hacq) in Hin.
      destruct (pooled (simplifyConfig level context) w) as [existing|] eqn:E.
      * rewrite Hhit in Hin by discriminate. exact Hin.
      * apply (Hfresh eq_refl). now apply Hdestroys.
Qed.

(** ** What [simplifyArticle] sends to the session *)

Section Sending.

Variable h : handle.
Variable context : option text.
Variable signal : option nat.

Lemma estimateTokens_over (t : text) :
  ((MAX_INPUT_TOKENS <? estimateTokens t) = true) <->
  (MAX_INPUT_TOKENS * CHARS_PER_TOKEN < len t).
Proof.
  unfold estimateTokens, MAX_INPUT_TOKENS, CHARS_PER_TOKEN.
  rewrite Z.ltb_lt. pose proof (len_nonneg t).
  Z.div_mod_to_equations. lia.
Qed.

Lemma simplifyChunks_loop (content : text) :
  MAX_INPUT_TOKENS * CHARS_PER_TOKEN < len content ->
  splitLoop (S (length content)) content (MAX_INPUT_TOKENS * CHARS_PER_TOKEN) 200 0 [] =
  Some (simplifyChunks content).
Proof.
  intros Hlong. rewrite <- simplifyChunks_total. unfold splitIntoChunks.
  cbn [optMaxChunkSize optOverlap maxChunkSize overlap].
  destruct (Z.leb_spec (len content) (MAX_INPUT_TOKENS * CHARS_PER_TOKEN));
    [lia|reflexivity].
Qed.

(** X6.  [simplifyArticle] splits an article exactly when it is longer
    than 16000 code units; it then gets two chunks or more, and every chunk
    is within [MAX_INPUT_TOKENS] by the estimate that sent the article to
    the splitter. *)
Theorem simplifyArticle_chunks_fit_the_input_limit (content : text) :
  (((MAX_INPUT_TOKENS <? estimateTokens content) = true) <->
   (MAX_INPUT_TOKENS * CHARS_PER_TOKEN < len content)) /\
  (MAX_INPUT_TOKENS * CHARS_PER_TOKEN < len content ->
   (2 <= length (simplifyChunks content))%nat /\
   Forall (fun c => estimateTokens c <= MAX_INPUT_TOKENS) (simplifyChunks content)).
Proof.
  split; [apply estimateTokens_over|]. intros Hlong.
  pose proof (simplifyChunks_loop content Hlong) as H. split.
  - apply (splitLoop_min_chunks content _ 200 1) in H;
      [simpl in H; lia|vm_compute; discriminate|lia|lia].
  - apply (splitLoop_bounded content _ 200) in H;
      [|vm_compute; discriminate|constructor].
    eapply Forall_impl; [|exact H]. cbv beta. intros c Hc.
    unfold estimateTokens, MAX_INPUT_TOKENS, CHARS_PER_TOKEN in *.
    Z.div_mod_to_equations. lia.
Qed.

(** X18.  An article of at most 16000 code units is sent to the session
    whole and as it is, in one [summarize] call; what the host answers is
    what the call gives, a summary or a rejection. *)
Theorem short_article_is_sent_whole
        (content : text) (rs : list reply) (w : World) :
  len content <= MAX_INPUT_TOKENS * CHARS_PER_TOKEN ->
  sigAborted signal w = false ->
  let r := exec (simplifyWith h content context signal) rs w in
  processCalls (events r) = [(h, content)] /\
  outcome r = summary (nextReply rs).
Proof.
  intros Hshort Hs. cbv zeta. unfold simplifyWith. cbv zeta.
  rewrite exec_check, Hs.
  destruct (MAX_INPUT_TOKENS <? estimateTokens content) eqn:E.
  { apply estimateTokens_over in E. lia. }
  rewrite exec_summarize. cbv zeta. cbn [events outcome emit].
  rewrite processCalls_app, processCalls_process, processCalls_abortEvents.
  destruct (summary (nextReply rs)) as [s|e]; split; reflexivity.
Qed.

(** X19.  When the host rejects the [summarize] call of a chunk, the call
    ends with that error: the chunk is not sent again, and the chunks after
    it are not sent at all. *)
Theorem failed_chunk_ends_the_call
        (content : text) (done todo : list text) (chunk : text)
        (rs : list reply) (w : World) (summaries : list text) (e : error) :
  MAX_INPUT_TOKENS * CHARS_PER_TOKEN < len content ->
  simplifyChunks content = done ++ chunk :: todo ->
  sigAborted signal w = false ->
  let before := exec (processPrefix h context signal done []) rs w in
  outcome before = Resolved summaries ->
  sigAborted signal (final before) = false ->
  summary (nextReply (unused before)) = Rejected e ->
  let r := exec (simplifyWith h content context signal) rs w in
  outcome r = Rejected e /\
  processCalls (events r) = map (pair h) (done ++ [chunk]).
Proof.
  intros Hlong Hchunks Hs before Hbefore Hs' Hfail. cbv zeta.
  destruct (processPrefix_resolved h context signal done [] rs w summaries Hbefore)
    as (Hcalls & _). fold before in Hcalls.
  assert (Hrun :
            exec (processChunks h context signal (done ++ chunk :: todo) []) rs w =
            emit (events before)
                 (emit (EvProcess (clock (final before)) h chunk ::
                        abortEvents
                          (clock (final before) +
                           Z.max 0 (elapsed (nextReply (unused before))))
                          (aborts (nextReply (unused before))))
                       (rejected e (tl (unused before))
                          (pass (Z.max 0 (elapsed (nextReply (unused before))))
                                (aborts (nextReply (unused before)))
                                (final before))))).
  { rewrite processChunks_app by discriminate. fold before.
    unfold andThen. rewrite Hbefore. f_equal.
    cbn [processChunks]. rewrite exec_check, Hs', exec_summarize. cbv zeta.
    now rewrite Hfail. }
  unfold simplifyWith. cbv zeta. rewrite exec_check, Hs.
  rewrite (proj2 (estimateTokens_over content) Hlong).
  rewrite exec_bind, Hchunks, Hrun. unfold andThen.
  cbn [outcome events final unused emit rejected].
  split; [reflexivity|].
  rewrite app_nil_r, processCalls_app, processCalls_process,
    processCalls_abortEvents, Hcalls, map_app.
  reflexivity.
Qed.

Lemma processTimes_app (a b : list Event) :
  processTimes (a ++ b) = processTimes a ++ processTimes b.
Proof. apply flat_map_app. Qed.

Lemma processTimes_abortEvents (time : Z) (ss : list nat) :
  processTimes (abortEvents time ss) = [].
Proof. induction ss as [|s r IH]; simpl; auto. Qed.

Lemma spaced_after (gap a : Z) (l : list Z) :
  Forall (fun t => a + gap <= t) l -> spaced gap l = true ->
  spaced gap (a :: l) = true.
Proof.
  intros Hl Hs. destruct l as [|b r]; [reflexivity|].
  rewrite spaced_cons, Hs, andb_true_r. apply Z.leb_le.
  now inversion Hl.
Qed.

(** X22.  The [summarize] calls of the loop over the chunks are 500 ms or
    more apart: each chunk is sent no sooner than 500 ms after the chunk
    before. *)
Theorem chunk_calls_are_paced (chunks : list text) :
  forall summaries rs w,
    let times :=
      map fst (processTimes
                 (events (exec (processChunks h context signal chunks summaries)
                               rs w))) in
    spaced 500 times = true /\ Forall (fun t => clock w <= t) times.
Proof.
  induction chunks as [|c more IH]; intros acc rs w; cbv zeta.
  - simpl. split; [reflexivity|constructor].
  - cbn [processChunks]. rewrite exec_check.
    destruct (sigAborted signal w); [simpl; split; [reflexivity|constructor]|].
    rewrite exec_summarize. cbv zeta. cbn [events emit].
    change (EvProcess (clock w) h c ::
            abortEvents (clock w + Z.max 0 (elapsed (nextReply rs)))
                        (aborts (nextReply rs)))
      with ([EvProcess (clock w) h c] ++
            abortEvents (clock w + Z.max 0 (elapsed (nextReply rs)))
                        (aborts (nextReply rs))).
    rewrite !processTimes_app, processTimes_abortEvents.
    cbn [processTimes flat_map app map fst].
    destruct (summary (nextReply rs)) as [s|e].
    + destruct more as [|c' more'].
      * cbn [bind exec processChunks events processTimes flat_map map].
        split; [reflexivity|]. constructor; [lia|constructor].
      * rewrite exec_sleep. cbv zeta. cbn [events emit].
        rewrite processTimes_app, processTimes_abortEvents. cbn [app].
        destruct (IH (acc ++ [s]) (tl (tl rs))
                     (pass (Z.max (Z.max 0 500) (elapsed (nextReply (tl rs))))
                           (aborts (nextReply (tl rs)))
                           (pass (Z.max 0 (elapsed (nextReply rs)))
                                 (aborts (nextReply rs)) w)))
          as (Hs & Hl).
        cbn [clock pass] in Hl.
        split.
        -- apply spaced_after; [|exact Hs].
           eapply Forall_impl; [|exact Hl]. cbv beta. intros t Ht. lia.
        -- constructor; [lia|].
           eapply Forall_impl; [|exact Hl]. cbv beta. intros t Ht. lia.
    + cbn [rejected events processTimes flat_map map].
      split; [reflexivity|]. constructor; [lia|constructor].
Qed.

End Sending.

(** ** The keys of the pool *)

Section Keys.

(** X20.  Two configs have the same key, and so share a pooled session,
    exactly when they have the same type and the same options text, a
    missing options object counting as [{}]. *)
Theorem sessionKeyOf_same_key (a b : SessionConfig) :
  let optionsText (c : SessionConfig) :=
    match cfg_options c with Some o => o | None => str "{}" end in
  sessionKeyOf a = sessionKeyOf b <->
  cfg_type a = cfg_type b /\ optionsText a = optionsText b.
Proof.
  cbv beta zeta. unfold sessionKeyOf. split.
  - intros H.
    destruct (cfg_type a), (cfg_type b);
      try (exfalso; vm_compute in H; discriminate H);
      (split; [reflexivity|]);
      apply app_inv_head in H; apply app_inv_head in H; exact H.
  - intros [H1 H2]. rewrite H1. do 2 f_equal. exact H2.
Qed.

End Keys.

(** ** Instances of the further properties *)

Section FurtherInstances.

Lemma distinctb_NoDup (keys : list text) : distinctb keys = true -> NoDup keys.
Proof.
  induction keys as [|k more IH]; simpl; intros H; constructor.
  - apply andb_prop in H as [H _]. apply negb_true_iff in H.
    intros Hin. apply Bool.not_true_iff_false in H. apply H.
    apply existsb_exists. exists k. split; [assumption|apply text_eqb_refl].
  - apply andb_prop in H as [_ H]. auto.
Defined.

Lemma poolOkb_ok (m : SessionMap) : poolOkb m = true -> poolOk m.
Proof.
  unfold poolOkb, poolOk. intros H.
  apply andb_prop in H as [H Hs]. apply andb_prop in H as [Hd Hk].
  split; [|split].
  - now apply distinctb_NoDup.
  - apply Forall_forall. intros e He. rewrite forallb_forall in Hk.
    specialize (Hk e He). destruct (fst e); [discriminate|discriminate].
  - now apply Z.leb_le.
Defined.

(** X4: five words split into chunks of at most ten code units that
    overlap by two. *)
Lemma splitIntoChunks_covers_the_text_witness :
  splitIntoChunks 30 fiveWords (chunkOptions 10 2) =
  Some [str "aaaa bbbb"; str "b cccc"; str "c dddd"; str "d eeee"] /\
  splitWindows 30 fiveWords 10 2 0 = [(0, 10); (8, 15); (13, 20); (18, 24)] /\
  (forall i, 0 <= i < len fiveWords ->
             exists w, In w (splitWindows 30 fiveWords 10 2 0) /\ fst w <= i < snd w).
Proof.
  split; [reflexivity|]. split; [reflexivity|].
  refine (proj2 (proj2 (splitIntoChunks_covers_the_text
                          30 fiveWords (chunkOptions 10 2)
                          [str "aaaa bbbb"; str "b cccc"; str "c dddd"; str "d eeee"]
                          _ _ _ _ eq_refl)));
    vm_compute; try reflexivity; discriminate.
Defined.

(** X5: an overlap as large as the chunk size. *)
Lemma splitIntoChunks_never_returns_witness :
  optMaxChunkSize (chunkOptions 4 4) <= optOverlap (chunkOptions 4 4) /\
  optMaxChunkSize (chunkOptions 4 4) < len (letters 10) /\
  splitIntoChunks 1000 (letters 10) (chunkOptions 4 4) = None.
Proof.
  split; [vm_compute; discriminate|]. split; [vm_compute; reflexivity|].
  refine (splitIntoChunks_never_returns (letters 10) (chunkOptions 4 4) _ _ _
                                        1000%nat);
    vm_compute; try reflexivity; discriminate.
Defined.

(** X6: the article of 16001 code units. *)
Lemma simplifyArticle_chunks_fit_the_input_limit_witness :
  MAX_INPUT_TOKENS * CHARS_PER_TOKEN < len twoChunkArticle /\
  (2 <= length (simplifyChunks twoChunkArticle))%nat.
Proof.
  assert (H : MAX_INPUT_TOKENS * CHARS_PER_TOKEN < len twoChunkArticle)
    by (vm_compute; reflexivity).
  split; [exact H|].
  exact (proj1 (proj2 (simplifyArticle_chunks_fit_the_input_limit twoChunkArticle) H)).
Defined.

(** X7: the language model session of the full pool; its [destroy()]
    throws. *)
Lemma destroySession_removes_the_session_witness :
  distinctKeys (sessions (manager fullWorld)) /\
  let r := exec (destroySession plainLanguageModel) [] fullWorld in
  outcome r = Resolved tt /\
  map snd (destroyCalls (events r)) = [2%nat] /\
  pooled plainLanguageModel (final r) = None.
Proof.
  assert (Hd : distinctKeys (sessions (manager fullWorld)))
    by (apply distinctb_NoDup; reflexivity).
  split; [exact Hd|].
  pose proof (destroySession_removes_the_session plainLanguageModel [] fullWorld Hd)
    as H.
  exact (conj (proj1 H) (conj (proj1 (proj2 H)) (proj1 (proj2 (proj2 H))))).
Defined.

(** X8: the full pool. *)
Lemma destroyAll_destroys_every_session_witness :
  distinctKeys (sessions (manager fullWorld)) /\
  let r := exec destroyAll [] fullWorld in
  outcome r = Resolved tt /\
  map snd (destroyCalls (events r)) = [1; 2; 3]%nat /\
  sessions (manager (final r)) = [].
Proof.
  assert (Hd : distinctKeys (sessions (manager fullWorld)))
    by (apply distinctb_NoDup; reflexivity).
  split; [exact Hd|].
  pose proof (destroyAll_destroys_every_session [] fullWorld Hd) as H.
  exact (conj (proj1 H) (conj (proj1 (proj2 H))
                              (proj1 (proj2 (proj2 (proj2 H)))))).
Defined.

(** X9: of the full pool, the summarizer session has expired. *)
Lemma cleanup_sweeps_the_expired_witness :
  distinctKeys (sessions (manager fullWorld)) /\
  let r := exec cleanup [] fullWorld in
  map snd (destroyCalls (events r)) = [1%nat] /\
  map_size (sessions (manager (final r))) = 2.
Proof.
  assert (Hd : distinctKeys (sessions (manager fullWorld)))
    by (apply distinctb_NoDup; reflexivity).
  split; [exact Hd|].
  pose proof (cleanup_sweeps_the_expired [] fullWorld Hd) as H.
  cbv zeta in H |- *.
  split; [exact (proj1 (proj2 (proj2 H)))|].
  rewrite (proj1 (proj2 H)). reflexivity.
Defined.

(** X10: the full pool. *)
Lemma destroyOldestSession_evicts_least_recently_used_witness :
  let m := sessions (manager fullWorld) in
  let r := exec destroyOldestSession [] fullWorld in
  poolOk m /\
  exists k v,
    In (k, v) m /\
    (forall e, In e m -> lastUsedAt v <= lastUsedAt (snd e)) /\
    map snd (destroyCalls (events r)) = [session v] /\
    sessions (manager (final r)) = map_delete k m /\
    pooledKey k (final r) = None /\
    map_size (sessions (manager (final r))) = map_size m - 1.
Proof.
  assert (Hp : poolOk (sessions (manager fullWorld)))
    by (apply poolOkb_ok; reflexivity).
  split; [exact Hp|].
  refine (proj2 (proj2 (destroyOldestSession_evicts_least_recently_used
                          [] fullWorld (proj1 Hp) (proj1 (proj2 Hp)))) _).
  discriminate.
Defined.

(** X11: the first acquire of a fresh extension. *)
Lemma getSession_miss_records_the_creation_witness :
  poolOk (sessions (manager freshWorld)) /\
  pooled plainSummarizer freshWorld = None /\
  let r := exec (getSession plainSummarizer) [answer 3 0; answer 40 1] freshWorld in
  pooled plainSummarizer (final r) =
    Some (newRecord plainSummarizer 1 (clock (final r))) /\
  lastCreationTime (manager (final r)) = clock (final r).
Proof.
  assert (Hp : poolOk (sessions (manager freshWorld)))
    by (apply poolOkb_ok; reflexivity).
  split; [exact Hp|]. split; [reflexivity|].
  exact (getSession_miss_records_the_creation
           plainSummarizer [answer 3 0; answer 40 1] freshWorld Hp eq_refl).
Defined.

(** X13: four configs acquired one after the other. *)
Lemma acquires_in_sequence_stay_within_capacity_witness :
  poolOk (sessions (manager freshWorld)) /\
  map_size
    (sessions (manager (final (exec (acquireEach fourConfigs) fourCreations
                                    freshWorld)))) <= MAX_SESSIONS.
Proof.
  assert (Hp : poolOk (sessions (manager freshWorld)))
    by (apply poolOkb_ok; reflexivity).
  split; [exact Hp|].
  exact (proj1 (acquires_in_sequence_stay_within_capacity
                  fourConfigs fourCreations freshWorld Hp)).
Defined.

(** X15: a browser without the globals. *)
Lemma getSession_without_the_api_witness :
  pooled plainSummarizer bareWorld = None /\
  hasGlobal (cfg_type plainSummarizer) bareWorld = false /\
  let r := exec (getSession plainSummarizer) [] bareWorld in
  outcome r = Rejected (str "Summarizer API not available") /\
  createTimes (events r) = [].
Proof.
  split; [reflexivity|]. split; [reflexivity|].
  pose proof (getSession_without_the_api plainSummarizer [] bareWorld
                eq_refl eq_refl) as H.
  exact (conj (proj1 H) (proj1 (proj2 H))).
Defined.

(** X16: the model is being downloaded during all three attempts. *)
Lemma create_needs_an_available_model_witness :
  let rs := repeat (stillDownloading 3) 5 in
  outcome (exec (getSession plainSummarizer) rs freshWorld) =
    Rejected (str "Summarizer not available: downloading") /\
  createTimes (events (exec (getSession plainSummarizer) rs freshWorld)) = [].
Proof.
  split; [reflexivity|].
  refine (proj1 (create_needs_an_available_model plainSummarizer _ freshWorld _)).
  repeat (apply Forall_cons; [discriminate|]). apply Forall_nil.
Defined.

(** X17: a browser without the globals. *)
Lemma simplifyArticle_without_the_api_witness :
  let r := exec (simplifyArticle shortArticle Mid None None) [] bareWorld in
  outcome r =
    Rejected (str "Chrome AI is not available. Please check your setup.") /\
  createTimes (events r) = [] /\
  processCalls (events r) = [].
Proof.
  exact (simplifyArticle_without_the_api shortArticle Mid None None [] bareWorld
           eq_refl eq_refl eq_refl).
Defined.

(** X18: a short article. *)
Lemma short_article_is_sent_whole_witness :
  len shortArticle <= MAX_INPUT_TOKENS * CHARS_PER_TOKEN /\
  let r := exec (simplifyWith 1 shortArticle None None)
                [summaryOf 900 (str "Short.") []] freshWorld in
  processCalls (events r) = [(1%nat, shortArticle)] /\
  outcome r = Resolved (str "Short.").
Proof.
  assert (H : len shortArticle <= MAX_INPUT_TOKENS * CHARS_PER_TOKEN)
    by (vm_compute; discriminate).
  split; [exact H|].
  exact (short_article_is_sent_whole 1 None None shortArticle
           [summaryOf 900 (str "Short.") []] freshWorld H eq_refl).
Defined.

(** X19: the host rejects the first of two chunks. *)
Lemma failed_chunk_ends_the_call_witness :
  let chunks := simplifyChunks twoChunkArticle in
  let r := exec (simplifyWith 1 twoChunkArticle None None)
                [failure 10 "GPU busy"] freshWorld in
  length chunks = 2%nat /\
  outcome r = Rejected (str "GPU busy") /\
  processCalls (events r) = map (pair 1%nat) ([] ++ [nth 0 chunks []]).
Proof.
  cbv zeta. split; [vm_compute; reflexivity|].
  refine (failed_chunk_ends_the_call 1 None None twoChunkArticle []
            (tl (simplifyChunks twoChunkArticle))
            (nth 0 (simplifyChunks twoChunkArticle) [])
            [failure 10 "GPU busy"] freshWorld [] (str "GPU busy")
            _ _ eq_refl eq_refl eq_refl eq_refl).
  - vm_compute; reflexivity.
  - vm_compute; reflexivity.
Defined.

(** C3: a call that acquires a new session, 4, from a pool of three of which
    session 1 has expired. *)
Lemma simplifyArticle_destroys_nothing_while_processing_witness :
  let rs := [answer 0 0; answer 3 0; answer 40 4;
             summaryOf 900 (str "Short.") []] in
  let r := exec (simplifyArticle shortArticle Mid None None) rs fullWorld in
  outcome (exec (getSession (simplifyConfig Mid None)) rs fullWorld) =
    Resolved 4%nat /\
  ~ In 4%nat (handlesOf (sessions (manager fullWorld))) /\
  map snd (destroyCalls (events r)) = [1%nat] /\
  ~ In 4%nat (map snd (destroyCalls (events r))) /\
  Forall (fun call => fst call = 4%nat) (processCalls (events r)) /\
  exists v, pooled (simplifyConfig Mid None) (final r) = Some v /\ session v = 4%nat.
Proof.
  cbv zeta.
  assert (Hfresh : ~ In 4%nat (handlesOf (sessions (manager fullWorld))))
    by (simpl; intros [H|[H|[H|[]]]]; discriminate).
  destruct (simplifyArticle_destroys_nothing_while_processing
              shortArticle Mid None None
              [answer 0 0; answer 3 0; answer 40 4; summaryOf 900 (str "Short.") []]
              fullWorld) as (_ & _ & H).
  destruct (H 4%nat eq_refl eq_refl) as (Hcalls & Hpooled & Hkept).
  split; [reflexivity|]. split; [exact Hfresh|]. split; [reflexivity|].
  split; [exact (Hkept (fun _ => Hfresh))|]. split; [exact Hcalls|exact Hpooled].
Defined.

End FurtherInstances.
